(** * Visualization geometry of nba-career-analytics

    A shallow embedding of the chart components of the front end
    (RadarChart, CountingGeometrySpider, CareerChart in its two versions,
    SimilarList) together with the properties the specification states
    about them.

    Modelling conventions.
    - A JavaScript [number] that is finite is an exact rational ([Q]);
      rounding of IEEE doubles is not modelled.  Where the code itself
      tests for non-finite values ([Number.isFinite] in SimilarList) the
      type [JS.number] adds [NaN] and the two infinities.
    - [null] and [undefined] are the constructors [Null] and [Undefined]
      of [JS.nullable].
    - Seasons are integers ([Z]); array indices are [nat].
    - The trigonometric step of the radial charts is taken in the real
      numbers ([R]) of the Standard Library.
    - An SVG path string is modelled by the list of its commands. *)

From Stdlib Require Import List Bool Arith ZArith QArith Qminmax Qround.
From Stdlib Require Import Reals Qreals Lia Lra Psatz String Sorted Permutation.
From Equations Require Import Equations.
Import ListNotations.

Set Implicit Arguments.

(** ** JavaScript values *)

Module JS.

Inductive nullable (A : Type) : Type :=
| Undefined
| Null
| Value (a : A).

Arguments Undefined {A}.
Arguments Null {A}.

(** [v !== null && v !== undefined] *)
Definition present {A} (v : nullable A) : bool :=
  match v with
  | Value _ => true
  | _ => false
  end.

(** [v ?? d] *)
Definition nullish {A} (v : nullable A) (d : A) : A :=
  match v with
  | Value a => a
  | _ => d
  end.

(** [xs.filter((v) => v !== null && v !== undefined) as number[]] *)
Fixpoint presentValues {A} (xs : list (nullable A)) : list A :=
  match xs with
  | [] => []
  | Value a :: r => a :: presentValues r
  | _ :: r => presentValues r
  end.

(** [x || d] on a finite number: zero is the only falsy one. *)
Definition orElse (x d : Q) : Q :=
  if Qeq_bool x 0 then d else x.

(** [Math.max(v, ...vs)] and [Math.min(v, ...vs)] of a non-empty spread. *)
Definition Math_max (v : Q) (vs : list Q) : Q := fold_left Qmax vs v.
Definition Math_min (v : Q) (vs : list Q) : Q := fold_left Qmin vs v.

(** [arr.map((x, i) => f(x, i))] *)
Fixpoint mapFrom {A B} (f : A -> nat -> B) (i : nat) (xs : list A) : list B :=
  match xs with
  | [] => []
  | x :: r => f x i :: mapFrom f (S i) r
  end.

Definition mapi {A B} (f : A -> nat -> B) (xs : list A) : list B :=
  mapFrom f 0 xs.

(** [arr.slice(from, to)] for [0 <= from <= to]. *)
Definition slice {A} (from to : nat) (xs : list A) : list A :=
  firstn (to - from) (skipn from xs).

(** A [number] that may be non-finite. *)
Inductive number : Type :=
| Finite (q : Q)
| NaN
| PosInfinity
| NegInfinity.

Definition isFinite (x : number) : bool :=
  match x with
  | Finite _ => true
  | _ => false
  end.

(** [a - b]; opposite infinities and anything with [NaN] give [NaN]. *)
Definition sub (a b : number) : number :=
  match a, b with
  | Finite x, Finite y => Finite (x - y)
  | NaN, _ | _, NaN => NaN
  | PosInfinity, PosInfinity => NaN
  | NegInfinity, NegInfinity => NaN
  | PosInfinity, _ => PosInfinity
  | NegInfinity, _ => NegInfinity
  | Finite _, PosInfinity => NegInfinity
  | Finite _, NegInfinity => PosInfinity
  end.

(** [x > 0] *)
Definition positive (x : number) : bool :=
  match x with
  | Finite q => negb (Qle_bool q 0)
  | PosInfinity => true
  | _ => false
  end.

End JS.

(** ** SVG path data *)

Module Svg.

(** The commands the components emit; [A] is the coordinate type. *)
Inductive cmd (A : Type) : Type :=
| MoveTo (p : A * A)
| LineTo (p : A * A)
| CurveTo (c1 c2 p : A * A)
| QuadTo (c p : A * A)
| SmoothQuadTo (p : A * A)
| ClosePath.

Arguments ClosePath {A}.

Definition path (A : Type) : Type := list (cmd A).

End Svg.

(** ** Radial geometry shared by the two radar components

    Both [buildPath] closures and the ring and spoke loops compute a
    vertex with the same three lines; [n] stands for [axes.length]. *)

Module Radial.

Local Open Scope R_scope.

(** [(Math.PI * 2 * idx) / axes.length - Math.PI / 2] *)
Definition angle (n idx : nat) : R :=
  (PI * 2 * INR idx) / INR n - PI / 2.

(** [[center + Math.cos(angle) * radius * v,
      center + Math.sin(angle) * radius * v]] *)
Definition vertex (center radius : R) (n idx : nat) (v : R) : R * R :=
  (center + cos (angle n idx) * radius * v,
   center + sin (angle n idx) * radius * v).

(** [coords.map((c, i) => `${i === 0 ? "M" : "L"} ${c[0]} ${c[1]}`).join(" ") + " Z"] *)
Definition pathOf (coords : list (R * R)) : Svg.path R :=
  JS.mapi (fun c i => if Nat.eqb i 0 then Svg.MoveTo c else Svg.LineTo c) coords
  ++ [Svg.ClosePath].

End Radial.

(** ** RadarChart (raw per-game statistics, scaled by the per-axis maximum) *)

Module RadarChart.

Import JS.
Local Open Scope Q_scope.

Record Series : Type := {
  player_id : Z;
  name : string;
  pts_per_game : nullable Q;
  ast_per_game : nullable Q;
  reb_per_game : nullable Q;
  fg3_per_game : nullable Q;
  ts_pct : nullable Q;
  availability : nullable Q;
  value_score : nullable Q
}.

Inductive AxisKey : Type :=
| k_pts_per_game | k_ast_per_game | k_reb_per_game | k_fg3_per_game
| k_ts_pct | k_availability | k_value_score.

Definition axes : list (AxisKey * string) :=
  [ (k_pts_per_game, "PTS"%string); (k_ast_per_game, "AST"%string);
    (k_reb_per_game, "REB"%string); (k_fg3_per_game, "3PM"%string);
    (k_ts_pct, "TS%"%string); (k_availability, "AVAIL"%string);
    (k_value_score, "VALUE"%string) ].

(** [s[a.key]] *)
Definition field (s : Series) (k : AxisKey) : nullable Q :=
  match k with
  | k_pts_per_game => pts_per_game s
  | k_ast_per_game => ast_per_game s
  | k_reb_per_game => reb_per_game s
  | k_fg3_per_game => fg3_per_game s
  | k_ts_pct => ts_pct s
  | k_availability => availability s
  | k_value_score => value_score s
  end.

Definition size : R := 360.
Definition center : R := (size / 2)%R.
Definition radius : R := (size / 2 - 30)%R.

(** The [vals] local of the [axes.forEach] body. *)
Definition vals (data : list Series) (k : AxisKey) : list Q :=
  presentValues (map (fun s => field s k) data).

(** [maxPerAxis[a.key]] after the [axes.forEach] loop: the loop assigns
    every key of [axes], and the object is read at those keys only. *)
Definition maxPerAxis (data : list Series) (k : AxisKey) : Q :=
  let maxVal :=
    match vals data k with
    | [] => 1
    | v :: vs => Math_max v vs
    end in
  orElse maxVal 1.

(** The divisor [max] of [buildPath]: [maxPerAxis[axis.key] || 1]. *)
Definition divisor (data : list Series) (k : AxisKey) : Q :=
  orElse (maxPerAxis data k) 1.

(** The [val] local of [buildPath]: [Math.min(raw / max, 1)]. *)
Definition val (data : list Series) (series : Series) (k : AxisKey) : Q :=
  let raw := nullish (field series k) 0 in
  let max := divisor data k in
  Qmin (raw / max) 1.

Definition coords (data : list Series) (series : Series) : list (R * R) :=
  mapi (fun axis idx =>
          Radial.vertex center radius (List.length axes) idx
            (Q2R (val data series (fst axis))))
       axes.

Definition buildPath (data : list Series) (series : Series) : Svg.path R :=
  Radial.pathOf (coords data series).

Definition colors : list string :=
  [ "#f97316"; "#38bdf8"; "#a855f7"; "#22c55e"; "#f59e0b" ]%string.

(** The [color] of the [data.series.map] loop:
    [colors[idx % colors.length]]; [None] stands for [undefined]. *)
Definition color (idx : nat) : option string :=
  nth_error colors (idx mod List.length colors).

End RadarChart.

(** ** CountingGeometrySpider (values already scaled into [0,1]) *)

Module CountingGeometrySpider.

Import JS.
Local Open Scope Q_scope.

Record Series : Type := {
  player_id : Z;
  name : string;
  efficiency : Q;
  threes : Q;
  points : Q;
  rebounds : Q;
  assists : Q;
  steals : Q;
  blocks : Q;
  turnovers : Q;
  distance : nullable Q
}.

Inductive AxisKey : Type :=
| k_efficiency | k_threes | k_points | k_rebounds
| k_assists | k_steals | k_blocks | k_turnovers.

Definition axes : list (AxisKey * string) :=
  [ (k_efficiency, "EFF"%string); (k_threes, "3PT"%string);
    (k_points, "PTS"%string); (k_rebounds, "REB"%string);
    (k_assists, "AST"%string); (k_steals, "STL"%string);
    (k_blocks, "BLK"%string); (k_turnovers, "TOV"%string) ].

Definition field (s : Series) (k : AxisKey) : Q :=
  match k with
  | k_efficiency => efficiency s
  | k_threes => threes s
  | k_points => points s
  | k_rebounds => rebounds s
  | k_assists => assists s
  | k_steals => steals s
  | k_blocks => blocks s
  | k_turnovers => turnovers s
  end.

Definition size : R := 380.
Definition center : R := (size / 2)%R.
Definition radius : R := (size / 2 - 34)%R.

(** The [palette] local of [seriesColor]. *)
Definition palette : list string :=
  [ "#f97316"; "#a855f7"; "#22c55e"; "#f59e0b"; "#fb7185"; "#60a5fa" ]%string.

(** The colour of the selected series. *)
Definition highlight : string := "#38bdf8"%string.

(** [None] stands for [undefined]. *)
Definition seriesColor (idx : nat) : option string :=
  if Nat.eqb idx 0 then Some highlight
  else nth_error palette ((idx - 1) mod List.length palette).

(** The [v] local of [buildPath]:
    [Math.max(0, Math.min(1, Number(s[axis.key]) || 0))]. *)
Definition v (s : Series) (k : AxisKey) : Q :=
  Qmax 0 (Qmin 1 (orElse (field s k) 0)).

Definition coords (s : Series) : list (R * R) :=
  mapi (fun axis idx =>
          Radial.vertex center radius (List.length axes) idx (Q2R (v s (fst axis))))
       axes.

Definition buildPath (s : Series) : Svg.path R :=
  Radial.pathOf (coords s).

(** One [<path>] of the [series.map] loop. *)
Record Polygon : Type := {
  poly_key : Z;
  poly_d : Svg.path R;
  poly_stroke : option string;
  poly_selected : bool
}.

Definition polygons (series : list Series) : list Polygon :=
  mapi (fun s idx =>
          {| poly_key := player_id s;
             poly_d := buildPath s;
             poly_stroke := seriesColor idx;
             poly_selected := Nat.eqb idx 0 |})
       series.

(** One comparison node of the legend. *)
Record LegendNode : Type := {
  node_rank : nat;
  node_series : Series;
  node_color : option string
}.

Record Legend : Type := {
  legend_selected : Series;
  legend_comps : list LegendNode
}.

(** [LegendTree]; [None] is the [null] it returns without a first series. *)
Definition LegendTree (series : list Series)
    (seriesColor : nat -> option string) : option Legend :=
  let selected := nth_error series 0 in
  let comps := slice 1 4 series in
  match selected with
  | None => None
  | Some sel =>
      Some {| legend_selected := sel;
              legend_comps :=
                mapi (fun c idx =>
                        {| node_rank := (idx + 1)%nat;
                           node_series := c;
                           node_color := seriesColor (idx + 1)%nat |})
                     comps |}
  end.

Inductive view : Type :=
| NoData
| Chart (polys : list Polygon) (legend : option Legend).

(** The component, with [data?.series ?? []] already taken. *)
Definition render (series : list Series) : view :=
  if Nat.eqb (List.length series) 0 then NoData
  else Chart (polygons series) (LegendTree series seriesColor).

End CountingGeometrySpider.

(** ** CareerChart: what the two versions of the component share

    The [points] filter and the annotation placement are the same text
    in both versions of CareerChart.tsx. *)

Module Career.

Import JS.
Local Open Scope Q_scope.

(** An element of the [trajectory] (or [comparisonTrajectory]) prop. *)
Record Sample : Type := {
  season : Z;
  value_score : nullable Q;
  annotation : nullable string
}.

(** [type Point = { season: number; success: number | null }] *)
Record Point : Type := {
  p_season : Z;
  success : nullable Q
}.

(** [t.value_score !== null && t.value_score !== undefined] *)
Definition hasValue (t : Sample) : bool := present (value_score t).

(** [t.value_score ?? null] *)
Definition orNull (v : nullable Q) : nullable Q :=
  match v with
  | Value q => Value q
  | _ => Null
  end.

(** [trajectory.filter(...).map((t) => ({ season: t.season, success: t.value_score ?? null }))] *)
Definition points (trajectory : list Sample) : list Point :=
  map (fun t => {| p_season := season t; success := orNull (value_score t) |})
      (filter hasValue trajectory).

(** [p.success as number]: the cast changes nothing at run time, and in
    arithmetic [null] counts as 0. *)
Definition asNumber (v : nullable Q) : Q := nullish v 0.

(** Truthiness of [t.annotation]: a non-empty string. *)
Definition annotationText (a : nullable string) : option string :=
  match a with
  | Value s => if String.eqb s EmptyString then None else Some s
  | _ => None
  end.

Definition ltb (x y : Q) : bool := negb (Qle_bool y x).

Inductive Side : Type := Above | Below.

(** [useBelow] of the annotation closure: [yAbove < 10]. *)
Definition useBelow (y : Q) : bool :=
  let yAbove := y - 60 in
  ltb yAbove 10.

Definition side (y : Q) : Side := if useBelow y then Below else Above.

(** [yPos] of the annotation closure. *)
Definition yPos (y : Q) : Q :=
  let yAbove := y - 60 in
  let yBelow := y + 40 in
  if useBelow y then yBelow else yAbove.

(** What is drawn for one sample with a value: the circle at [(x, y)]
    and, when the sample has an annotation, its text at [(x, yPos)]. *)
Record Mark : Type := {
  mark_season : Z;
  mark_x : Q;
  mark_y : Q;
  mark_note : option (string * Q)
}.

(** [trajectory.filter(...).map((t) => <g key={t.season}> ... </g>)] *)
Definition marks (xScale : Z -> Q) (yScale : Q -> Q) (trajectory : list Sample)
  : list Mark :=
  map (fun t =>
         let x := xScale (season t) in
         let y := yScale (asNumber (value_score t)) in
         {| mark_season := season t;
            mark_x := x;
            mark_y := y;
            mark_note :=
              match annotationText (annotation t) with
              | Some text => Some (text, yPos y)
              | None => None
              end |})
      (filter hasValue trajectory).

Definition Math_maxZ (v : Z) (vs : list Z) : Z := fold_left Z.max vs v.
Definition Math_minZ (v : Z) (vs : list Z) : Z := fold_left Z.min vs v.

(** The end points of a drawn path, in order. *)
Definition anchors {A} (d : Svg.path A) : list (A * A) :=
  flat_map (fun c =>
              match c with
              | Svg.MoveTo p | Svg.LineTo p | Svg.CurveTo _ _ p
              | Svg.QuadTo _ p | Svg.SmoothQuadTo p => [p]
              | Svg.ClosePath => []
              end) d.

End Career.

(** ** CareerChart, first version (quadratic segments) *)

Module CareerChart1.

Import JS Career.
Local Open Scope Q_scope.

Definition width : Q := 640.
Definition height : Q := 240.

(** The body of the [for] loop of [buildSmoothPath], for [i] up to
    [pts.length - 2]. *)
Fixpoint segs (pts : list (Q * Q)) : Svg.path Q :=
  match pts with
  | (x0, y0) :: (((x1, y1) :: _) as rest) =>
      let cx := (x0 + x1) / 2 in
      let cy := (y0 + y1) / 2 in
      Svg.QuadTo (x0, y0) (cx, cy) :: Svg.SmoothQuadTo (x1, y1) :: segs rest
  | _ => []
  end.

Definition buildSmoothPath (pts : list (Q * Q)) : Svg.path Q :=
  if (List.length pts <? 2)%nat then []
  else Svg.MoveTo (nth 0 pts (0, 0)) :: segs pts.

Inductive view : Type :=
| NoData
| Chart (path : Svg.path Q) (dots : list Mark).

Definition coordsOf (xScale : Z -> Q) (yScale : Q -> Q) (pts : list Point)
  : list (Q * Q) :=
  map (fun p => (xScale (p_season p), yScale (asNumber (success p)))) pts.

Definition render (trajectory : list Sample) : view :=
  match points trajectory with
  | [] => NoData
  | p0 :: ps =>
      let pts := p0 :: ps in
      let seasons := map p_season pts in
      let s0 := asNumber (success p0) in
      let successes := map (fun p => asNumber (success p)) ps in
      let minS := Math_min s0 successes in
      let maxS := Math_max s0 successes in
      let padY := orElse ((maxS - minS) * (1 # 10)) 1 in
      let first := inject_Z (p_season p0) in
      let last := inject_Z (List.last seasons (p_season p0)) in
      let xScale (s : Z) :=
        ((inject_Z s - first) / orElse (last - first) 1) * (width - 40) + 20 in
      let yScale (v : Q) :=
        let min := minS - padY in
        let max := maxS + padY in
        height - 20 - ((v - min) / orElse (max - min) 1) * (height - 40) in
      let coords := coordsOf xScale yScale pts in
      Chart (buildSmoothPath coords) (marks xScale yScale trajectory)
  end.

End CareerChart1.

(** ** CareerChart, second version (Catmull-Rom segments, comparison
    series, season ticks) *)

Module CareerChart2.

Import JS Career.
Local Open Scope Q_scope.

Definition width : Q := 640.
Definition height : Q := 270.
Definition pad_left : Q := 24.
Definition pad_right : Q := 22.
Definition pad_top : Q := 22.
Definition pad_bottom : Q := 40.

(** [Math.max(lo, Math.min(hi, v))] on array indices. *)
Definition clamp (v lo hi : Z) : Z := Z.max lo (Z.min hi v).

Definition tension : Q := 9 # 10.

(** [p(i)]: [pts[clamp(i, 0, pts.length - 1)]]. *)
Definition p (pts : list (Q * Q)) (i : Z) : Q * Q :=
  nth (Z.to_nat (clamp i 0 (Z.of_nat (List.length pts) - 1))) pts (0, 0).

(** The body of the [for] loop of [buildSmoothPath] at index [i]. *)
Definition segment (pts : list (Q * Q)) (i : Z) : Svg.cmd Q :=
  let '(x0, y0) := p pts (i - 1) in
  let '(x1, y1) := p pts i in
  let '(x2, y2) := p pts (i + 1) in
  let '(x3, y3) := p pts (i + 2) in
  let c1x := x1 + ((x2 - x0) / 6) * tension in
  let c1y := y1 + ((y2 - y0) / 6) * tension in
  let c2x := x2 - ((x3 - x1) / 6) * tension in
  let c2y := y2 - ((y3 - y1) / 6) * tension in
  Svg.CurveTo (c1x, c1y) (c2x, c2y) (x2, y2).

Definition buildSmoothPath (pts : list (Q * Q)) : Svg.path Q :=
  if (List.length pts <? 2)%nat then []
  else
    Svg.MoveTo (nth 0 pts (0, 0))
    :: map (fun i => segment pts (Z.of_nat i)) (seq 0 (List.length pts - 1)).

(** The [for (let y = minSeason; y <= maxSeason; y += step)] loop of
    [buildTicks], entered at [y]; [c] is [Math.ceil(span / desired)], so
    the step is [Math.max(1, c)]. *)
Equations? ticksLoop (c maxSeason y : Z) : list Z
  by wf (Z.to_nat (maxSeason - y + 1)) lt :=
ticksLoop c maxSeason y with Z_le_gt_dec y maxSeason := {
  | left _ => y :: ticksLoop c maxSeason (y + Z.max 1 c)
  | right _ => [] }.
Proof. lia. Defined.

Definition desired : Z := 8.

Definition stepOf (minSeason maxSeason : Z) : Z :=
  let span := (maxSeason - minSeason)%Z in
  Z.max 1 (Qceiling (inject_Z span / inject_Z desired)).

Definition buildTicks (minSeason maxSeason : Z) : list Z :=
  let span := (maxSeason - minSeason)%Z in
  let ticks := ticksLoop (Qceiling (inject_Z span / inject_Z desired)) maxSeason minSeason in
  match List.last (map Some ticks) None with
  | Some t => if Z.eqb t maxSeason then ticks else ticks ++ [maxSeason]
  | None => ticks ++ [maxSeason]
  end.

Inductive view : Type :=
| NoData
| Chart (path compPath : Svg.path Q) (compDots : list (Q * Q))
        (dots : list Mark) (ticks : list Z).

Definition coordsOf (xScale : Z -> Q) (yScale : Q -> Q) (pts : list Point)
  : list (Q * Q) :=
  map (fun p => (xScale (p_season p), yScale (asNumber (success p)))) pts.

Definition render (trajectory comparisonTrajectory : list Sample) : view :=
  let compPoints := points comparisonTrajectory in
  match points trajectory with
  | [] => NoData
  | p0 :: ps =>
      let pts := p0 :: ps in
      let otherSeasons := map p_season ps ++ map p_season compPoints in
      let minSeason := Math_minZ (p_season p0) otherSeasons in
      let maxSeason := Math_maxZ (p_season p0) otherSeasons in
      let s0 := asNumber (success p0) in
      let successes :=
        map (fun p => asNumber (success p)) ps
        ++ map (fun p => asNumber (success p)) compPoints in
      let minS := Math_min s0 successes in
      let maxS := Math_max s0 successes in
      let padY := orElse ((maxS - minS) * (1 # 10)) 1 in
      let xScale (s : Z) :=
        ((inject_Z s - inject_Z minSeason)
           / orElse (inject_Z maxSeason - inject_Z minSeason) 1)
        * (width - pad_left - pad_right) + pad_left in
      let yScale (v : Q) :=
        let min := minS - padY in
        let max := maxS + padY in
        height - pad_bottom
        - ((v - min) / orElse (max - min) 1) * (height - pad_top - pad_bottom) in
      let coords := coordsOf xScale yScale pts in
      let compCoords := coordsOf xScale yScale compPoints in
      Chart (buildSmoothPath coords) (buildSmoothPath compCoords)
            compCoords (marks xScale yScale trajectory)
            (buildTicks minSeason maxSeason)
  end.

End CareerChart2.

(** ** SimilarList, second version (cards sorted by distance) *)

Module SimilarList.

Import JS.

Record Comp : Type := {
  player_id : Z;
  name : string;
  distance : number;
  similarity_rank : Z
}.

(** [arr.sort(cmp)]: the sort of an array is stable, and an element moves
    behind another one only when the comparator is positive on the pair;
    insertion from the right end is the simplest sort of that kind. *)
Fixpoint insert {A} (cmp : A -> A -> number) (x : A) (l : list A) : list A :=
  match l with
  | [] => [x]
  | y :: r => if positive (cmp x y) then y :: insert cmp x r else x :: l
  end.

Fixpoint sort {A} (cmp : A -> A -> number) (l : list A) : list A :=
  match l with
  | [] => []
  | x :: r => insert cmp x (sort cmp r)
  end.

(** [(a, b) => a.distance - b.distance] *)
Definition byDistance (a b : Comp) : number := sub (distance a) (distance b).

(** [[...comps].filter((c) => Number.isFinite(c.distance)).sort(...)] *)
Definition sorted (comps : list Comp) : list Comp :=
  sort byDistance (filter (fun c => isFinite (distance c)) comps).

(** One [similar-card]: the rank shown and the entry it shows. *)
Record Card : Type := {
  card_rank : nat;
  card_comp : Comp
}.

Inductive view : Type :=
| NoComps
| Grid (cards : list Card).

Definition cards (comps : list Comp) : list Card :=
  mapi (fun c idx => {| card_rank := idx + 1; card_comp := c |}) (sorted comps).

Definition render (comps : list Comp) : view :=
  if Nat.eqb (List.length (sorted comps)) 0 then NoComps
  else Grid (cards comps).

End SimilarList.

(** ** What an SVG path draws

    The meaning of the path commands the components emit, after the SVG
    path grammar: every command but [M] draws one Bezier curve from the
    current point; [T] takes as control point the reflection of the
    previous quadratic control point about the current point.  Control
    points are the rationals the code computes; a curve is evaluated at
    a real parameter. *)

Module Bezier.

Local Open Scope R_scope.

Inductive curve : Type :=
| Line (a b : Q * Q)
| Quad (a c b : Q * Q)
| Cubic (a c1 c2 b : Q * Q).

(** The pen: current point, start of the sub-path, and the control
    point of the previous command when that was [Q] or [T]. *)
Record pen : Type := {
  cur : Q * Q;
  start : Q * Q;
  lastQuad : option (Q * Q)
}.

Definition reflect (c about : Q * Q) : Q * Q :=
  ((2 * fst about - fst c)%Q, (2 * snd about - snd c)%Q).

Fixpoint draw (st : option pen) (d : Svg.path Q) : list curve :=
  match d with
  | [] => []
  | Svg.MoveTo p0 :: r =>
      draw (Some {| cur := p0; start := p0; lastQuad := None |}) r
  | cmd :: r =>
      match st with
      | None => []
      | Some s =>
          match cmd with
          | Svg.LineTo b =>
              Line (cur s) b
              :: draw (Some {| cur := b; start := start s; lastQuad := None |}) r
          | Svg.CurveTo c1 c2 b =>
              Cubic (cur s) c1 c2 b
              :: draw (Some {| cur := b; start := start s; lastQuad := None |}) r
          | Svg.QuadTo c b =>
              Quad (cur s) c b
              :: draw (Some {| cur := b; start := start s; lastQuad := Some c |}) r
          | Svg.SmoothQuadTo b =>
              let c := match lastQuad s with
                       | Some c0 => reflect c0 (cur s)
                       | None => cur s
                       end in
              Quad (cur s) c b
              :: draw (Some {| cur := b; start := start s; lastQuad := Some c |}) r
          | Svg.ClosePath =>
              Line (cur s) (start s)
              :: draw (Some {| cur := start s; start := start s; lastQuad := None |}) r
          | Svg.MoveTo _ => []
          end
      end
  end.

(** The curves of a whole path string. *)
Definition curves (d : Svg.path Q) : list curve := draw None d.

Definition toR (p0 : Q * Q) : R * R := (Q2R (fst p0), Q2R (snd p0)).

(** [a + s * (b - a)], coordinate by coordinate. *)
Definition along (a b : R * R) (s : R) : R * R :=
  (fst a + s * (fst b - fst a), snd a + s * (snd b - snd a)).

Definition quadCoord (t a c b : R) : R :=
  (1 - t) ^ 2 * a + 2 * (1 - t) * t * c + t ^ 2 * b.

Definition cubicCoord (t a c1 c2 b : R) : R :=
  (1 - t) ^ 3 * a + 3 * (1 - t) ^ 2 * t * c1 + 3 * (1 - t) * t ^ 2 * c2 + t ^ 3 * b.

(** The point of a curve at the parameter [t] of [0,1]. *)
Definition pointAt (c : curve) (t : R) : R * R :=
  match c with
  | Line a b => along (toR a) (toR b) t
  | Quad a c0 b =>
      (quadCoord t (Q2R (fst a)) (Q2R (fst c0)) (Q2R (fst b)),
       quadCoord t (Q2R (snd a)) (Q2R (snd c0)) (Q2R (snd b)))
  | Cubic a c1 c2 b =>
      (cubicCoord t (Q2R (fst a)) (Q2R (fst c1)) (Q2R (fst c2)) (Q2R (fst b)),
       cubicCoord t (Q2R (snd a)) (Q2R (snd c1)) (Q2R (snd c2)) (Q2R (snd b)))
  end.

(** The share of the way from [a] to [b] covered at parameter [t] by the
    cubic whose inner control points sit at 3/20 and 17/20 of the way. *)
Definition cubicShare (t : R) : R :=
  3 * (1 - t) ^ 2 * t * (3 / 20) + 3 * (1 - t) * t ^ 2 * (17 / 20) + t ^ 3.

(** [q] lies on the straight segment from [a] to [b]. *)
Definition onSegment (a b : Q * Q) (q : R * R) : Prop :=
  exists s : R, 0 <= s <= 1 /\ q = along (toR a) (toR b) s.

(** Every point a path draws lies on the segment from [a] to [b]. *)
Definition drawsWithin (d : Svg.path Q) (a b : Q * Q) : Prop :=
  forall (c : curve) (t : R),
    In c (curves d) -> 0 <= t <= 1 -> onSegment a b (pointAt c t).

(** Every point of the segment from [a] to [b] is drawn by the path. *)
Definition coversSegment (d : Svg.path Q) (a b : Q * Q) : Prop :=
  forall s : R,
    0 <= s <= 1 ->
    exists (c : curve) (t : R),
      In c (curves d) /\ 0 <= t <= 1 /\ pointAt c t = along (toR a) (toR b) s.

End Bezier.

(** ** Statements of the specification and sample data *)

(** What the specification asks of a colour assignment: the colour of
    index 0 is given to no index [k >= 1]. *)
Definition reservedHighlight (colorFor : nat -> option string) : Prop :=
  forall k : nat, (1 <= k)%nat -> colorFor k <> colorFor 0%nat.

(** Two series with little data: points per game is 0 for one and absent
    for the other, and one composite value score is negative, which the
    type [number | null] admits. *)
Definition radar_low : RadarChart.Series :=
  {| RadarChart.player_id := 1; RadarChart.name := "low";
     RadarChart.pts_per_game := JS.Value 0; RadarChart.ast_per_game := JS.Null;
     RadarChart.reb_per_game := JS.Null; RadarChart.fg3_per_game := JS.Null;
     RadarChart.ts_pct := JS.Null; RadarChart.availability := JS.Null;
     RadarChart.value_score := JS.Value (-5 # 1) |}.

Definition radar_high : RadarChart.Series :=
  {| RadarChart.player_id := 2; RadarChart.name := "high";
     RadarChart.pts_per_game := JS.Null; RadarChart.ast_per_game := JS.Null;
     RadarChart.reb_per_game := JS.Null; RadarChart.fg3_per_game := JS.Null;
     RadarChart.ts_pct := JS.Null; RadarChart.availability := JS.Null;
     RadarChart.value_score := JS.Value (10 # 1) |}.

(** What C1 asks of the RadarChart. *)
Definition radarNormalizedInUnit : Prop :=
  forall (data : list RadarChart.Series) (s : RadarChart.Series)
         (k : RadarChart.AxisKey),
    In s data -> (0 <= RadarChart.val data s k <= 1)%Q.

(** The three-season scenario of the specification: the middle season
    has no value, the last one carries an annotation. *)
Definition scenario : list Career.Sample :=
  [ {| Career.season := 2020; Career.value_score := JS.Value (182 # 10);
       Career.annotation := JS.Null |};
    {| Career.season := 2021; Career.value_score := JS.Null;
       Career.annotation := JS.Null |};
    {| Career.season := 2022; Career.value_score := JS.Value (245 # 10);
       Career.annotation := JS.Value "All-Star"%string |} ].

(** [a] is listed before [b] in ascending order of distance: both
    distances are finite and the first is at most the second. *)
Definition leDistance (a b : SimilarList.Comp) : Prop :=
  match SimilarList.distance a, SimilarList.distance b with
  | JS.Finite x, JS.Finite y => (x <= y)%Q
  | _, _ => False
  end.

(** Four comparison entries: supplied ranks that disagree with the
    distances, and one distance that is not a number. *)
Definition sample_comps : list SimilarList.Comp :=
  [ {| SimilarList.player_id := 11; SimilarList.name := "A";
       SimilarList.distance := JS.Finite (7 # 10);
       SimilarList.similarity_rank := 1 |};
    {| SimilarList.player_id := 12; SimilarList.name := "B";
       SimilarList.distance := JS.NaN;
       SimilarList.similarity_rank := 2 |};
    {| SimilarList.player_id := 13; SimilarList.name := "C";
       SimilarList.distance := JS.Finite (2 # 10);
       SimilarList.similarity_rank := 3 |};
    {| SimilarList.player_id := 14; SimilarList.name := "D";
       SimilarList.distance := JS.Finite (5 # 10);
       SimilarList.similarity_rank := 9 |} ].

(** A spider series that is at full value on every axis. *)
Definition spider_sample (id : Z) : CountingGeometrySpider.Series :=
  {| CountingGeometrySpider.player_id := id;
     CountingGeometrySpider.name := "P";
     CountingGeometrySpider.efficiency := 1;
     CountingGeometrySpider.threes := 1;
     CountingGeometrySpider.points := 1;
     CountingGeometrySpider.rebounds := 1;
     CountingGeometrySpider.assists := 1;
     CountingGeometrySpider.steals := 1;
     CountingGeometrySpider.blocks := 1;
     CountingGeometrySpider.turnovers := 1;
     CountingGeometrySpider.distance := JS.Null |}.

(** * Further parts of the components *)

(** ** The scales of CareerChart

    [xScale] and [yScale] are closures over the domain the component
    computes; here the domain is a parameter.  In the first version the
    season domain is [seasons[0]] and [seasons[seasons.length - 1]], in
    the second one [minSeason] and [maxSeason]; the value domain is
    [minS] and [maxS] in both.

    The scales are taken over exact rationals.  There the padding
    [padY] is never lost, so an ordinate is strictly inside the frame;
    with doubles the padding of two values a few units in the last place
    apart is absorbed ([minS - padY] is [minS] again) and the extreme
    values are drawn on the frame lines themselves, and a quotient may
    round to either side of a threshold.  What is stated below about
    ordinates is therefore stated with closed bounds and on the ordinate
    the chart has computed: such statements hold of every rounding that
    keeps the order. *)

Module CareerScale.

Import JS.
Local Open Scope Q_scope.

(** [(maxS - minS) * 0.1 || 1] *)
Definition padY (minS maxS : Q) : Q := orElse ((maxS - minS) * (1 # 10)) 1.

(** [xScale] of the first version. *)
Definition xScale1 (first last : Z) (s : Z) : Q :=
  ((inject_Z s - inject_Z first) / orElse (inject_Z last - inject_Z first) 1)
  * (CareerChart1.width - 40) + 20.

(** [yScale] of the first version. *)
Definition yScale1 (minS maxS : Q) (v : Q) : Q :=
  let min := minS - padY minS maxS in
  let max := maxS + padY minS maxS in
  CareerChart1.height - 20
  - ((v - min) / orElse (max - min) 1) * (CareerChart1.height - 40).

(** [xScale] of the second version. *)
Definition xScale2 (minSeason maxSeason : Z) (s : Z) : Q :=
  ((inject_Z s - inject_Z minSeason)
     / orElse (inject_Z maxSeason - inject_Z minSeason) 1)
  * (CareerChart2.width - CareerChart2.pad_left - CareerChart2.pad_right)
  + CareerChart2.pad_left.

(** [yScale] of the second version. *)
Definition yScale2 (minS maxS : Q) (v : Q) : Q :=
  let min := minS - padY minS maxS in
  let max := maxS + padY minS maxS in
  CareerChart2.height - CareerChart2.pad_bottom
  - ((v - min) / orElse (max - min) 1)
    * (CareerChart2.height - CareerChart2.pad_top - CareerChart2.pad_bottom).

(** The seasons and the values of a list of points. *)
Definition seasonsOf (pts : list Career.Point) : list Z :=
  map Career.p_season pts.

Definition successesOf (pts : list Career.Point) : list Q :=
  map (fun p => Career.asNumber (Career.success p)) pts.

(** [Math.min(...xs)] and [Math.max(...xs)] of a spread that is known
    not to be empty; the default is never used then. *)
Definition minZ (xs : list Z) : Z :=
  match xs with [] => 0%Z | x :: r => Career.Math_minZ x r end.

Definition maxZ (xs : list Z) : Z :=
  match xs with [] => 0%Z | x :: r => Career.Math_maxZ x r end.

Definition minQ (xs : list Q) : Q :=
  match xs with [] => 0 | x :: r => Math_min x r end.

Definition maxQ (xs : list Q) : Q :=
  match xs with [] => 0 | x :: r => Math_max x r end.

(** The plot frame of the second version, its border included: from the
    left to the right padding, and from the top padding to the axis
    line. *)
Definition inFrame2 (x y : Q) : Prop :=
  CareerChart2.pad_left <= x <= CareerChart2.width - CareerChart2.pad_right
  /\ CareerChart2.pad_top <= y <= CareerChart2.height - CareerChart2.pad_bottom.

(** The plot frame of the first version, its border included. *)
Definition inFrame1 (x y : Q) : Prop :=
  20 <= x <= CareerChart1.width - 20
  /\ 20 <= y <= CareerChart1.height - 20.

End CareerScale.

(** [a] and [b] are neighbours in the list, [a] first. *)
Definition consecutive {A} (pts : list A) (a b : A) : Prop :=
  exists i : nat, nth_error pts i = Some a /\ nth_error pts (S i) = Some b.

(** ** The scaffold of the radial charts: rings, spokes and labels *)

Module SpiderScaffold.

Import CountingGeometrySpider.
Local Open Scope R_scope.

Definition rings : list R := [0.2; 0.4; 0.6; 0.8; 1].

(** The points of the ring polygon at the fraction [r]. *)
Definition ringPoints (r : R) : list (R * R) :=
  JS.mapi (fun _ i =>
             let angle := Radial.angle (List.length axes) i in
             (center + cos angle * radius * r, center + sin angle * radius * r))
          axes.

(** The outer end [(x, y)] of the spoke of axis [i]. *)
Definition spokeEnd (i : nat) : R * R :=
  let angle := Radial.angle (List.length axes) i in
  (center + cos angle * radius, center + sin angle * radius).

(** The anchor [(lx, ly)] of the label of axis [i]. *)
Definition labelPos (i : nat) : R * R :=
  let angle := Radial.angle (List.length axes) i in
  (center + cos angle * (radius + 16), center + sin angle * (radius + 16)).

End SpiderScaffold.

(** The square [0, size] x [0, size] of a viewBox. *)
Definition inViewBox (size : R) (q : R * R) : Prop :=
  (0 <= fst q <= size /\ 0 <= snd q <= size)%R.

(** The closed disc around [(c, c)]. *)
Definition inDisc (c radius : R) (q : R * R) : Prop :=
  ((fst q - c) ^ 2 + (snd q - c) ^ 2 <= radius ^ 2)%R.

(** ** The legend tree of the counting-geometry spider: colours and head shots *)

Module LegendTree.

Import Stdlib.Strings.Ascii.
Local Open Scope Z_scope.

(** The value of a character of the class [a-fA-F0-9] as a digit of
    base 16; [None] for a character outside the class. *)
Definition hexDigit (c : ascii) : option Z :=
  let n := Z.of_N (N_of_ascii c) in
  if (48 <=? n) && (n <=? 57) then Some (n - 48)
  else if (65 <=? n) && (n <=? 70) then Some (n - 55)
  else if (97 <=? n) && (n <=? 102) then Some (n - 87)
  else None.

Fixpoint hexDigits (s : string) : option (list Z) :=
  match s with
  | EmptyString => Some []
  | String c r =>
      match hexDigit c, hexDigits r with
      | Some d, Some ds => Some (d :: ds)
      | _, _ => None
      end
  end.

(** [/^#?([a-fA-F0-9]{6})$/.exec(hex)]: the digits of the group, or
    [None] when the string does not match. *)
Definition execHex (hex : string) : option (list Z) :=
  let body :=
    match hex with
    | String c r => if Ascii.eqb c "#" then r else hex
    | EmptyString => hex
    end in
  match hexDigits body with
  | Some ds => if Nat.eqb (List.length ds) 6 then Some ds else None
  | None => None
  end.

(** [parseInt(m[1], 16)] on the digits of the group. *)
Definition parseInt16 (ds : list Z) : Z :=
  fold_left (fun acc d => acc * 16 + d) ds 0.

(** The four numbers of an [rgba(r,g,b,alpha)] string. *)
Record Rgba : Type := {
  red : Z;
  green : Z;
  blue : Z;
  alpha : Q
}.

Definition hexToRgba (hex : string) (a : Q) : Rgba :=
  match execHex hex with
  | None => {| red := 255; green := 255; blue := 255; alpha := a |}
  | Some ds =>
      let int := parseInt16 ds in
      {| red := Z.land (Z.shiftr int 16) 255;
         green := Z.land (Z.shiftr int 8) 255;
         blue := Z.land int 255;
         alpha := a |}
  end.

(** [hexToRgba(color, 0.45)] of a legend node; a colour that is
    [undefined] reaches the regular expression as the string
    "undefined". *)
Definition borderColor (color : option string) : Rgba :=
  hexToRgba (match color with Some c => c | None => "undefined"%string end)
            (45 # 100).

(** The sources of a head shot: the two remote images of a player and
    the inline placeholder. *)
Inductive source : Type :=
| Primary (playerId : Z)
| Alternate (playerId : Z)
| Placeholder.

(** The [<img>] of [renderHeadshot]: its [src] and its [data-stage]. *)
Record Img : Type := {
  src : source;
  stage : string
}.

Definition renderHeadshot (playerId : Z) : Img :=
  {| src := Primary playerId; stage := "primary" |}.

(** The [onError] handler of the image of the player [playerId]. *)
Definition onError (playerId : Z) (img : Img) : Img :=
  if String.eqb (stage img) "primary"
  then {| src := Alternate playerId; stage := "alternate" |}
  else {| src := Placeholder; stage := "fallback" |}.

End LegendTree.

(** ** ProfileCard: the head shot with three remote sources *)

Module ProfileCard.

Inductive source : Type :=
| Primary (playerId : Z)
| Legacy (playerId : Z)
| Alternate (playerId : Z)
| Fallback.

(** The state of the component.  [playerId] is [None] when
    [player?.player_id] is falsy. *)
Record State : Type := {
  src : source;
  triedAlternate : bool;
  triedLegacy : bool
}.

(** The three memoized addresses; [None] stands for [null]. *)
Definition primary (playerId : option Z) : option source :=
  option_map Primary playerId.
Definition legacy (playerId : option Z) : option source :=
  option_map Legacy playerId.
Definition alternate (playerId : option Z) : option source :=
  option_map Alternate playerId.

(** The effect that runs when [primary] changes. *)
Definition reset (playerId : option Z) : State :=
  {| src := match primary playerId with Some p => p | None => Fallback end;
     triedAlternate := false;
     triedLegacy := false |}.

Definition source_eqb (a b : source) : bool :=
  match a, b with
  | Primary x, Primary y | Legacy x, Legacy y | Alternate x, Alternate y =>
      Z.eqb x y
  | Fallback, Fallback => true
  | _, _ => false
  end.

Definition onError (playerId : option Z) (st : State) : State :=
  match negb (triedAlternate st), alternate playerId with
  | true, Some a =>
      {| src := a; triedAlternate := true; triedLegacy := triedLegacy st |}
  | _, _ =>
      match negb (triedLegacy st), legacy playerId with
      | true, Some l =>
          {| src := l; triedAlternate := triedAlternate st; triedLegacy := true |}
      | _, _ =>
          if negb (source_eqb (src st) Fallback)
          then {| src := Fallback; triedAlternate := triedAlternate st;
                  triedLegacy := triedLegacy st |}
          else st
      end
  end.

(** [n] failures in a row. *)
Fixpoint failures (playerId : option Z) (n : nat) (st : State) : State :=
  match n with
  | O => st
  | S m => failures playerId m (onError playerId st)
  end.

End ProfileCard.

(** ** App: the players offered for selection

    A player of the [players] list, with the fields the filters read.
    A field that is [null] or missing is [Null] or [Undefined];
    [seasons_played] is [Some] list when it is an array, and an element
    of the array that is not a number is [Null]. *)

Module App.

Import JS.
Local Open Scope Z_scope.

Record Player : Type := {
  player_id : Z;
  season_count : nullable Z;
  from_year : nullable Z;
  to_year : nullable Z;
  seasons_played : option (list (nullable Z))
}.

Definition maxUiSeason : Z := 2024.

(** The callback of [eligiblePlayers]. *)
Definition eligible (p : Player) : bool :=
  match season_count p with
  | Value count => 3 <=? count
  | _ =>
      match from_year p, to_year p with
      | Value f, Value t => 3 <=? t - f + 1
      | _, _ => false
      end
  end.

Definition eligiblePlayers (players : list Player) : list Player :=
  filter eligible players.

(** [seasons.add(s)] on a [Set] kept in insertion order. *)
Definition add (seasons : list Z) (s : Z) : list Z :=
  if existsb (Z.eqb s) seasons then seasons else seasons ++ [s].

(** [for (let y = ...; y <= hi; y++) seasons.add(y)], entered at [y]. *)
Equations? addYears (hi y : Z) (seasons : list Z) : list Z
  by wf (Z.to_nat (hi - y + 1)) lt :=
addYears hi y seasons with Z_le_gt_dec y hi := {
  | left _ => addYears hi (y + 1) (add seasons y)
  | right _ => seasons }.
Proof. lia. Defined.

(** The body of [players.forEach] in [seasonOptions]. *)
Definition addPlayer (seasons : list Z) (p : Player) : list Z :=
  match seasons_played p with
  | Some played =>
      fold_left (fun acc s =>
                   match s with
                   | Value z => if z <=? maxUiSeason then add acc z else acc
                   | _ => acc
                   end)
                played seasons
  | None =>
      match from_year p, to_year p with
      | Value f, Value t => addYears (Z.min t maxUiSeason) f seasons
      | _, _ => seasons
      end
  end.

(** [(a, b) => b - a] *)
Definition descending (a b : Z) : number :=
  sub (Finite (inject_Z b)) (Finite (inject_Z a)).

Definition seasonOptions (players : list Player) : list Z :=
  SimilarList.sort descending (fold_left addPlayer players []).

(** The season test of [filteredPlayers] for the season [seasonFilter]. *)
Definition playedIn (seasonFilter : Z) (p : Player) : bool :=
  match seasons_played p with
  | Some played =>
      existsb (fun s => match s with Value z => Z.eqb z seasonFilter | _ => false end)
              played
  | None =>
      match from_year p, to_year p with
      | Value f, Value t =>
          (f <=? seasonFilter) && (seasonFilter <=? Z.min t maxUiSeason)
      | _, _ => false
      end
  end.

(** [seasonFilter]: ["all"] is [None]. *)
Definition filteredPlayers (players : list Player) (seasonFilter : option Z)
  : list Player :=
  match seasonFilter with
  | None => eligiblePlayers players
  | Some s => filter (playedIn s) (eligiblePlayers players)
  end.

(** The effect that repairs the selection; the result is the value of
    [selected] after it ran ([None] is [null]). *)
Definition reselect (filtered : list Player) (selected : option Z) : option Z :=
  match filtered with
  | [] => selected
  | first :: _ =>
      let stays :=
        match selected with
        | Some id => negb (Z.eqb id 0)
                     && existsb (fun p => Z.eqb (player_id p) id) filtered
        | None => false
        end in
      if stays then selected else Some (player_id first)
  end.

End App.

(** Three players: one with a seasons array, one with a year range that
    runs past 2024, one with too short a career to be eligible. *)
Definition player_array : App.Player :=
  {| App.player_id := 7; App.season_count := JS.Value 4%Z;
     App.from_year := JS.Value 2019%Z; App.to_year := JS.Value 2022%Z;
     App.seasons_played :=
       Some [JS.Value 2019; JS.Value 2020; JS.Value 2021; JS.Value 2022]%Z |}.

Definition player_range : App.Player :=
  {| App.player_id := 8; App.season_count := JS.Null;
     App.from_year := JS.Value 2021%Z; App.to_year := JS.Value 2025%Z;
     App.seasons_played := None |}.

Definition player_rookie : App.Player :=
  {| App.player_id := 9; App.season_count := JS.Value 1%Z;
     App.from_year := JS.Value 2010%Z; App.to_year := JS.Value 2010%Z;
     App.seasons_played := None |}.

(** A career that runs past the last season shown, known by its season
    count only. *)
Definition player_active : App.Player :=
  {| App.player_id := 10; App.season_count := JS.Value 6%Z;
     App.from_year := JS.Value 2020%Z; App.to_year := JS.Value 2025%Z;
     App.seasons_played := None |}.

Definition sample_players : list App.Player :=
  [player_array; player_range; player_rookie].

(** A trajectory whose seasons do not come in ascending order. *)
Definition unsorted_trajectory : list Career.Sample :=
  [ {| Career.season := 2022; Career.value_score := JS.Value 3;
       Career.annotation := JS.Null |};
    {| Career.season := 2020; Career.value_score := JS.Value 1;
       Career.annotation := JS.Null |};
    {| Career.season := 2021; Career.value_score := JS.Value 2;
       Career.annotation := JS.Null |} ].

(** ** ProfileCard, second version: the number of seasons shown *)

Module ProfileSeasons.

Import JS.
Local Open Scope Z_scope.

Definition maxUiSeason : Z := 2024.

(** [displayedSeasonCount]; [None] is [null], for which no chip is
    shown. *)
Definition displayedSeasonCount (player : App.Player) : option Z :=
  match App.seasons_played player with
  | Some played =>
      let count :=
        Z.of_nat
          (List.length
             (filter (fun s => match s with
                               | Value z => z <=? maxUiSeason
                               | _ => false
                               end) played)) in
      if 0 <? count then Some count else None
  | None =>
      match App.season_count player with
      | Value raw =>
          let adjusted :=
            match App.to_year player with
            | Value toYear => if maxUiSeason <? toYear then raw - 1 else raw
            | _ => raw
            end in
          Some (Z.max 0 adjusted)
      | _ => None
      end
  end.

End ProfileSeasons.

(** ** Gaps in a trajectory

    What the path of a chart does at a season whose sample has no
    value. *)

(** The middle of two points. *)
Definition midpoint (a b : Q * Q) : Q * Q :=
  (((fst a + fst b) / 2)%Q, ((snd a + snd b) / 2)%Q).

(** The pairs of neighbours of a list, in order. *)
Definition neighbours {A} (l : list A) : list (A * A) := combine l (tl l).

(** The first point and, for every pair of neighbours, their middle and
    the second of the two. *)
Definition quadKnots (pts : list (Q * Q)) : list (Q * Q) :=
  match pts with
  | [] => []
  | k0 :: _ =>
      k0 :: flat_map (fun ab => [midpoint (fst ab) (snd ab); snd ab])
                     (neighbours pts)
  end.

(** [x] is the abscissa of a point the path draws. *)
Definition drawnAt (d : Svg.path Q) (x : R) : Prop :=
  exists (c : Bezier.curve) (u : R),
    In c (Bezier.curves d) /\ (0 <= u <= 1)%R
    /\ fst (Bezier.pointAt c u) = x.

(** The path is broken at the gaps: it draws nothing at the abscissa of
    a sample that has no value. *)
Definition brokenAtGaps (d : Svg.path Q) (xScale : Z -> Q)
    (trajectory : list Career.Sample) : Prop :=
  forall t, In t trajectory -> Career.hasValue t = false ->
            ~ drawnAt d (Q2R (xScale (Career.season t))).

(** "Absent-value points are never interpolated across": in both
    versions of the chart the path is broken at the gaps, under the
    season scale of the version. *)
Definition neverInterpolatedAcross
    (trajectory comparisonTrajectory : list Career.Sample) : Prop :=
  match CareerChart2.render trajectory comparisonTrajectory with
  | CareerChart2.NoData => True
  | CareerChart2.Chart path _ _ _ _ =>
      let allSeasons :=
        CareerScale.seasonsOf (Career.points trajectory)
        ++ CareerScale.seasonsOf (Career.points comparisonTrajectory) in
      brokenAtGaps path
        (CareerScale.xScale2 (CareerScale.minZ allSeasons)
                             (CareerScale.maxZ allSeasons))
        trajectory
  end
  /\ match CareerChart1.render trajectory with
     | CareerChart1.NoData => True
     | CareerChart1.Chart path _ =>
         let seasons := CareerScale.seasonsOf (Career.points trajectory) in
         brokenAtGaps path
           (CareerScale.xScale1 (hd 0%Z seasons) (List.last seasons 0%Z))
           trajectory
     end.
(** * Properties *)

(** ** Series colours *)

Lemma spider_palette_lookup (k : nat) :
  (1 <= k)%nat ->
  exists c, CountingGeometrySpider.seriesColor k = Some c
            /\ In c CountingGeometrySpider.palette.
Proof.
  intros Hk. unfold CountingGeometrySpider.seriesColor.
  destruct (Nat.eqb_spec k 0) as [->|_]; [lia|].
  destruct (nth_error CountingGeometrySpider.palette
              ((k - 1) mod List.length CountingGeometrySpider.palette)) as [c|] eqn:E.
  - exists c. split; [reflexivity|]. eapply nth_error_In; eassumption.
  - apply nth_error_None in E.
    pose proof (Nat.mod_upper_bound (k - 1)
                  (List.length CountingGeometrySpider.palette)) as Hb.
    simpl in *. lia.
Qed.

Lemma highlight_not_in_palette :
  ~ In CountingGeometrySpider.highlight CountingGeometrySpider.palette.
Proof.
  unfold CountingGeometrySpider.palette, CountingGeometrySpider.highlight.
  simpl. intros H. repeat (destruct H as [H|H]; [discriminate H|]). exact H.
Qed.

Lemma radar_color_defined (k : nat) :
  exists c, RadarChart.color k = Some c /\ In c RadarChart.colors.
Proof.
  unfold RadarChart.color.
  destruct (nth_error RadarChart.colors (k mod List.length RadarChart.colors))
    as [c|] eqn:E.
  - exists c. split; [reflexivity|]. eapply nth_error_In; eassumption.
  - apply nth_error_None in E.
    pose proof (Nat.mod_upper_bound k (List.length RadarChart.colors)) as Hb.
    simpl in *. lia.
Qed.

(** C2, as stated, fails for the RadarChart: its series colours are one
    five-colour cycle, so index 5 gets the colour of index 0. *)
Lemma radar_color_not_reserved : ~ reservedHighlight RadarChart.color.
Proof.
  intros H. apply (H 5%nat); [lia | reflexivity].
Qed.

(** C2 (amended): [seriesColor] of the counting-geometry spider gives
    index 0 the highlight colour and every index [k >= 1] the palette
    colour at [(k - 1) mod 6], which is never the highlight colour; the
    RadarChart gives index [k] the colour at [k mod 5] of its own cycle,
    index 0 included.  Both are functions of the index alone. *)
Theorem series_color_assignment (k : nat) :
  (1 <= k)%nat ->
  CountingGeometrySpider.seriesColor 0 = Some CountingGeometrySpider.highlight
  /\ CountingGeometrySpider.seriesColor k
     = nth_error CountingGeometrySpider.palette ((k - 1) mod 6)
  /\ (exists c, CountingGeometrySpider.seriesColor k = Some c
                /\ c <> CountingGeometrySpider.highlight)
  /\ CountingGeometrySpider.seriesColor k <> CountingGeometrySpider.seriesColor 0
  /\ RadarChart.color k = nth_error RadarChart.colors (k mod 5)
  /\ RadarChart.color 0 = nth_error RadarChart.colors 0.
Proof.
  intros Hk.
  destruct (spider_palette_lookup Hk) as (c & Hc & Hin).
  assert (Hne : c <> CountingGeometrySpider.highlight).
  { intros ->. exact (highlight_not_in_palette Hin). }
  repeat split.
  - unfold CountingGeometrySpider.seriesColor.
    destruct (Nat.eqb_spec k 0) as [->|_]; [lia | reflexivity].
  - exists c. split; assumption.
  - rewrite Hc. simpl. intros E. injection E as E. exact (Hne E).
Qed.

Lemma series_color_assignment_witness :
  (1 <= 7)%nat
  /\ CountingGeometrySpider.seriesColor 7 = nth_error CountingGeometrySpider.palette 0
  /\ CountingGeometrySpider.seriesColor 7 <> CountingGeometrySpider.seriesColor 0.
Proof.
  assert (H : (1 <= 7)%nat) by lia.
  split; [exact H|].
  destruct (@series_color_assignment 7%nat H) as (_ & H1 & _ & H2 & _).
  split; [exact H1 | exact H2].
Defined.

(** ** Normalization of the radial charts *)

Section Normalization.

Import JS.
Local Open Scope Q_scope.

Lemma orElse_nonzero (x d : Q) : ~ d == 0 -> ~ orElse x d == 0.
Proof.
  intros Hd. unfold orElse.
  destruct (Qeq_bool x 0) eqn:E; [exact Hd | apply Qeq_bool_neq; exact E].
Qed.

Lemma orElse_zero (x d : Q) : x == 0 -> orElse x d = d.
Proof.
  intros H. unfold orElse. apply Qeq_bool_iff in H. rewrite H. reflexivity.
Qed.

Lemma orElse_pos (x d : Q) : 0 <= x -> 0 < d -> 0 < orElse x d.
Proof.
  intros Hx Hd. unfold orElse.
  destruct (Qeq_bool x 0) eqn:E; [exact Hd|].
  apply Qeq_bool_neq in E. apply Qle_lteq in Hx. destruct Hx as [Hx|Hx].
  - exact Hx.
  - exfalso. apply E. symmetry. exact Hx.
Qed.

Lemma Math_max_zero (vs : list Q) (v : Q) :
  v == 0 -> Forall (fun x => x == 0) vs -> Math_max v vs == 0.
Proof.
  unfold Math_max. revert v.
  induction vs as [|w vs IH]; intros v Hv Hall; simpl.
  - exact Hv.
  - inversion Hall as [|? ? Hw Hvs]; subst. apply IH; [|exact Hvs].
    destruct (Q.max_spec v w) as [[_ E]|[_ E]]; rewrite E; assumption.
Qed.

Lemma Math_max_ge_head (vs : list Q) (v : Q) : v <= Math_max v vs.
Proof.
  unfold Math_max. revert v.
  induction vs as [|w vs IH]; intros v; simpl.
  - apply Qle_refl.
  - eapply Qle_trans; [apply (Q.le_max_l v w) | apply IH].
Qed.

Lemma Math_max_ge (vs : list Q) (v x : Q) : In x (v :: vs) -> x <= Math_max v vs.
Proof.
  unfold Math_max. revert v.
  induction vs as [|w vs IH]; intros v [Hx|Hx]; simpl in *.
  - subst. apply Qle_refl.
  - contradiction.
  - subst. apply (Math_max_ge_head (w :: vs) x).
  - destruct Hx as [Hx|Hx].
    + subst. eapply Qle_trans; [apply (Q.le_max_r v x)|].
      apply (Math_max_ge_head vs (Qmax v x)).
    + apply IH. right. exact Hx.
Qed.

Lemma presentValues_In {A} (xs : list (nullable A)) (a : A) :
  In (Value a) xs -> In a (presentValues xs).
Proof.
  induction xs as [|x xs IH]; intros H; [contradiction|].
  destruct H as [->|H]; simpl.
  - left. reflexivity.
  - destruct x; simpl; auto.
Qed.

Lemma presentValues_Forall {A} (P : A -> Prop) (xs : list (nullable A)) :
  Forall (fun x => match x with Value a => P a | _ => True end) xs ->
  Forall P (presentValues xs).
Proof.
  induction 1 as [|x xs Hx _ IH]; simpl; [constructor|].
  destruct x; auto.
Qed.

(** The divisor of the RadarChart is never zero, whatever the data. *)
Lemma radar_divisor_nonzero (data : list RadarChart.Series) (k : RadarChart.AxisKey) :
  ~ RadarChart.divisor data k == 0.
Proof.
  unfold RadarChart.divisor. apply orElse_nonzero. discriminate.
Qed.

Lemma radar_maxPerAxis_nonzero (data : list RadarChart.Series) (k : RadarChart.AxisKey) :
  ~ RadarChart.maxPerAxis data k == 0.
Proof.
  unfold RadarChart.maxPerAxis. apply orElse_nonzero. discriminate.
Qed.

(** The upper clamp of the RadarChart holds for every input. *)
Lemma radar_val_le_1 (data : list RadarChart.Series) (s : RadarChart.Series)
    (k : RadarChart.AxisKey) :
  RadarChart.val data s k <= 1.
Proof.
  unfold RadarChart.val. apply Q.le_min_r.
Qed.

(** A series of the data with a non-negative (or absent) value on an
    axis is drawn inside the unit interval on it. *)
Lemma radar_val_bounded_nonneg (data : list RadarChart.Series)
    (s : RadarChart.Series) (k : RadarChart.AxisKey) :
  In s data ->
  0 <= nullish (RadarChart.field s k) 0 ->
  0 <= RadarChart.val data s k <= 1.
Proof.
  intros Hin Hraw. split; [|apply radar_val_le_1].
  unfold RadarChart.val. apply Q.min_glb; [|discriminate].
  destruct (RadarChart.field s k) as [| |a] eqn:Ef; simpl in *;
    try (unfold Qdiv; rewrite Qmult_0_l; apply Qle_refl).
  assert (Hmem : In a (RadarChart.vals data k)).
  { unfold RadarChart.vals. apply presentValues_In. rewrite <- Ef.
    apply (in_map (fun s0 => RadarChart.field s0 k)). exact Hin. }
  assert (Hpos : 0 < RadarChart.divisor data k).
  { unfold RadarChart.divisor, RadarChart.maxPerAxis.
    apply orElse_pos; [|reflexivity]. apply Qlt_le_weak.
    apply orElse_pos; [|reflexivity].
    destruct (RadarChart.vals data k) as [|v vs]; [contradiction|].
    eapply Qle_trans; [exact Hraw | apply Math_max_ge; exact Hmem]. }
  apply Qle_shift_div_l; [exact Hpos|]. rewrite Qmult_0_l. exact Hraw.
Qed.

(** Without a lower clamp, a negative value of a series is drawn at a
    negative share of the radius as soon as the axis has a positive
    maximum. *)
Lemma radar_val_negative (data : list RadarChart.Series)
    (s : RadarChart.Series) (k : RadarChart.AxisKey) :
  nullish (RadarChart.field s k) 0 < 0 ->
  0 < RadarChart.maxPerAxis data k ->
  RadarChart.val data s k < 0.
Proof.
  intros Hraw Hmax. unfold RadarChart.val.
  assert (Hdiv : 0 < RadarChart.divisor data k).
  { unfold RadarChart.divisor. apply orElse_pos; [|reflexivity].
    apply Qlt_le_weak. exact Hmax. }
  eapply Qle_lt_trans; [apply Q.le_min_l|].
  apply Qlt_shift_div_r; [exact Hdiv|]. rewrite Qmult_0_l. exact Hraw.
Qed.

(** The counting-geometry spider clamps on both sides, for every input. *)
Lemma spider_val_bounded (s : CountingGeometrySpider.Series)
    (k : CountingGeometrySpider.AxisKey) :
  0 <= CountingGeometrySpider.v s k <= 1.
Proof.
  unfold CountingGeometrySpider.v. split.
  - apply Q.le_max_l.
  - apply Q.max_lub; [discriminate | apply Q.le_min_l].
Qed.

End Normalization.

(** C1 at the failing input: with value scores -5 and 10 the per-axis
    maximum is 10 and [Math.min(-5 / 10, 1)] is -1/2; the RadarChart has
    no lower clamp, so the normalized value leaves the unit interval.
    (The counting-geometry spider clamps on both sides,
    [spider_val_bounded], and so does the RadarChart for values that are
    not negative, [radar_val_bounded_nonneg].) *)
Theorem radar_val_negative_input :
  RadarChart.maxPerAxis [radar_low; radar_high] RadarChart.k_value_score = 10
  /\ (RadarChart.val [radar_low; radar_high] radar_low RadarChart.k_value_score
      == - (1 # 2))%Q
  /\ ~ (0 <= RadarChart.val [radar_low; radar_high] radar_low
               RadarChart.k_value_score)%Q.
Proof.
  split; [reflexivity|]. split; [reflexivity|].
  vm_compute. intros H. apply H. reflexivity.
Qed.

Lemma radar_not_normalized_in_unit : ~ radarNormalizedInUnit.
Proof.
  intros H.
  destruct (H [radar_low; radar_high] radar_low RadarChart.k_value_score) as [H0 _].
  - left. reflexivity.
  - revert H0. vm_compute. intros H0. apply H0. reflexivity.
Qed.

(** C3: on an axis where every series of the data has the value 0 or no
    value, the per-axis maximum kept by the RadarChart is 1, the divisor
    is 1 (in particular not zero), and every series of the data is drawn
    at 0 on that axis. *)
Theorem radar_zero_axis_safe (data : list RadarChart.Series)
    (k : RadarChart.AxisKey) :
  (forall s, In s data ->
             match RadarChart.field s k with
             | JS.Value v => (v == 0)%Q
             | _ => True
             end) ->
  RadarChart.maxPerAxis data k = 1
  /\ RadarChart.divisor data k = 1
  /\ ~ (RadarChart.divisor data k == 0)%Q
  /\ (forall s, In s data -> (RadarChart.val data s k == 0)%Q).
Proof.
  intros Hall.
  assert (Hvals : Forall (fun x => (x == 0)%Q) (RadarChart.vals data k)).
  { unfold RadarChart.vals. apply presentValues_Forall.
    apply Forall_forall. intros x Hx. apply in_map_iff in Hx.
    destruct Hx as (s & <- & Hs). apply Hall. exact Hs. }
  assert (Hmax : RadarChart.maxPerAxis data k = 1).
  { unfold RadarChart.maxPerAxis.
    destruct (RadarChart.vals data k) as [|v vs]; [reflexivity|].
    apply orElse_zero. inversion Hvals; subst.
    apply Math_max_zero; assumption. }
  assert (Hdiv : RadarChart.divisor data k = 1).
  { unfold RadarChart.divisor. rewrite Hmax. reflexivity. }
  split; [exact Hmax|]. split; [exact Hdiv|].
  split; [apply radar_divisor_nonzero|].
  intros s Hs. unfold RadarChart.val. rewrite Hdiv.
  assert (Hraw : (JS.nullish (RadarChart.field s k) 0 / 1 == 0)%Q).
  { specialize (Hall s Hs).
    destruct (RadarChart.field s k) as [| |a]; simpl;
      [reflexivity | reflexivity |].
    rewrite Hall. reflexivity. }
  destruct (Q.min_spec (JS.nullish (RadarChart.field s k) 0 / 1) 1)
    as [[_ E]|[Hle E]]; rewrite E.
  - exact Hraw.
  - rewrite Hraw in Hle. exfalso. exact (Hle eq_refl).
Qed.

(** An axis with one 0 and one absent value ([pts_per_game] of the two
    series above). *)
Lemma radar_zero_axis_safe_witness :
  (forall s, In s [radar_low; radar_high] ->
             match RadarChart.field s RadarChart.k_pts_per_game with
             | JS.Value v => (v == 0)%Q
             | _ => True
             end)
  /\ RadarChart.maxPerAxis [radar_low; radar_high] RadarChart.k_pts_per_game = 1
  /\ (RadarChart.val [radar_low; radar_high] radar_low
        RadarChart.k_pts_per_game == 0)%Q.
Proof.
  assert (H : forall s, In s [radar_low; radar_high] ->
             match RadarChart.field s RadarChart.k_pts_per_game with
             | JS.Value v => (v == 0)%Q
             | _ => True
             end).
  { intros s [<-|[<-|[]]]; simpl; [reflexivity | exact I]. }
  split; [exact H|].
  destruct (radar_zero_axis_safe [radar_low; radar_high]
              RadarChart.k_pts_per_game H) as (Hm & _ & _ & Hv).
  split; [exact Hm|]. apply Hv. left. reflexivity.
Defined.

(** ** Radial vertices *)

Section RadialVertices.

Local Open Scope R_scope.

Lemma mapFrom_nth_error {A B} (f : A -> nat -> B) (xs : list A) (i j : nat) :
  nth_error (JS.mapFrom f i xs) j
  = option_map (fun x => f x (i + j)%nat) (nth_error xs j).
Proof.
  revert i j. induction xs as [|x xs IH]; intros i j.
  - destruct j; reflexivity.
  - destruct j as [|j]; simpl.
    + rewrite Nat.add_0_r. reflexivity.
    + rewrite IH. rewrite Nat.add_succ_r. reflexivity.
Qed.

Lemma mapi_nth_error {A B} (f : A -> nat -> B) (xs : list A) (j : nat) :
  nth_error (JS.mapi f xs) j = option_map (fun x => f x j) (nth_error xs j).
Proof. unfold JS.mapi. apply mapFrom_nth_error. Qed.

Lemma mapFrom_length {A B} (f : A -> nat -> B) (xs : list A) (i : nat) :
  List.length (JS.mapFrom f i xs) = List.length xs.
Proof.
  revert i. induction xs as [|x xs IH]; intros i; simpl; [reflexivity|].
  rewrite IH. reflexivity.
Qed.

Lemma mapi_length {A B} (f : A -> nat -> B) (xs : list A) :
  List.length (JS.mapi f xs) = List.length xs.
Proof. apply mapFrom_length. Qed.

Lemma angle_axis_0 (n : nat) : Radial.angle n 0 = - (PI / 2).
Proof.
  unfold Radial.angle. simpl INR. rewrite Rmult_0_r.
  unfold Rdiv at 1. rewrite Rmult_0_l. lra.
Qed.

Lemma angle_quarter_turn : Radial.angle 4 1 = 0.
Proof.
  unfold Radial.angle. simpl INR. field.
Qed.

(** Axis 0 at full value is the top of the circle, for any axis count. *)
Lemma vertex_top (center radius : R) (n : nat) :
  Radial.vertex center radius n 0 1 = (center, center - radius).
Proof.
  unfold Radial.vertex. rewrite angle_axis_0.
  rewrite cos_neg, sin_neg, cos_PI2, sin_PI2. f_equal; lra.
Qed.

(** With four axes, axis 1 at full value is the right end of the circle. *)
Lemma vertex_right_of_four (center radius : R) :
  Radial.vertex center radius 4 1 1 = (center + radius, center).
Proof.
  unfold Radial.vertex. rewrite angle_quarter_turn.
  rewrite cos_0, sin_0. f_equal; lra.
Qed.

(** A vertex at a value of the unit interval is at most [radius] away
    from the centre. *)
Lemma vertex_within_frame (center radius : R) (n i : nat) (v : R) :
  0 <= v <= 1 ->
  (fst (Radial.vertex center radius n i v) - center) ^ 2
  + (snd (Radial.vertex center radius n i v) - center) ^ 2
  <= radius ^ 2.
Proof.
  intros [H0 H1]. unfold Radial.vertex. simpl fst. simpl snd.
  pose proof (sin2_cos2 (Radial.angle n i)) as Hsc. unfold Rsqr in Hsc.
  set (c := cos (Radial.angle n i)) in *.
  set (sn := sin (Radial.angle n i)) in *.
  replace ((center + c * radius * v - center) ^ 2
           + (center + sn * radius * v - center) ^ 2)
    with ((sn * sn + c * c) * (radius ^ 2 * (v * v))) by ring.
  rewrite Hsc. assert (Hvv : v * v <= 1) by nra.
  assert (Hr : 0 <= radius ^ 2) by nra. nra.
Qed.

(** The [idx]-th coordinate pair of the spider's [buildPath]. *)
Lemma spider_coords_nth (s : CountingGeometrySpider.Series) (i : nat)
    (k : CountingGeometrySpider.AxisKey) (label : string) :
  nth_error CountingGeometrySpider.axes i = Some (k, label) ->
  nth_error (CountingGeometrySpider.coords s) i
  = Some (Radial.vertex CountingGeometrySpider.center
            CountingGeometrySpider.radius 8 i
            (Q2R (CountingGeometrySpider.v s k))).
Proof.
  intros H. unfold CountingGeometrySpider.coords.
  rewrite mapi_nth_error, H. reflexivity.
Qed.

(** The [idx]-th coordinate pair of the RadarChart's [buildPath]. *)
Lemma radar_coords_nth (data : list RadarChart.Series) (s : RadarChart.Series)
    (i : nat) (k : RadarChart.AxisKey) (label : string) :
  nth_error RadarChart.axes i = Some (k, label) ->
  nth_error (RadarChart.coords data s) i
  = Some (Radial.vertex RadarChart.center RadarChart.radius 7 i
            (Q2R (RadarChart.val data s k))).
Proof.
  intros H. unfold RadarChart.coords.
  rewrite mapi_nth_error, H. reflexivity.
Qed.

(** A spider series whose efficiency is 1 or more starts its polygon at
    the top of the circle, the pixel (190, 34). *)
Lemma spider_path_starts_at_top (s : CountingGeometrySpider.Series) :
  (1 <= CountingGeometrySpider.efficiency s)%Q ->
  hd_error (CountingGeometrySpider.buildPath s) = Some (Svg.MoveTo (190, 34)).
Proof.
  intros H.
  assert (Hv : (CountingGeometrySpider.v s CountingGeometrySpider.k_efficiency == 1)%Q).
  { unfold CountingGeometrySpider.v. simpl CountingGeometrySpider.field.
    assert (Ho : (1 <= JS.orElse (CountingGeometrySpider.efficiency s) 0)%Q).
    { unfold JS.orElse.
      destruct (Qeq_bool (CountingGeometrySpider.efficiency s) 0) eqn:E;
        [|exact H].
      apply Qeq_bool_iff in E. rewrite E in H. exfalso. exact (H eq_refl). }
    rewrite (Q.min_l _ _ Ho). apply Q.max_r. discriminate. }
  unfold CountingGeometrySpider.buildPath, CountingGeometrySpider.coords.
  simpl. rewrite (Qeq_eqR _ _ Hv). rewrite RMicromega.Q2R_1.
  rewrite vertex_top. do 2 f_equal.
  unfold CountingGeometrySpider.center, CountingGeometrySpider.radius,
    CountingGeometrySpider.size. f_equal; lra.
Qed.

(** C4: the vertex the radial charts compute for axis [i] of [n] at the
    normalized value [v] is
    [(center + cos(2*PI*i/n - PI/2) * radius * v,
      center + sin(2*PI*i/n - PI/2) * radius * v)];
    axis 0 at [v = 1] is [(center, center - radius)], the top of the
    circle; and the [i]-th coordinate pair of either [buildPath] is that
    vertex at the series' normalized value, with [n] the number of axes
    of the chart.  Over the real numbers the top vertex is exact. *)
Theorem radial_vertex_correct (n i : nat) (center radius v : R) :
  (i < n)%nat ->
  0 <= v <= 1 ->
  Radial.vertex center radius n i v
  = (center + cos (2 * PI * INR i / INR n - PI / 2) * radius * v,
     center + sin (2 * PI * INR i / INR n - PI / 2) * radius * v)
  /\ Radial.vertex center radius n 0 1 = (center, center - radius)
  /\ (fst (Radial.vertex center radius n i v) - center) ^ 2
     + (snd (Radial.vertex center radius n i v) - center) ^ 2
     <= radius ^ 2
  /\ (forall s k label,
        nth_error CountingGeometrySpider.axes i = Some (k, label) ->
        nth_error (CountingGeometrySpider.coords s) i
        = Some (Radial.vertex CountingGeometrySpider.center
                  CountingGeometrySpider.radius
                  (List.length CountingGeometrySpider.axes) i
                  (Q2R (CountingGeometrySpider.v s k))))
  /\ (forall data s k label,
        nth_error RadarChart.axes i = Some (k, label) ->
        nth_error (RadarChart.coords data s) i
        = Some (Radial.vertex RadarChart.center RadarChart.radius
                  (List.length RadarChart.axes) i
                  (Q2R (RadarChart.val data s k)))).
Proof.
  intros _ Hv. split; [|split; [|split; [|split]]].
  - unfold Radial.vertex, Radial.angle.
    replace (PI * 2 * INR i) with (2 * PI * INR i) by ring. reflexivity.
  - apply vertex_top.
  - apply vertex_within_frame. exact Hv.
  - intros s k label H. exact (spider_coords_nth s i H).
  - intros data s k label H. exact (radar_coords_nth data s i H).
Qed.

Lemma radial_vertex_correct_witness :
  (0 < 8)%nat /\ 0 <= 1 <= 1
  /\ Radial.vertex 190 156 8 0 1 = (190, 190 - 156).
Proof.
  assert (H1 : (0 < 8)%nat) by lia.
  assert (H2 : 0 <= 1 <= 1) by lra.
  split; [exact H1|]. split; [exact H2|].
  destruct (radial_vertex_correct (n := 8) (i := 0) 190 156 H1 H2)
    as (_ & Htop & _).
  exact Htop.
Defined.

End RadialVertices.

(** ** The curve fitter on short inputs *)

Section ShortPaths.

Local Open Scope R_scope.

Lemma Q2R_const (n : Z) (d : positive) : Q2R (n # d) = IZR n / IZR (Zpos d).
Proof. unfold Q2R. simpl. reflexivity. Qed.

(** The first control point of the Catmull-Rom segment between two
    points, read in the reals. *)
Lemma control_near (a b : Q) :
  Q2R (a + (b - a) / 6 * CareerChart2.tension)%Q
  = Q2R a + 3 / 20 * (Q2R b - Q2R a).
Proof.
  unfold CareerChart2.tension.
  rewrite Q2R_plus, Q2R_mult, Q2R_div by discriminate.
  rewrite Q2R_minus, !Q2R_const. lra.
Qed.

Lemma control_far (a b : Q) :
  Q2R (b - (b - a) / 6 * CareerChart2.tension)%Q
  = Q2R a + 17 / 20 * (Q2R b - Q2R a).
Proof.
  unfold CareerChart2.tension.
  rewrite Q2R_minus, Q2R_mult, Q2R_div by discriminate.
  rewrite Q2R_minus, !Q2R_const. lra.
Qed.

Lemma midpoint_real (a b : Q) : Q2R ((a + b) / 2)%Q = (Q2R a + Q2R b) / 2.
Proof.
  rewrite Q2R_div by discriminate. rewrite Q2R_plus, Q2R_const. lra.
Qed.

Lemma reflected_midpoint (a b : Q) : Q2R (2 * ((a + b) / 2) - a)%Q = Q2R b.
Proof.
  rewrite Q2R_minus, Q2R_mult, midpoint_real, Q2R_const. lra.
Qed.

Lemma cubicCoord_share (t a b : R) :
  Bezier.cubicCoord t a (a + 3 / 20 * (b - a)) (a + 17 / 20 * (b - a)) b
  = a + Bezier.cubicShare t * (b - a).
Proof. unfold Bezier.cubicCoord, Bezier.cubicShare. field. Qed.

Lemma cubic_share_unit (t : R) : 0 <= t <= 1 -> 0 <= Bezier.cubicShare t <= 1.
Proof.
  intros [H0 H1]. unfold Bezier.cubicShare.
  assert (Hu : 0 <= 1 - t) by lra.
  assert (A : 0 <= (1 - t) ^ 2 * t) by (apply Rmult_le_pos; [nra | lra]).
  assert (B : 0 <= (1 - t) * t ^ 2) by (apply Rmult_le_pos; [lra | nra]).
  assert (C : 0 <= t ^ 3) by (simpl; repeat apply Rmult_le_pos; lra).
  assert (D : 0 <= (1 - t) ^ 3) by (simpl; repeat apply Rmult_le_pos; lra).
  split; [lra|].
  replace (3 * (1 - t) ^ 2 * t * (3 / 20) + 3 * (1 - t) * t ^ 2 * (17 / 20) + t ^ 3)
    with (1 - ((1 - t) ^ 3 + 3 * ((1 - t) ^ 2 * t) * (17 / 20)
               + 3 * ((1 - t) * t ^ 2) * (3 / 20))) by field.
  lra.
Qed.

Lemma quadCoord_first_half (t a b : R) :
  Bezier.quadCoord t a a ((a + b) / 2) = a + t ^ 2 / 2 * (b - a).
Proof. unfold Bezier.quadCoord. field. Qed.

Lemma quadCoord_second_half (t a b : R) :
  Bezier.quadCoord t ((a + b) / 2) b b = a + (1 - (1 - t) ^ 2 / 2) * (b - a).
Proof. unfold Bezier.quadCoord. field. Qed.

(** The Catmull-Rom path over two points: one cubic whose control
    points are the clamped-window ones. *)
Lemma catmull_two_points (ax ay bx by_ : Q) :
  CareerChart2.buildSmoothPath [(ax, ay); (bx, by_)]
  = [ Svg.MoveTo (ax, ay);
      Svg.CurveTo
        ((ax + (bx - ax) / 6 * CareerChart2.tension)%Q,
         (ay + (by_ - ay) / 6 * CareerChart2.tension)%Q)
        ((bx - (bx - ax) / 6 * CareerChart2.tension)%Q,
         (by_ - (by_ - ay) / 6 * CareerChart2.tension)%Q)
        (bx, by_) ].
Proof. reflexivity. Qed.

(** The quadratic path over two points. *)
Lemma quadratic_two_points (ax ay bx by_ : Q) :
  CareerChart1.buildSmoothPath [(ax, ay); (bx, by_)]
  = [ Svg.MoveTo (ax, ay);
      Svg.QuadTo (ax, ay) (((ax + bx) / 2)%Q, ((ay + by_) / 2)%Q);
      Svg.SmoothQuadTo (bx, by_) ].
Proof. reflexivity. Qed.

Lemma catmull_two_points_within (a b : Q * Q) :
  Bezier.drawsWithin (CareerChart2.buildSmoothPath [a; b]) a b.
Proof.
  destruct a as [ax ay], b as [bx by_]. rewrite catmull_two_points.
  intros c t Hc Ht. simpl in Hc. destruct Hc as [<-|[]].
  exists (Bezier.cubicShare t). split; [apply cubic_share_unit; exact Ht|].
  unfold Bezier.pointAt, Bezier.along, Bezier.toR. simpl fst. simpl snd.
  rewrite !control_near, !control_far, !cubicCoord_share. reflexivity.
Qed.

Lemma quadratic_two_points_within (a b : Q * Q) :
  Bezier.drawsWithin (CareerChart1.buildSmoothPath [a; b]) a b.
Proof.
  destruct a as [ax ay], b as [bx by_]. rewrite quadratic_two_points.
  intros c t Hc [H0 H1]. simpl in Hc. destruct Hc as [<-|[<-|[]]].
  - exists (t ^ 2 / 2). split; [nra|].
    unfold Bezier.pointAt, Bezier.along, Bezier.toR. simpl fst. simpl snd.
    rewrite !midpoint_real, !quadCoord_first_half. reflexivity.
  - exists (1 - (1 - t) ^ 2 / 2). split; [nra|].
    unfold Bezier.pointAt, Bezier.along, Bezier.toR, Bezier.reflect.
    simpl fst. simpl snd.
    rewrite !reflected_midpoint, !midpoint_real, !quadCoord_second_half.
    reflexivity.
Qed.

Lemma cubic_share_continuous : continuity Bezier.cubicShare.
Proof. unfold Bezier.cubicShare. reg. Qed.

(** The cubic share takes every value of the unit interval. *)
Lemma cubic_share_onto (s : R) :
  0 <= s <= 1 -> exists t, 0 <= t <= 1 /\ Bezier.cubicShare t = s.
Proof.
  intros [H0 H1].
  destruct (Req_dec s 0) as [->|Hs0].
  { exists 0. split; [lra|]. unfold Bezier.cubicShare. field. }
  destruct (Req_dec s 1) as [->|Hs1].
  { exists 1. split; [lra|]. unfold Bezier.cubicShare. field. }
  assert (Hc : continuity (fun t => Bezier.cubicShare t - s)).
  { unfold Bezier.cubicShare. reg. }
  destruct (IVT (fun t => Bezier.cubicShare t - s) 0 1 Hc) as [z [Hz Hfz]].
  - lra.
  - unfold Bezier.cubicShare. lra.
  - unfold Bezier.cubicShare. lra.
  - exists z. split; [exact Hz | lra].
Qed.

Lemma catmull_two_points_covers (a b : Q * Q) :
  Bezier.coversSegment (CareerChart2.buildSmoothPath [a; b]) a b.
Proof.
  destruct a as [ax ay], b as [bx by_]. rewrite catmull_two_points.
  intros s Hs. destruct (cubic_share_onto Hs) as (t & Ht & Est).
  eexists. exists t. split; [left; reflexivity|]. split; [exact Ht|].
  unfold Bezier.pointAt, Bezier.along, Bezier.toR. simpl fst. simpl snd.
  rewrite !control_near, !control_far, !cubicCoord_share, Est. reflexivity.
Qed.

Lemma quadratic_two_points_covers (a b : Q * Q) :
  Bezier.coversSegment (CareerChart1.buildSmoothPath [a; b]) a b.
Proof.
  destruct a as [ax ay], b as [bx by_]. rewrite quadratic_two_points.
  intros s [H0 H1]. destruct (Rle_dec s (1 / 2)) as [Hlo|Hhi].
  - assert (Hq : sqrt (2 * s) * sqrt (2 * s) = 2 * s) by (apply sqrt_sqrt; lra).
    assert (Hp : 0 <= sqrt (2 * s)) by apply sqrt_pos.
    eexists. exists (sqrt (2 * s)). split; [left; reflexivity|].
    split; [nra|].
    unfold Bezier.pointAt, Bezier.along, Bezier.toR. simpl fst. simpl snd.
    rewrite !midpoint_real, !quadCoord_first_half.
    replace (sqrt (2 * s) ^ 2 / 2) with s by (simpl; lra). reflexivity.
  - assert (Hq : sqrt (2 * (1 - s)) * sqrt (2 * (1 - s)) = 2 * (1 - s))
      by (apply sqrt_sqrt; lra).
    assert (Hp : 0 <= sqrt (2 * (1 - s))) by apply sqrt_pos.
    eexists. exists (1 - sqrt (2 * (1 - s))).
    split; [right; left; reflexivity|]. split; [nra|].
    unfold Bezier.pointAt, Bezier.along, Bezier.toR, Bezier.reflect.
    simpl fst. simpl snd.
    rewrite !reflected_midpoint, !midpoint_real, !quadCoord_second_half.
    replace (1 - (1 - (1 - sqrt (2 * (1 - s)))) ^ 2 / 2) with s
      by (simpl; lra).
    reflexivity.
Qed.

Lemma smooth_path_short_inputs (pts : list (Q * Q)) :
  (List.length pts < 2)%nat ->
  CareerChart2.buildSmoothPath pts = [] /\ CareerChart1.buildSmoothPath pts = [].
Proof.
  intros H. unfold CareerChart2.buildSmoothPath, CareerChart1.buildSmoothPath.
  destruct (Nat.ltb_spec (List.length pts) 2) as [_|Hge]; [|lia].
  split; reflexivity.
Qed.

End ShortPaths.

(** C5: on fewer than two points both versions of [buildSmoothPath]
    return the empty path, which draws nothing; on exactly two points
    [a] and [b] the Catmull-Rom version returns one cubic from [a] to
    [b], every point it draws lies on the segment from [a] to [b], and
    every point of the segment is drawn; the same holds of the two
    quadratic curves of the first version. *)
Theorem smooth_path_small_inputs (pts : list (Q * Q)) (a b : Q * Q) :
  (List.length pts < 2)%nat ->
  CareerChart2.buildSmoothPath pts = []
  /\ CareerChart1.buildSmoothPath pts = []
  /\ Bezier.curves (CareerChart2.buildSmoothPath pts) = []
  /\ Career.anchors (CareerChart2.buildSmoothPath [a; b]) = [a; b]
  /\ Bezier.drawsWithin (CareerChart2.buildSmoothPath [a; b]) a b
  /\ Bezier.coversSegment (CareerChart2.buildSmoothPath [a; b]) a b
  /\ Bezier.drawsWithin (CareerChart1.buildSmoothPath [a; b]) a b
  /\ Bezier.coversSegment (CareerChart1.buildSmoothPath [a; b]) a b.
Proof.
  intros H. destruct (smooth_path_short_inputs pts H) as [E2 E1].
  split; [exact E2|]. split; [exact E1|].
  split; [rewrite E2; reflexivity|].
  split; [destruct a, b; reflexivity|].
  split; [apply catmull_two_points_within|].
  split; [apply catmull_two_points_covers|].
  split; [apply quadratic_two_points_within | apply quadratic_two_points_covers].
Qed.

Lemma smooth_path_small_inputs_witness :
  (List.length [(20, 200)%Q] < 2)%nat
  /\ CareerChart2.buildSmoothPath [(20, 200)%Q] = []
  /\ Bezier.drawsWithin
       (CareerChart2.buildSmoothPath [(20, 200)%Q; (620, 40)%Q])
       (20, 200)%Q (620, 40)%Q.
Proof.
  assert (H : (List.length [(20, 200)%Q] < 2)%nat) by (simpl; lia).
  split; [exact H|].
  destruct (smooth_path_small_inputs [(20, 200)%Q] (20, 200)%Q (620, 40)%Q H)
    as (E & _ & _ & _ & W & _).
  split; [exact E | exact W].
Defined.

(** ** Season ticks *)

Section Ticks.

Local Open Scope Z_scope.

Lemma ticksLoop_step (c m y : Z) :
  y <= m ->
  CareerChart2.ticksLoop c m y = y :: CareerChart2.ticksLoop c m (y + Z.max 1 c).
Proof.
  intros H. rewrite CareerChart2.ticksLoop_equation_1 at 1.
  destruct (Z_le_gt_dec y m); [reflexivity | lia].
Qed.

Lemma ticksLoop_done (c m y : Z) : y > m -> CareerChart2.ticksLoop c m y = [].
Proof.
  intros H. rewrite CareerChart2.ticksLoop_equation_1.
  destruct (Z_le_gt_dec y m); [lia | reflexivity].
Qed.

(** The loop pushes [y], [y + step], ... as long as the value is at most
    [m]: if [n] steps are the first to pass [m], it pushes [n] values. *)
Lemma ticksLoop_spec (c m : Z) (n : nat) (y : Z) :
  m < y + Z.of_nat n * Z.max 1 c ->
  (n = 0%nat \/ y + (Z.of_nat n - 1) * Z.max 1 c <= m) ->
  CareerChart2.ticksLoop c m y
  = map (fun k => y + Z.of_nat k * Z.max 1 c) (seq 0 n).
Proof.
  revert y. induction n as [|n IH]; intros y Hpast Hlast.
  - apply ticksLoop_done. simpl in Hpast. lia.
  - destruct Hlast as [Hlast|Hlast]; [discriminate|].
    assert (Hy : y <= m) by nia.
    rewrite ticksLoop_step by exact Hy.
    rewrite IH.
    + simpl seq. simpl map. f_equal; [lia|].
      rewrite <- seq_shift, map_map. apply map_ext. intros k. lia.
    + lia.
    + destruct n as [|n]; [left; reflexivity | right; lia].
Qed.

Lemma last_Some_map {A} (l : list A) (x d : A) :
  List.last (map Some (l ++ [x])) None = Some x /\ List.last (l ++ [x]) d = x.
Proof.
  induction l as [|y l [IH1 IH2]]; simpl; [split; reflexivity|].
  destruct (l ++ [x]) eqn:E.
  - destruct l; discriminate E.
  - simpl in *. split; assumption.
Qed.

Lemma stepOf_pos (mn mx : Z) : 1 <= CareerChart2.stepOf mn mx.
Proof. unfold CareerChart2.stepOf. lia. Qed.

(** The tick list: the on-step seasons, then [maxSeason] when the last
    on-step season is not [maxSeason] itself. *)
Lemma buildTicks_shape (mn mx : Z) :
  mn <= mx ->
  let step := CareerChart2.stepOf mn mx in
  let n := Z.to_nat ((mx - mn) / step) in
  mn + Z.of_nat n * step <= mx < mn + Z.of_nat (S n) * step
  /\ CareerChart2.buildTicks mn mx
     = map (fun k => mn + Z.of_nat k * step) (seq 0 (S n))
       ++ (if mn + Z.of_nat n * step =? mx then [] else [mx]).
Proof.
  intros Hle step n.
  assert (Hstep : 1 <= step) by apply stepOf_pos.
  assert (Hq : 0 <= (mx - mn) / step) by (apply Z.div_pos; lia).
  assert (Hn : Z.of_nat n = (mx - mn) / step) by (unfold n; lia).
  assert (Hlo : step * ((mx - mn) / step) <= mx - mn)
    by (apply Z.mul_div_le; lia).
  assert (Hhi : mx - mn < step * Z.succ ((mx - mn) / step))
    by (apply Z.mul_succ_div_gt; lia).
  assert (Hb : mn + Z.of_nat n * step <= mx < mn + Z.of_nat (S n) * step).
  { rewrite Nat2Z.inj_succ, Hn. lia. }
  split; [exact Hb|].
  unfold CareerChart2.buildTicks.
  rewrite (@ticksLoop_spec _ mx (S n) mn).
  - fold (CareerChart2.stepOf mn mx). fold step.
    rewrite seq_S, map_app. cbn [map Nat.add].
    destruct (last_Some_map
                (map (fun k => mn + Z.of_nat k * step) (seq 0 n))
                (mn + Z.of_nat n * step) 0) as [E _].
    rewrite E. destruct (mn + Z.of_nat n * step =? mx); [|reflexivity].
    rewrite app_nil_r. reflexivity.
  - fold (CareerChart2.stepOf mn mx). fold step. lia.
  - right. fold (CareerChart2.stepOf mn mx). fold step. lia.
Qed.

Lemma buildTicks_last (mn mx d : Z) :
  mn <= mx -> List.last (CareerChart2.buildTicks mn mx) d = mx.
Proof.
  intros Hle. destruct (buildTicks_shape Hle) as [_ E]. rewrite E.
  set (step := CareerChart2.stepOf mn mx).
  set (n := Z.to_nat ((mx - mn) / step)).
  rewrite seq_S, map_app. cbn [map Nat.add].
  destruct (Z.eqb_spec (mn + Z.of_nat n * step) mx) as [Heq|Hne].
  - rewrite app_nil_r, last_last. exact Heq.
  - rewrite last_last. reflexivity.
Qed.

(** C6: for [minSeason < maxSeason] the step of [buildTicks] is
    [max(1, ceil(span / 8))]; the list is the seasons
    [minSeason + k * step] for [k = 0 .. n], where [n] is the last [k]
    that stays at or below [maxSeason], followed by [maxSeason] when
    that last on-step season is a different one; and the last tick is
    [maxSeason]. *)
Theorem buildTicks_spec (minSeason maxSeason : Z) :
  minSeason < maxSeason ->
  let step := CareerChart2.stepOf minSeason maxSeason in
  let n := Z.to_nat ((maxSeason - minSeason) / step) in
  step = Z.max 1 (Qceiling (inject_Z (maxSeason - minSeason) / inject_Z 8))
  /\ minSeason + Z.of_nat n * step <= maxSeason
     < minSeason + Z.of_nat (S n) * step
  /\ CareerChart2.buildTicks minSeason maxSeason
     = map (fun k => minSeason + Z.of_nat k * step) (seq 0 (S n))
       ++ (if minSeason + Z.of_nat n * step =? maxSeason then [] else [maxSeason])
  /\ (forall d, List.last (CareerChart2.buildTicks minSeason maxSeason) d
                = maxSeason).
Proof.
  intros Hlt step n.
  assert (Hle : minSeason <= maxSeason) by lia.
  destruct (buildTicks_shape Hle) as [Hb E].
  split; [reflexivity|]. split; [exact Hb|]. split; [exact E|].
  intros d. apply buildTicks_last. exact Hle.
Qed.

(** A span of 20 seasons: the step is 3 and 2023 is off-step. *)
Lemma buildTicks_spec_witness :
  2003 < 2023
  /\ CareerChart2.stepOf 2003 2023 = 3
  /\ CareerChart2.buildTicks 2003 2023
     = [2003; 2006; 2009; 2012; 2015; 2018; 2021; 2023]
  /\ List.last (CareerChart2.buildTicks 2003 2023) 0 = 2023.
Proof.
  assert (H : 2003 < 2023) by lia.
  split; [exact H|]. split; [reflexivity|]. split; [reflexivity|].
  destruct (buildTicks_spec H) as (_ & _ & _ & L). apply L.
Defined.

End Ticks.

(** ** Trajectory points and annotations *)

Section Trajectory.

Import JS Career.
Local Open Scope Q_scope.

Lemma asNumber_orNull (v : nullable Q) : asNumber (orNull v) = asNumber v.
Proof. destruct v; reflexivity. Qed.

Lemma hasValue_value (t : Sample) :
  hasValue t = true <-> exists q, value_score t = Value q.
Proof.
  unfold hasValue. destruct (value_score t); simpl; split;
    try discriminate; try (intros [q Hq]; discriminate Hq); eauto.
Qed.

(** The points handed to the curve fitter carry the seasons and values
    of the samples that have a value, in the order of the trajectory. *)
Lemma points_of_present (trajectory : list Sample) :
  map (fun p => (p_season p, success p)) (points trajectory)
  = map (fun t => (season t, value_score t)) (filter hasValue trajectory).
Proof.
  unfold points. rewrite map_map. apply map_ext_in.
  intros t Ht. apply filter_In in Ht. destruct Ht as [_ Ht].
  apply hasValue_value in Ht. destruct Ht as [q Hq]. simpl.
  rewrite Hq. reflexivity.
Qed.

(** The coordinates of the fitted points are those of the circles. *)
Lemma coords_are_marks (xScale : Z -> Q) (yScale : Q -> Q)
    (trajectory : list Sample) :
  map (fun p => (xScale (p_season p), yScale (asNumber (success p))))
      (points trajectory)
  = map (fun m => (mark_x m, mark_y m)) (marks xScale yScale trajectory).
Proof.
  unfold points, marks. rewrite !map_map. apply map_ext.
  intros t. simpl. rewrite asNumber_orNull. reflexivity.
Qed.

Lemma marks_seasons (xScale : Z -> Q) (yScale : Q -> Q)
    (trajectory : list Sample) :
  map mark_season (marks xScale yScale trajectory)
  = map season (filter hasValue trajectory).
Proof. unfold marks. rewrite map_map. reflexivity. Qed.

Lemma segment_end (pts : list (Q * Q)) (i : Z) :
  anchors [CareerChart2.segment pts i] = [CareerChart2.p pts (i + 1)].
Proof.
  unfold CareerChart2.segment.
  destruct (CareerChart2.p pts (i - 1)), (CareerChart2.p pts i),
    (CareerChart2.p pts (i + 1)), (CareerChart2.p pts (i + 2)).
  reflexivity.
Qed.

Lemma p_in_range (pts : list (Q * Q)) (i : nat) :
  (i < List.length pts)%nat ->
  CareerChart2.p pts (Z.of_nat i) = nth i pts (0, 0).
Proof.
  intros H. unfold CareerChart2.p, CareerChart2.clamp. f_equal. lia.
Qed.

Lemma nth_seq_self {A} (l : list A) (d : A) :
  map (fun i => nth i l d) (seq 0 (List.length l)) = l.
Proof.
  induction l as [|x l IH]; [reflexivity|].
  simpl. f_equal. rewrite <- seq_shift, map_map. exact IH.
Qed.

(** The knots of the Catmull-Rom path over two or more points are the
    points themselves: no knot is added and none is left out. *)
Lemma catmull_anchors (pts : list (Q * Q)) :
  (2 <= List.length pts)%nat ->
  anchors (CareerChart2.buildSmoothPath pts) = pts.
Proof.
  intros H. unfold CareerChart2.buildSmoothPath.
  destruct (Nat.ltb_spec (List.length pts) 2) as [Hlt|_]; [lia|].
  destruct pts as [|x r]; [simpl in H; lia|].
  cbn [List.length Nat.sub]. rewrite Nat.sub_0_r.
  change (anchors (Svg.MoveTo (nth 0 (x :: r) (0, 0)) :: ?l))
    with (nth 0 (x :: r) (0, 0) :: anchors l).
  cbn [nth]. f_equal.
  rewrite <- (nth_seq_self r (0, 0)) at 2.
  unfold anchors. rewrite flat_map_concat_map, map_map.
  rewrite <- flat_map_concat_map.
  assert (Hall : forall i, In i (seq 0 (List.length r)) ->
            anchors [CareerChart2.segment (x :: r) (Z.of_nat i)]
            = [nth i r (0, 0)]).
  { intros i Hi. apply in_seq in Hi. rewrite segment_end.
    replace (Z.of_nat i + 1)%Z with (Z.of_nat (S i)) by lia.
    rewrite p_in_range by (simpl; lia). reflexivity. }
  clear H. revert Hall. generalize (seq 0 (List.length r)) as idxs.
  induction idxs as [|i idxs IH]; intros Hall; [reflexivity|].
  cbn [flat_map map]. rewrite <- IH by (intros j Hj; apply Hall; right; exact Hj).
  specialize (Hall i (or_introl eq_refl)). unfold anchors in Hall.
  cbn [flat_map] in Hall. rewrite app_nil_r in Hall. rewrite Hall. reflexivity.
Qed.

Lemma points_nil (trajectory : list Sample) :
  points trajectory = [] -> filter hasValue trajectory = [].
Proof. unfold points. apply map_eq_nil. Qed.

Lemma marks_length (xScale : Z -> Q) (yScale : Q -> Q) (trajectory : list Sample) :
  List.length (marks xScale yScale trajectory)
  = List.length (filter hasValue trajectory).
Proof. unfold marks. apply length_map. Qed.

(** What the second version draws for the primary series. *)
Lemma render2_primary (trajectory comparisonTrajectory : list Sample) :
  match CareerChart2.render trajectory comparisonTrajectory with
  | CareerChart2.NoData => filter hasValue trajectory = []
  | CareerChart2.Chart path _ _ dots _ =>
      map mark_season dots = map season (filter hasValue trajectory)
      /\ path = CareerChart2.buildSmoothPath
                  (map (fun m => (mark_x m, mark_y m)) dots)
  end.
Proof.
  unfold CareerChart2.render.
  destruct (points trajectory) as [|p0 ps] eqn:E.
  - apply points_nil. exact E.
  - cbv zeta. split; [apply marks_seasons|].
    unfold CareerChart2.coordsOf. rewrite <- E.
    match goal with
    | |- _ = _ (map _ (marks ?xs ?ys _)) =>
        rewrite <- (coords_are_marks xs ys)
    end.
    reflexivity.
Qed.

(** What the first version draws. *)
Lemma render1_primary (trajectory : list Sample) :
  match CareerChart1.render trajectory with
  | CareerChart1.NoData => filter hasValue trajectory = []
  | CareerChart1.Chart path dots =>
      map mark_season dots = map season (filter hasValue trajectory)
      /\ path = CareerChart1.buildSmoothPath
                  (map (fun m => (mark_x m, mark_y m)) dots)
  end.
Proof.
  unfold CareerChart1.render.
  destruct (points trajectory) as [|p0 ps] eqn:E.
  - apply points_nil. exact E.
  - cbv zeta. split; [apply marks_seasons|].
    unfold CareerChart1.coordsOf. rewrite <- E.
    match goal with
    | |- _ = _ (map _ (marks ?xs ?ys _)) =>
        rewrite <- (coords_are_marks xs ys)
    end.
    reflexivity.
Qed.

(** The scenario end to end, in the second version of the chart: two
    knots, one circle per season with a value, the annotation of 2022
    below its circle (the circle is at 118/3, less than 70 from the top),
    and a tick for every season of the domain. *)
Example scenario_end_to_end :
  match CareerChart2.render scenario [] with
  | CareerChart2.NoData => False
  | CareerChart2.Chart path _ _ dots ticks =>
      List.length (anchors path) = 2%nat
      /\ map mark_season dots = [2020; 2022]%Z
      /\ map (fun m => Qred (mark_y m)) dots = [638 # 3; 118 # 3]
      /\ map (fun m => option_map (fun n => Qred (snd n)) (mark_note m)) dots
         = [None; Some (238 # 3)]
      /\ ticks = [2020; 2021; 2022]%Z
  end.
Proof. vm_compute. repeat split. Qed.

End Trajectory.

(** ** The list of similar players *)

Section Similar.

Import JS SimilarList.

Lemma insert_perm {A} (cmp : A -> A -> number) (x : A) (l : list A) :
  Permutation (insert cmp x l) (x :: l).
Proof.
  induction l as [|y l IH]; simpl; [apply Permutation_refl|].
  destruct (positive (cmp x y)); [|apply Permutation_refl].
  eapply Permutation_trans; [apply perm_skip; exact IH | apply perm_swap].
Qed.

Lemma sort_perm {A} (cmp : A -> A -> number) (l : list A) :
  Permutation (sort cmp l) l.
Proof.
  induction l as [|x l IH]; simpl; [apply Permutation_refl|].
  eapply Permutation_trans; [apply insert_perm | apply perm_skip; exact IH].
Qed.

(** On finite distances the comparator is positive exactly when the
    first distance is the larger one. *)
Lemma positive_byDistance (a b : Comp) (x y : Q) :
  distance a = Finite x -> distance b = Finite y ->
  (positive (byDistance a b) = true <-> (y < x)%Q).
Proof.
  intros Ha Hb. unfold byDistance. rewrite Ha, Hb. simpl.
  rewrite negb_true_iff, <- not_true_iff_false, Qle_bool_iff. split.
  - intros H. apply Qnot_le_lt in H. lra.
  - intros H. apply Qlt_not_le. lra.
Qed.

Lemma finite_distance (c : Comp) :
  isFinite (distance c) = true -> exists x, distance c = Finite x.
Proof. destruct (distance c); try discriminate. eauto. Qed.

Lemma leDistance_trans (a b c : Comp) :
  leDistance a b -> leDistance b c -> leDistance a c.
Proof.
  unfold leDistance.
  destruct (distance a), (distance b), (distance c); try contradiction.
  apply Qle_trans.
Qed.

Lemma insert_HdRel (x y : Comp) (l : list Comp) :
  leDistance y x -> HdRel leDistance y l ->
  HdRel leDistance y (insert byDistance x l).
Proof.
  intros Hyx Hl. destruct l as [|z l]; simpl.
  - constructor. exact Hyx.
  - destruct (positive (byDistance x z)); constructor.
    + inversion Hl; assumption.
    + exact Hyx.
Qed.

Lemma insert_sorted (x : Comp) (l : list Comp) :
  isFinite (distance x) = true ->
  Forall (fun c => isFinite (distance c) = true) l ->
  Sorted leDistance l ->
  Sorted leDistance (insert byDistance x l).
Proof.
  intros Hx Hfin Hs. destruct (finite_distance x Hx) as [qx Ex].
  induction l as [|y l IH]; simpl.
  - repeat constructor.
  - inversion Hfin as [|? ? Hy Hl]; subst.
    inversion Hs as [|? ? Hsl Hhd]; subst.
    destruct (finite_distance y Hy) as [qy Ey].
    destruct (positive (byDistance x y)) eqn:Ep.
    + apply (positive_byDistance x y Ex Ey) in Ep.
      constructor; [apply IH; assumption|].
      apply insert_HdRel; [|exact Hhd].
      unfold leDistance. rewrite Ex, Ey. apply Qlt_le_weak. exact Ep.
    + constructor; [exact Hs|]. constructor.
      unfold leDistance. rewrite Ex, Ey.
      apply Qnot_lt_le. intros H.
      apply (positive_byDistance x y Ex Ey) in H. rewrite H in Ep.
      discriminate Ep.
Qed.

Lemma sort_sorted (l : list Comp) :
  Forall (fun c => isFinite (distance c) = true) l ->
  Sorted leDistance (sort byDistance l).
Proof.
  induction 1 as [|x l Hx Hl IH]; simpl; [constructor|].
  apply insert_sorted; [exact Hx | | exact IH].
  eapply Permutation_Forall; [apply Permutation_sym, sort_perm | exact Hl].
Qed.

Lemma mapFrom_ranks (l : list Comp) (i : nat) :
  map card_rank
      (mapFrom (fun c idx => {| card_rank := idx + 1; card_comp := c |}) i l)
  = seq (i + 1) (List.length l)
  /\ map card_comp
       (mapFrom (fun c idx => {| card_rank := idx + 1; card_comp := c |}) i l)
     = l.
Proof.
  revert i. induction l as [|c l IH]; intros i; simpl; [split; reflexivity|].
  destruct (IH (S i)) as [E1 E2]. rewrite E1, E2. split; reflexivity.
Qed.

(** C9: the second version of SimilarList keeps exactly the entries
    whose distance is finite, shows them in ascending order of distance,
    and numbers the cards 1, 2, ... by position in that order; the
    [similarity_rank] field of an entry is not read. *)
Theorem similar_list_sorted_ranked (comps : list Comp) :
  Permutation (sorted comps) (filter (fun c => isFinite (distance c)) comps)
  /\ (forall c, In c (sorted comps)
                <-> In c comps /\ isFinite (distance c) = true)
  /\ StronglySorted leDistance (sorted comps)
  /\ map card_comp (cards comps) = sorted comps
  /\ map card_rank (cards comps) = seq 1 (List.length (sorted comps))
  /\ (forall i card,
        nth_error (cards comps) i = Some card ->
        card_rank card = (i + 1)%nat
        /\ nth_error (sorted comps) i = Some (card_comp card)).
Proof.
  assert (Hperm : Permutation (sorted comps)
                    (filter (fun c => isFinite (distance c)) comps))
    by apply sort_perm.
  split; [exact Hperm|]. split; [|split; [|split; [|split]]].
  - intros c. split; intros H.
    + apply (Permutation_in _ Hperm) in H. apply filter_In in H. exact H.
    + apply (Permutation_in _ (Permutation_sym Hperm)). apply filter_In.
      exact H.
  - apply Sorted_StronglySorted.
    + intros a b c. apply leDistance_trans.
    + apply sort_sorted. apply Forall_forall. intros c Hc.
      apply filter_In in Hc. apply Hc.
  - apply (mapFrom_ranks (sorted comps) 0).
  - apply (mapFrom_ranks (sorted comps) 0).
  - intros i card H. unfold cards in H. rewrite mapi_nth_error in H.
    destruct (nth_error (sorted comps) i) as [c|]; [|discriminate H].
    simpl in H. inversion H. split; reflexivity.
Qed.

(** The sample list: the entry without a number is dropped, and the
    entry supplied with rank 3 is shown first. *)
Lemma similar_list_sorted_ranked_witness :
  map (fun cd => (card_rank cd, name (card_comp cd),
                  similarity_rank (card_comp cd)))
      (cards sample_comps)
  = [ (1%nat, "C"%string, 3%Z); (2%nat, "D"%string, 9%Z);
      (3%nat, "A"%string, 1%Z) ]
  /\ (exists cd, nth_error (cards sample_comps) 0 = Some cd
                  /\ card_rank cd = 1%nat
                  /\ similarity_rank (card_comp cd) = 3%Z).
Proof.
  split; [reflexivity|].
  destruct (similar_list_sorted_ranked sample_comps) as (_ & _ & _ & _ & _ & H).
  eexists. split; [reflexivity|]. split; [|reflexivity].
  apply (H 0%nat). reflexivity.
Defined.

End Similar.

(** ** The legend of the counting-geometry spider *)

Section SpiderLegend.

Import JS CountingGeometrySpider.

Lemma mapFrom_nodes (l : list Series) (i : nat) :
  map node_series
      (mapFrom (fun c idx => {| node_rank := idx + 1; node_series := c;
                                node_color := seriesColor (idx + 1) |}) i l)
  = l
  /\ map node_rank
       (mapFrom (fun c idx => {| node_rank := idx + 1; node_series := c;
                                 node_color := seriesColor (idx + 1) |}) i l)
     = seq (i + 1) (List.length l).
Proof.
  revert i. induction l as [|c l IH]; intros i; simpl; [split; reflexivity|].
  destruct (IH (S i)) as [E1 E2]. rewrite E1, E2. split; reflexivity.
Qed.

Lemma slice_1_4 (s0 : Series) (rest : list Series) :
  slice 1 4 (s0 :: rest) = firstn 3 rest.
Proof. reflexivity. Qed.

(** Every series gets a polygon, whatever its index. *)
Lemma polygons_nth (series : list Series) (i : nat) (s : Series) :
  nth_error series i = Some s ->
  nth_error (polygons series) i
  = Some {| poly_key := player_id s; poly_d := buildPath s;
            poly_stroke := seriesColor i; poly_selected := Nat.eqb i 0 |}.
Proof.
  intros H. unfold polygons. rewrite mapi_nth_error, H. reflexivity.
Qed.

(** C10: for a series list with first element [s0], the spider draws one
    polygon per series, and its legend shows [s0] as the selected entity
    and, as comparison nodes ranked 1, 2, 3, the series at indices 1 to 3
    that exist; a series at index 4 or more has a polygon and no node in
    the legend. *)
Theorem legend_first_three (s0 : Series) (rest : list Series) :
  exists legend : Legend,
    render (s0 :: rest) = Chart (polygons (s0 :: rest)) (Some legend)
    /\ legend_selected legend = s0
    /\ map node_series (legend_comps legend) = firstn 3 rest
    /\ map node_rank (legend_comps legend) = seq 1 (Nat.min 3 (List.length rest))
    /\ (List.length (legend_comps legend) <= 3)%nat
    /\ List.length (polygons (s0 :: rest)) = S (List.length rest)
    /\ (forall i s,
          nth_error (s0 :: rest) i = Some s ->
          exists pg, nth_error (polygons (s0 :: rest)) i = Some pg
                     /\ poly_d pg = buildPath s
                     /\ poly_stroke pg = seriesColor i)
    /\ (forall j node,
          nth_error (legend_comps legend) j = Some node ->
          (j < 3)%nat
          /\ nth_error (s0 :: rest) (S j) = Some (node_series node)
          /\ node_rank node = S j
          /\ node_color node = seriesColor (S j)).
Proof.
  eexists. split; [reflexivity|]. cbn [legend_selected legend_comps].
  rewrite slice_1_4.
  destruct (mapFrom_nodes (firstn 3 rest) 0) as [Es Er].
  split; [reflexivity|]. split; [exact Es|].
  split; [rewrite length_firstn in Er; exact Er|].
  split.
  { unfold mapi. rewrite mapFrom_length, length_firstn. lia. }
  split.
  { unfold polygons. rewrite mapi_length. reflexivity. }
  split.
  - intros i s H. eexists. split; [apply polygons_nth; exact H|].
    split; reflexivity.
  - intros j node H. rewrite mapi_nth_error in H.
    destruct (nth_error (firstn 3 rest) j) as [c|] eqn:E; [|discriminate H].
    simpl in H. inversion H; subst; clear H. cbn [node_series node_rank node_color].
    assert (Hj : (j < List.length (firstn 3 rest))%nat).
    { apply nth_error_Some. rewrite E. discriminate. }
    rewrite length_firstn in Hj.
    split; [lia|]. split.
    + simpl. rewrite <- E, nth_error_firstn.
      destruct (Nat.ltb_spec j 3); [reflexivity | lia].
    + rewrite Nat.add_1_r. split; reflexivity.
Qed.

(** Six series: six polygons, and the legend names the series 2, 3, 4. *)
Lemma legend_first_three_witness :
  exists legend : Legend,
    render (map spider_sample [1; 2; 3; 4; 5; 6]%Z)
    = Chart (polygons (map spider_sample [1; 2; 3; 4; 5; 6]%Z)) (Some legend)
    /\ map (fun n => player_id (node_series n)) (legend_comps legend)
       = [2; 3; 4]%Z
    /\ List.length (polygons (map spider_sample [1; 2; 3; 4; 5; 6]%Z)) = 6%nat.
Proof.
  destruct (legend_first_three (spider_sample 1)
              (map spider_sample [2; 3; 4; 5; 6]%Z))
    as (legend & Hr & _ & Hc & _ & _ & Hp & _).
  exists legend. split; [exact Hr|]. split; [|exact Hp].
  rewrite <- (map_map node_series player_id), Hc. reflexivity.
Defined.

End SpiderLegend.

(** * Further properties *)

(** ** The chart frame of CareerChart *)

Section ChartFrame.

Import JS Career CareerScale.
Local Open Scope Q_scope.

(** The second version of the chart, with its scales named. *)
Lemma render2_scales (trajectory comparisonTrajectory : list Sample) :
  CareerChart2.render trajectory comparisonTrajectory
  = match points trajectory with
    | [] => CareerChart2.NoData
    | p0 :: ps =>
        let allSeasons := seasonsOf (p0 :: ps)
                          ++ seasonsOf (points comparisonTrajectory) in
        let successes := successesOf (p0 :: ps)
                         ++ successesOf (points comparisonTrajectory) in
        let xs := xScale2 (minZ allSeasons) (maxZ allSeasons) in
        let ys := yScale2 (minQ successes) (maxQ successes) in
        CareerChart2.Chart
          (CareerChart2.buildSmoothPath (CareerChart2.coordsOf xs ys (p0 :: ps)))
          (CareerChart2.buildSmoothPath
             (CareerChart2.coordsOf xs ys (points comparisonTrajectory)))
          (CareerChart2.coordsOf xs ys (points comparisonTrajectory))
          (marks xs ys trajectory)
          (CareerChart2.buildTicks (minZ allSeasons) (maxZ allSeasons))
    end.
Proof.
  unfold CareerChart2.render.
  destruct (points trajectory) as [|p0 ps]; reflexivity.
Qed.

(** The first version of the chart, with its scales named. *)
Lemma render1_scales (trajectory : list Sample) :
  CareerChart1.render trajectory
  = match points trajectory with
    | [] => CareerChart1.NoData
    | p0 :: ps =>
        let seasons := seasonsOf (p0 :: ps) in
        let successes := successesOf (p0 :: ps) in
        let xs := xScale1 (p_season p0) (List.last seasons (p_season p0)) in
        let ys := yScale1 (minQ successes) (maxQ successes) in
        CareerChart1.Chart
          (CareerChart1.buildSmoothPath (CareerChart1.coordsOf xs ys (p0 :: ps)))
          (marks xs ys trajectory)
    end.
Proof.
  unfold CareerChart1.render.
  destruct (points trajectory) as [|p0 ps]; reflexivity.
Qed.

Lemma orElse_keep (x d : Q) : ~ x == 0 -> orElse x d = x.
Proof.
  intros H. unfold orElse. destruct (Qeq_bool x 0) eqn:E; [|reflexivity].
  apply Qeq_bool_iff in E. contradiction.
Qed.

Lemma padY_pos (minS maxS : Q) : minS <= maxS -> 0 < padY minS maxS.
Proof.
  intros H. unfold padY. apply orElse_pos; [|reflexivity].
  apply Qmult_le_0_compat; [lra | discriminate].
Qed.

Lemma Math_min_le_head (vs : list Q) (v : Q) : Math_min v vs <= v.
Proof.
  unfold Math_min. revert v.
  induction vs as [|w vs IH]; intros v; simpl.
  - apply Qle_refl.
  - eapply Qle_trans; [apply IH | apply Q.le_min_l].
Qed.

Lemma Math_min_le (vs : list Q) (v x : Q) : In x (v :: vs) -> Math_min v vs <= x.
Proof.
  unfold Math_min. revert v.
  induction vs as [|w vs IH]; intros v [Hx|Hx]; simpl in *.
  - subst. apply Qle_refl.
  - contradiction.
  - subst. apply (Math_min_le_head (w :: vs) x).
  - destruct Hx as [Hx|Hx].
    + subst. eapply Qle_trans; [apply (Math_min_le_head vs (Qmin v x))|].
      apply Q.le_min_r.
    + apply IH. right. exact Hx.
Qed.

Lemma minQ_maxQ_bounds (xs : list Q) (x : Q) :
  In x xs -> minQ xs <= x <= maxQ xs.
Proof.
  destruct xs as [|v vs]; [contradiction|]. intros H. split.
  - apply Math_min_le. exact H.
  - apply Math_max_ge. exact H.
Qed.

Lemma Math_minZ_le (vs : list Z) (v x : Z) :
  In x (v :: vs) -> (Math_minZ v vs <= x)%Z.
Proof.
  unfold Math_minZ. revert v.
  assert (Hhead : forall l a, (fold_left Z.min l a <= a)%Z).
  { induction l as [|w l IH]; intros a; simpl; [lia|].
    specialize (IH (Z.min a w)). lia. }
  induction vs as [|w vs IH]; intros v [Hx|Hx]; simpl in *.
  - lia.
  - contradiction.
  - subst. specialize (Hhead vs (Z.min x w)). lia.
  - destruct Hx as [Hx|Hx].
    + subst. specialize (Hhead vs (Z.min v x)). lia.
    + apply IH. right. exact Hx.
Qed.

Lemma Math_maxZ_ge (vs : list Z) (v x : Z) :
  In x (v :: vs) -> (x <= Math_maxZ v vs)%Z.
Proof.
  unfold Math_maxZ. revert v.
  assert (Hhead : forall l a, (a <= fold_left Z.max l a)%Z).
  { induction l as [|w l IH]; intros a; simpl; [lia|].
    specialize (IH (Z.max a w)). lia. }
  induction vs as [|w vs IH]; intros v [Hx|Hx]; simpl in *.
  - lia.
  - contradiction.
  - subst. specialize (Hhead vs (Z.max x w)). lia.
  - destruct Hx as [Hx|Hx].
    + subst. specialize (Hhead vs (Z.max v x)). lia.
    + apply IH. right. exact Hx.
Qed.

Lemma minZ_maxZ_bounds (xs : list Z) (x : Z) :
  In x xs -> (minZ xs <= x <= maxZ xs)%Z.
Proof.
  destruct xs as [|v vs]; [contradiction|]. intros H. split.
  - apply Math_minZ_le. exact H.
  - apply Math_maxZ_ge. exact H.
Qed.

(** The share of the value domain below [v], once the domain is padded:
    strictly between 0 and 1 for a value of the domain. *)
Lemma padded_share (minS maxS v : Q) :
  minS <= v <= maxS ->
  let min := minS - padY minS maxS in
  let max := maxS + padY minS maxS in
  0 < (v - min) / orElse (max - min) 1 < 1.
Proof.
  intros [Hlo Hhi] mn mx. unfold mn, mx.
  assert (Hp : 0 < padY minS maxS) by (apply padY_pos; lra).
  set (P := padY minS maxS) in *.
  assert (HD : 0 < maxS + P - (minS - P)) by lra.
  rewrite orElse_keep by lra. split.
  - apply Qlt_shift_div_l; [exact HD | lra].
  - apply Qlt_shift_div_r; [exact HD | lra].
Qed.

(** The share of the season domain before [s]. *)
Lemma season_share (mn mx s : Z) :
  (mn <= s <= mx)%Z ->
  0 <= (inject_Z s - inject_Z mn) / orElse (inject_Z mx - inject_Z mn) 1 <= 1.
Proof.
  intros [Hlo Hhi].
  assert (Qlo : inject_Z mn <= inject_Z s) by (rewrite <- Zle_Qle; exact Hlo).
  assert (Qhi : inject_Z s <= inject_Z mx) by (rewrite <- Zle_Qle; exact Hhi).
  destruct (Qeq_bool (inject_Z mx - inject_Z mn) 0) eqn:E.
  - unfold orElse. rewrite E. apply Qeq_bool_iff in E.
    assert (Hs : inject_Z s - inject_Z mn == 0) by lra.
    rewrite Hs. split; [discriminate | discriminate].
  - apply Qeq_bool_neq in E. rewrite orElse_keep by exact E.
    assert (HD : 0 < inject_Z mx - inject_Z mn) by lra. split.
    + apply Qle_shift_div_l; [exact HD | lra].
    + apply Qle_shift_div_r; [exact HD | lra].
Qed.

Lemma yScale2_inside (minS maxS v : Q) :
  minS <= v <= maxS ->
  CareerChart2.pad_top < yScale2 minS maxS v
  < CareerChart2.height - CareerChart2.pad_bottom.
Proof.
  intros H. pose proof (padded_share H) as Hr. cbv zeta in Hr.
  unfold yScale2.
  set (r := (v - (minS - padY minS maxS))
            / orElse (maxS + padY minS maxS - (minS - padY minS maxS)) 1) in *.
  unfold CareerChart2.pad_top, CareerChart2.height, CareerChart2.pad_bottom.
  lra.
Qed.

Lemma yScale1_inside (minS maxS v : Q) :
  minS <= v <= maxS ->
  20 < yScale1 minS maxS v < CareerChart1.height - 20.
Proof.
  intros H. pose proof (padded_share H) as Hr. cbv zeta in Hr.
  unfold yScale1.
  set (r := (v - (minS - padY minS maxS))
            / orElse (maxS + padY minS maxS - (minS - padY minS maxS)) 1) in *.
  unfold CareerChart1.height. lra.
Qed.

(** The closed bounds, which do not depend on the padding being kept. *)
Lemma yScale2_within (minS maxS v : Q) :
  minS <= v <= maxS ->
  CareerChart2.pad_top <= yScale2 minS maxS v
  <= CareerChart2.height - CareerChart2.pad_bottom.
Proof.
  intros H. destruct (yScale2_inside H) as [Hlo Hhi].
  split; apply Qlt_le_weak; assumption.
Qed.

Lemma yScale1_within (minS maxS v : Q) :
  minS <= v <= maxS ->
  20 <= yScale1 minS maxS v <= CareerChart1.height - 20.
Proof.
  intros H. destruct (yScale1_inside H) as [Hlo Hhi].
  split; apply Qlt_le_weak; assumption.
Qed.

Lemma xScale2_inside (mn mx s : Z) :
  (mn <= s <= mx)%Z ->
  CareerChart2.pad_left <= xScale2 mn mx s
  <= CareerChart2.width - CareerChart2.pad_right.
Proof.
  intros H. pose proof (season_share H) as Hr. unfold xScale2.
  set (r := (inject_Z s - inject_Z mn) / orElse (inject_Z mx - inject_Z mn) 1) in *.
  unfold CareerChart2.pad_left, CareerChart2.width, CareerChart2.pad_right.
  lra.
Qed.

Lemma xScale1_inside (first last s : Z) :
  (first <= s <= last)%Z ->
  20 <= xScale1 first last s <= CareerChart1.width - 20.
Proof.
  intros H. pose proof (season_share H) as Hr. unfold xScale1.
  set (r := (inject_Z s - inject_Z first)
            / orElse (inject_Z last - inject_Z first) 1) in *.
  unfold CareerChart1.width. lra.
Qed.

(** A sample with a value contributes its season and its value to the
    domains. *)
Lemma present_in_domains (trajectory : list Sample) (t : Sample) :
  In t (filter hasValue trajectory) ->
  In (season t) (seasonsOf (points trajectory))
  /\ In (asNumber (value_score t)) (successesOf (points trajectory)).
Proof.
  intros H. unfold seasonsOf, successesOf, points. rewrite !map_map. split.
  - apply (in_map (fun x => season x)) in H. exact H.
  - apply in_map_iff. exists t. split; [|exact H]. simpl.
    apply asNumber_orNull.
Qed.

Lemma point_in_domains (pts : list Point) (p : Point) :
  In p pts ->
  In (p_season p) (seasonsOf pts)
  /\ In (asNumber (success p)) (successesOf pts).
Proof.
  intros H. split.
  - apply (in_map p_season). exact H.
  - apply (in_map (fun q => asNumber (success q))). exact H.
Qed.

(** A sample with a value is drawn inside the frame of the second
    version, under the scales of the chart. *)
Lemma primary_mark_in_frame2 (trajectory comparisonTrajectory : list Sample)
    (t : Sample) :
  In t (filter hasValue trajectory) ->
  let allSeasons := seasonsOf (points trajectory)
                    ++ seasonsOf (points comparisonTrajectory) in
  let successes := successesOf (points trajectory)
                   ++ successesOf (points comparisonTrajectory) in
  inFrame2 (xScale2 (minZ allSeasons) (maxZ allSeasons) (season t))
           (yScale2 (minQ successes) (maxQ successes)
                    (asNumber (value_score t))).
Proof.
  intros Ht allSeasons successes.
  destruct (present_in_domains trajectory t Ht) as [Hs Hv]. split.
  - apply xScale2_inside. apply minZ_maxZ_bounds.
    apply in_or_app. left. exact Hs.
  - apply yScale2_within. apply minQ_maxQ_bounds.
    apply in_or_app. left. exact Hv.
Qed.

(** X1: whatever the trajectory and the comparison trajectory, every
    circle the second version draws, of the primary and of the
    comparison series, lies in the plot frame, border included: from
    x = 24 to x = 618, and from y = 22 to the axis line y = 230. *)
Theorem chart2_circles_in_frame (trajectory comparisonTrajectory : list Sample) :
  match CareerChart2.render trajectory comparisonTrajectory with
  | CareerChart2.NoData => filter hasValue trajectory = []
  | CareerChart2.Chart _ _ compDots dots _ =>
      Forall (fun m => inFrame2 (mark_x m) (mark_y m)) dots
      /\ Forall (fun c => inFrame2 (fst c) (snd c)) compDots
  end.
Proof.
  rewrite render2_scales.
  destruct (points trajectory) as [|p0 ps] eqn:E.
  - apply points_nil. exact E.
  - cbv zeta. rewrite <- E. split.
    + apply Forall_forall. intros m Hm. unfold marks in Hm.
      apply in_map_iff in Hm. destruct Hm as (t & <- & Ht). simpl.
      apply primary_mark_in_frame2. exact Ht.
    + apply Forall_forall. intros c Hc. unfold CareerChart2.coordsOf in Hc.
      apply in_map_iff in Hc. destruct Hc as (p & <- & Hp). simpl.
      destruct (point_in_domains _ p Hp) as [Hs Hv]. split.
      * apply xScale2_inside. apply minZ_maxZ_bounds.
        apply in_or_app. right. exact Hs.
      * apply yScale2_within. apply minQ_maxQ_bounds.
        apply in_or_app. right. exact Hv.
Qed.

Lemma yPos_window (y : Q) : 22 <= y <= 230 -> 10 <= yPos y <= 170.
Proof.
  intros [Hlo Hhi]. unfold yPos, useBelow, ltb.
  destruct (Qle_bool 10 (y - 60)) eqn:E; simpl.
  - apply Qle_bool_iff in E. lra.
  - assert (Hn : ~ 10 <= y - 60).
    { intros H. apply Qle_bool_iff in H. rewrite H in E. discriminate E. }
    apply Qnot_le_lt in Hn. lra.
Qed.

(** X2: every annotation the second version draws has its anchor, which
    is also the pivot of its rotation, from y = 10 to y = 170, whatever
    the data and whichever side the rule picks: the flip to the lower
    side keeps it out of the top guard band, and it stays 60 above the
    axis line. *)
Theorem chart2_annotations_in_view (trajectory comparisonTrajectory : list Sample) :
  match CareerChart2.render trajectory comparisonTrajectory with
  | CareerChart2.NoData => filter hasValue trajectory = []
  | CareerChart2.Chart _ _ _ dots _ =>
      Forall (fun m => match mark_note m with
                       | Some (_, yp) => 10 <= yp <= 170
                       | None => True
                       end) dots
  end.
Proof.
  rewrite render2_scales.
  destruct (points trajectory) as [|p0 ps] eqn:E.
  - apply points_nil. exact E.
  - cbv zeta. rewrite <- E.
    apply Forall_forall. intros m Hm.
    unfold marks in Hm. apply in_map_iff in Hm. destruct Hm as (t & <- & Ht).
    simpl. destruct (annotationText (annotation t)); [|exact I].
    apply yPos_window.
    apply (primary_mark_in_frame2 trajectory comparisonTrajectory t Ht).
Qed.

Lemma last_default {A} (xs : list A) (x d e : A) :
  List.last (x :: xs) d = List.last (x :: xs) e.
Proof.
  revert x. induction xs as [|y ys IH]; intros x; [reflexivity|].
  change (List.last (y :: ys) d = List.last (y :: ys) e). apply IH.
Qed.

Lemma sorted_first_last (xs : list Z) (x0 x : Z) :
  StronglySorted Z.le (x0 :: xs) -> In x (x0 :: xs) ->
  (x0 <= x <= List.last (x0 :: xs) x0)%Z.
Proof.
  revert x0 x. induction xs as [|y ys IH]; intros x0 x Hs Hin.
  - destruct Hin as [<-|[]]. simpl. lia.
  - inversion Hs as [|? ? Hs' Hall]; subst.
    pose proof (Forall_inv Hall) as Hy.
    change (List.last (x0 :: y :: ys) x0) with (List.last (y :: ys) x0).
    rewrite (last_default ys y x0 y).
    destruct Hin as [<-|Hin].
    + pose proof (IH y y Hs' (or_introl eq_refl)). lia.
    + pose proof (IH y x Hs' Hin). lia.
Qed.

(** X3: the first version takes the first and the last season with a
    value as the ends of its season axis.  When those seasons come in
    ascending order, every circle it draws lies in its plot frame,
    border included: from x = 20 to x = 620 and from y = 20 to
    y = 220. *)
Theorem chart1_circles_in_frame (trajectory : list Sample) :
  StronglySorted Z.le (map season (filter hasValue trajectory)) ->
  match CareerChart1.render trajectory with
  | CareerChart1.NoData => filter hasValue trajectory = []
  | CareerChart1.Chart _ dots =>
      Forall (fun m => inFrame1 (mark_x m) (mark_y m)) dots
  end.
Proof.
  intros Hsorted. rewrite render1_scales.
  destruct (points trajectory) as [|p0 ps] eqn:E.
  - apply points_nil. exact E.
  - cbv zeta.
    assert (Hseasons : seasonsOf (p0 :: ps)
                       = map season (filter hasValue trajectory)).
    { rewrite <- E. unfold seasonsOf, points. rewrite map_map. reflexivity. }
    apply Forall_forall. intros m Hm. unfold marks in Hm.
    apply in_map_iff in Hm. destruct Hm as (t & <- & Ht). simpl.
    destruct (present_in_domains trajectory t Ht) as [Hs Hv].
    rewrite E in Hs, Hv. split.
    + apply xScale1_inside. rewrite <- Hseasons in Hsorted.
      apply (sorted_first_last Hsorted). exact Hs.
    + apply yScale1_within.
      apply (minQ_maxQ_bounds (successesOf (p0 :: ps))). exact Hv.
Qed.

Lemma chart1_circles_in_frame_witness :
  StronglySorted Z.le (map season (filter hasValue scenario))
  /\ match CareerChart1.render scenario with
     | CareerChart1.NoData => False
     | CareerChart1.Chart _ dots =>
         Forall (fun m => inFrame1 (mark_x m) (mark_y m)) dots
     end.
Proof.
  assert (H : StronglySorted Z.le (map season (filter hasValue scenario))).
  { simpl. repeat constructor. lia. }
  split; [exact H|].
  pose proof (chart1_circles_in_frame scenario H) as W.
  destruct (CareerChart1.render scenario) as [|path dots] eqn:Ev.
  - vm_compute in Ev. discriminate Ev.
  - exact W.
Defined.

(** Without the order of the seasons the first version does leave its
    frame: with the seasons 2022, 2020, 2021 the axis runs from 2022 to
    2021 and the circle of 2020 is drawn at x = 1220. *)
Example chart1_unsorted_leaves_frame :
  match CareerChart1.render unsorted_trajectory with
  | CareerChart1.NoData => False
  | CareerChart1.Chart _ dots =>
      map (fun m => Qred (mark_x m)) dots = [20; 1220; 620]
  end.
Proof. vm_compute. reflexivity. Qed.

End ChartFrame.

(** ** More on the season ticks *)

Section TicksMore.

Import CareerScale.
Local Open Scope Z_scope.

(** Eight steps always reach the end of the domain. *)
Lemma eight_steps_cover (mn mx : Z) :
  mx - mn <= 8 * CareerChart2.stepOf mn mx.
Proof.
  unfold CareerChart2.stepOf, CareerChart2.desired.
  pose proof (Qle_ceiling (inject_Z (mx - mn) / inject_Z 8)) as H.
  set (c := Qceiling (inject_Z (mx - mn) / inject_Z 8)) in *.
  assert (Hq : (inject_Z (mx - mn) <= inject_Z (8 * c))%Q).
  { rewrite inject_Z_mult.
    assert (Hm : (inject_Z (mx - mn) / inject_Z 8 * inject_Z 8
                  <= inject_Z c * inject_Z 8)%Q)
      by (apply Qmult_le_compat_r; [exact H | discriminate]).
    assert (He : (inject_Z (mx - mn) / inject_Z 8 * inject_Z 8
                  == inject_Z (mx - mn))%Q) by (field; discriminate).
    rewrite He in Hm. rewrite Qmult_comm. exact Hm. }
  rewrite <- Zle_Qle in Hq. lia.
Qed.

Lemma on_step_sorted (mn step : Z) (n : nat) (k0 : nat) :
  1 <= step ->
  StronglySorted Z.lt (map (fun k => mn + Z.of_nat k * step) (seq k0 n)).
Proof.
  intros Hstep. revert k0. induction n as [|n IH]; intros k0; simpl.
  - constructor.
  - constructor; [apply IH|].
    apply Forall_forall. intros x Hx. apply in_map_iff in Hx.
    destruct Hx as (k & <- & Hk). apply in_seq in Hk. nia.
Qed.

Lemma sorted_snoc (l : list Z) (x : Z) :
  StronglySorted Z.lt l -> Forall (fun y => y < x) l ->
  StronglySorted Z.lt (l ++ [x]).
Proof.
  induction 1 as [|y l Hs IH Hall]; intros Hlt; simpl.
  - repeat constructor.
  - inversion Hlt; subst. constructor; [apply IH; assumption|].
    apply Forall_app. split; [exact Hall | repeat constructor; assumption].
Qed.

(** The ticks start at the lower end of the domain and stay inside it. *)
Lemma buildTicks_within (mn mx : Z) :
  mn <= mx ->
  hd_error (CareerChart2.buildTicks mn mx) = Some mn
  /\ Forall (fun yr => mn <= yr <= mx) (CareerChart2.buildTicks mn mx).
Proof.
  intros Hle. destruct (buildTicks_shape Hle) as [[Hlo Hhi] E].
  set (step := CareerChart2.stepOf mn mx) in *.
  set (n := Z.to_nat ((mx - mn) / step)) in *.
  assert (Hstep : 1 <= step) by apply stepOf_pos.
  rewrite E. split; [simpl; f_equal; lia|].
  apply Forall_app. split.
  - apply Forall_forall. intros x Hx. apply in_map_iff in Hx.
    destruct Hx as (k & <- & Hk). apply in_seq in Hk. nia.
  - destruct (mn + Z.of_nat n * step =? mx); repeat constructor; lia.
Qed.

(** X4: for a season domain [minSeason <= maxSeason] the tick list
    starts with [minSeason], is strictly increasing (no season is
    labelled twice), stays inside the domain, and has at most 9 ticks,
    however long the career. *)
Theorem buildTicks_increasing_bounded (minSeason maxSeason : Z) :
  minSeason <= maxSeason ->
  hd_error (CareerChart2.buildTicks minSeason maxSeason) = Some minSeason
  /\ StronglySorted Z.lt (CareerChart2.buildTicks minSeason maxSeason)
  /\ Forall (fun yr => minSeason <= yr <= maxSeason)
            (CareerChart2.buildTicks minSeason maxSeason)
  /\ (List.length (CareerChart2.buildTicks minSeason maxSeason) <= 9)%nat.
Proof.
  intros Hle. destruct (buildTicks_shape Hle) as [[Hlo Hhi] E].
  set (step := CareerChart2.stepOf minSeason maxSeason) in *.
  set (n := Z.to_nat ((maxSeason - minSeason) / step)) in *.
  assert (Hstep : 1 <= step) by apply stepOf_pos.
  assert (Hcover : maxSeason - minSeason <= 8 * step)
    by apply eight_steps_cover.
  assert (Hon : Forall (fun yr => minSeason <= yr <= minSeason + Z.of_nat n * step)
                  (map (fun k => minSeason + Z.of_nat k * step) (seq 0 (S n)))).
  { apply Forall_forall. intros x Hx. apply in_map_iff in Hx.
    destruct Hx as (k & <- & Hk). apply in_seq in Hk. nia. }
  rewrite E. split; [simpl; f_equal; lia|].
  destruct (Z.eqb_spec (minSeason + Z.of_nat n * step) maxSeason) as [Heq|Hne].
  - rewrite app_nil_r. split; [apply on_step_sorted; exact Hstep|]. split.
    + eapply Forall_impl; [|exact Hon]. simpl. intros x Hx. lia.
    + rewrite length_map, length_seq. nia.
  - split; [|split].
    + apply sorted_snoc; [apply on_step_sorted; exact Hstep|].
      eapply Forall_impl; [|exact Hon]. simpl. intros x Hx. lia.
    + apply Forall_app. split.
      * eapply Forall_impl; [|exact Hon]. simpl. intros x Hx. lia.
      * repeat constructor; lia.
    + rewrite length_app, length_map, length_seq. simpl. nia.
Qed.

(** A career of 21 seasons: 8 ticks. *)
Lemma buildTicks_increasing_bounded_witness :
  2003 <= 2023
  /\ StronglySorted Z.lt (CareerChart2.buildTicks 2003 2023)
  /\ (List.length (CareerChart2.buildTicks 2003 2023) <= 9)%nat.
Proof.
  assert (H : 2003 <= 2023) by lia.
  destruct (buildTicks_increasing_bounded H) as (_ & Hs & _ & Hl).
  split; [exact H|]. split; [exact Hs | exact Hl].
Defined.

Lemma Math_minZ_In (vs : list Z) (v : Z) : In (Career.Math_minZ v vs) (v :: vs).
Proof.
  unfold Career.Math_minZ. revert v.
  induction vs as [|w vs IH]; intros v; simpl; [left; reflexivity|].
  destruct (IH (Z.min v w)) as [H|H].
  - destruct (Z.min_spec v w) as [[_ E]|[_ E]]; rewrite E in *; auto.
  - right. right. exact H.
Qed.

Lemma Math_maxZ_In (vs : list Z) (v : Z) : In (Career.Math_maxZ v vs) (v :: vs).
Proof.
  unfold Career.Math_maxZ. revert v.
  induction vs as [|w vs IH]; intros v; simpl; [left; reflexivity|].
  destruct (IH (Z.max v w)) as [H|H].
  - destruct (Z.max_spec v w) as [[_ E]|[_ E]]; rewrite E in *; auto.
  - right. right. exact H.
Qed.

Lemma seasonsOf_points (trajectory : list Career.Sample) :
  seasonsOf (Career.points trajectory)
  = map Career.season (filter Career.hasValue trajectory).
Proof. unfold seasonsOf, Career.points. rewrite map_map. reflexivity. Qed.

(** X5: in the second version the season axis spans the seasons with a
    value of both series: the first tick is the earliest such season,
    the last tick the latest one, and every tick mark is placed on the
    axis line, between x = 24 and x = 618. *)
Theorem chart2_ticks_span_both_series
    (trajectory comparisonTrajectory : list Career.Sample) :
  let allSeasons :=
    map Career.season (filter Career.hasValue trajectory)
    ++ map Career.season (filter Career.hasValue comparisonTrajectory) in
  match CareerChart2.render trajectory comparisonTrajectory with
  | CareerChart2.NoData => filter Career.hasValue trajectory = []
  | CareerChart2.Chart _ _ _ _ ticks =>
      exists mn mx,
        In mn allSeasons /\ In mx allSeasons
        /\ (forall s, In s allSeasons -> mn <= s <= mx)
        /\ hd_error ticks = Some mn
        /\ List.last ticks mn = mx
        /\ Forall (fun yr =>
                     (CareerChart2.pad_left <= xScale2 mn mx yr
                      <= CareerChart2.width - CareerChart2.pad_right)%Q)
                  ticks
  end.
Proof.
  intros allSeasons. rewrite render2_scales.
  destruct (Career.points trajectory) as [|p0 ps] eqn:E.
  - apply points_nil. exact E.
  - cbv zeta. rewrite <- E, !seasonsOf_points. fold allSeasons.
    assert (Hne : exists s0 rest, allSeasons = s0 :: rest).
    { unfold allSeasons. rewrite <- seasonsOf_points, E. simpl. eauto. }
    destruct Hne as (s0 & rest & Hall).
    exists (minZ allSeasons), (maxZ allSeasons).
    assert (Hbounds : forall s, In s allSeasons ->
                        minZ allSeasons <= s <= maxZ allSeasons)
      by (intros s; apply minZ_maxZ_bounds).
    assert (Hmn : In (minZ allSeasons) allSeasons)
      by (rewrite Hall; apply Math_minZ_In).
    assert (Hmx : In (maxZ allSeasons) allSeasons)
      by (rewrite Hall; apply Math_maxZ_In).
    assert (Hle : minZ allSeasons <= maxZ allSeasons)
      by (specialize (Hbounds _ Hmn); lia).
    destruct (buildTicks_within Hle) as (Hhd & Hin).
    split; [exact Hmn|]. split; [exact Hmx|]. split; [exact Hbounds|].
    split; [exact Hhd|]. split; [apply buildTicks_last; exact Hle|].
    eapply Forall_impl; [|exact Hin]. simpl. intros yr Hyr.
    apply xScale2_inside. exact Hyr.
Qed.

Lemma buildTicks_single (s : Z) : CareerChart2.buildTicks s s = [s].
Proof.
  unfold CareerChart2.buildTicks. rewrite Z.sub_diag.
  change (Qceiling (inject_Z 0 / inject_Z CareerChart2.desired)) with 0.
  rewrite ticksLoop_step by lia. rewrite ticksLoop_done by lia.
  simpl. rewrite Z.eqb_refl. reflexivity.
Qed.

(** X8: a chart with a single season with a value (and no comparison
    values) has a degenerate domain on both axes, and no division by
    zero: the one circle is drawn at the fixed position (24, 126), the
    left end of the axis at mid-height, no curve is drawn, and the one
    tick is that season. *)
Theorem chart2_single_point
    (trajectory comparisonTrajectory : list Career.Sample) (t : Career.Sample) :
  filter Career.hasValue trajectory = [t] ->
  filter Career.hasValue comparisonTrajectory = [] ->
  match CareerChart2.render trajectory comparisonTrajectory with
  | CareerChart2.NoData => False
  | CareerChart2.Chart path compPath compDots dots ticks =>
      path = [] /\ compPath = [] /\ compDots = []
      /\ ticks = [Career.season t]
      /\ exists m, dots = [m]
                   /\ Career.mark_season m = Career.season t
                   /\ (Career.mark_x m == 24)%Q
                   /\ (Career.mark_y m == 126)%Q
  end.
Proof.
  intros Ht Hc. rewrite render2_scales.
  unfold Career.points, Career.marks. rewrite Ht, Hc. cbn [map].
  cbv zeta. cbn [seasonsOf successesOf map app minZ maxZ minQ maxQ
                  Career.p_season Career.success].
  unfold Career.Math_minZ, Career.Math_maxZ, JS.Math_min, JS.Math_max.
  cbn [fold_left]. rewrite buildTicks_single.
  split; [reflexivity|]. split; [reflexivity|]. split; [reflexivity|].
  split; [reflexivity|].
  eexists. split; [reflexivity|]. cbn [Career.mark_season Career.mark_x Career.mark_y].
  split; [reflexivity|].
  rewrite asNumber_orNull.
  set (v := Career.asNumber (Career.value_score t)).
  split.
  - unfold xScale2.
    rewrite (@orElse_zero
               (inject_Z (Career.season t) - inject_Z (Career.season t)) 1)
      by ring.
    unfold CareerChart2.width, CareerChart2.pad_left, CareerChart2.pad_right.
    field.
  - unfold yScale2, padY.
    rewrite (@orElse_zero ((v - v) * (1 # 10)) 1) by ring.
    rewrite orElse_keep.
    + unfold CareerChart2.height, CareerChart2.pad_top, CareerChart2.pad_bottom.
      field. intros H. ring_simplify in H. revert H. discriminate.
    + intros H. ring_simplify in H. revert H. discriminate.
Qed.

(** The last season of the scenario alone. *)
Lemma chart2_single_point_witness :
  filter Career.hasValue (skipn 1 scenario) = skipn 2 scenario
  /\ match CareerChart2.render (skipn 1 scenario) [] with
     | CareerChart2.NoData => False
     | CareerChart2.Chart path _ _ dots ticks =>
         path = [] /\ ticks = [2022]
     end.
Proof.
  assert (Ht : filter Career.hasValue (skipn 1 scenario) = skipn 2 scenario)
    by reflexivity.
  split; [exact Ht|].
  pose proof (@chart2_single_point (skipn 1 scenario) [] _ Ht eq_refl) as W.
  destruct (CareerChart2.render (skipn 1 scenario) [])
    as [|path compPath compDots dots ticks]; [exact W|].
  destruct W as (Hp & _ & _ & Hk & _). split; [exact Hp | exact Hk].
Defined.

End TicksMore.

(** ** The fitted curves on longer inputs *)

Section LongPaths.

Local Open Scope R_scope.

Lemma segment_shape (pts : list (Q * Q)) (i : Z) :
  exists c1 c2,
    CareerChart2.segment pts i = Svg.CurveTo c1 c2 (CareerChart2.p pts (i + 1)).
Proof.
  unfold CareerChart2.segment.
  destruct (CareerChart2.p pts (i - 1)), (CareerChart2.p pts i),
    (CareerChart2.p pts (i + 1)), (CareerChart2.p pts (i + 2)).
  eauto.
Qed.

Lemma draw_catmull_nth (pts : list (Q * Q)) (n : nat) :
  forall (i : nat) (st : Q * Q) (k : nat),
    (i + n < List.length pts)%nat -> (k < n)%nat ->
    exists c1 c2,
      nth_error
        (Bezier.draw
           (Some {| Bezier.cur := nth i pts (0, 0)%Q; Bezier.start := st;
                    Bezier.lastQuad := None |})
           (map (fun j => CareerChart2.segment pts (Z.of_nat j)) (seq i n)))
        k
      = Some (Bezier.Cubic (nth (i + k) pts (0, 0)%Q) c1 c2
                (nth (S (i + k)) pts (0, 0)%Q)).
Proof.
  induction n as [|n IH]; intros i st k Hi Hk; [lia|].
  cbn [seq map].
  destruct (segment_shape pts (Z.of_nat i)) as (c1 & c2 & Es). rewrite Es.
  replace (Z.of_nat i + 1)%Z with (Z.of_nat (S i)) by lia.
  rewrite p_in_range by lia. cbn [Bezier.draw Bezier.cur Bezier.start].
  destruct k as [|k].
  - exists c1, c2. rewrite Nat.add_0_r. reflexivity.
  - cbn [nth_error].
    destruct (IH (S i) st k) as (d1 & d2 & E); [lia | lia |].
    exists d1, d2. rewrite E. rewrite Nat.add_succ_r. reflexivity.
Qed.

Lemma draw_catmull_length (pts : list (Q * Q)) (n : nat) :
  forall (i : nat) (st : Bezier.pen),
    List.length
      (Bezier.draw (Some st)
         (map (fun j => CareerChart2.segment pts (Z.of_nat j)) (seq i n)))
    = n.
Proof.
  induction n as [|n IH]; intros i st; [reflexivity|].
  cbn [seq map].
  destruct (segment_shape pts (Z.of_nat i)) as (c1 & c2 & Es). rewrite Es.
  cbn [Bezier.draw List.length]. rewrite IH. reflexivity.
Qed.

Lemma cubic_ends (a c1 c2 b : Q * Q) :
  Bezier.pointAt (Bezier.Cubic a c1 c2 b) 0 = Bezier.toR a
  /\ Bezier.pointAt (Bezier.Cubic a c1 c2 b) 1 = Bezier.toR b.
Proof.
  unfold Bezier.pointAt, Bezier.cubicCoord, Bezier.toR.
  split; f_equal; ring.
Qed.

(** X6: the Catmull-Rom path is an interpolating one.  Over any list of
    points it draws one cubic per pair of neighbours, in order; the
    cubic of the pair [(a, b)] starts at [a] (parameter 0) and ends at
    [b] (parameter 1), so the curve passes through every point handed to
    it and has no break. *)
Theorem catmull_interpolates (pts : list (Q * Q)) (i : nat) (a b : Q * Q) :
  nth_error pts i = Some a ->
  nth_error pts (S i) = Some b ->
  List.length (Bezier.curves (CareerChart2.buildSmoothPath pts))
  = (List.length pts - 1)%nat
  /\ exists c1 c2,
       nth_error (Bezier.curves (CareerChart2.buildSmoothPath pts)) i
       = Some (Bezier.Cubic a c1 c2 b)
       /\ Bezier.pointAt (Bezier.Cubic a c1 c2 b) 0 = Bezier.toR a
       /\ Bezier.pointAt (Bezier.Cubic a c1 c2 b) 1 = Bezier.toR b.
Proof.
  intros Ha Hb.
  assert (Hlen : (S i < List.length pts)%nat).
  { apply nth_error_Some. rewrite Hb. discriminate. }
  unfold CareerChart2.buildSmoothPath, Bezier.curves.
  destruct (Nat.ltb_spec (List.length pts) 2) as [Hlt|_]; [lia|].
  cbn [Bezier.draw]. split.
  - apply draw_catmull_length.
  - destruct (@draw_catmull_nth pts (List.length pts - 1) 0
                (nth 0 pts (0, 0)%Q) i) as (c1 & c2 & E); [lia | lia |].
    simpl Nat.add in E.
    rewrite (nth_error_nth pts i (0, 0)%Q Ha) in E.
    rewrite (nth_error_nth pts (S i) (0, 0)%Q Hb) in E.
    exists c1, c2. split; [exact E | apply cubic_ends].
Qed.

Lemma catmull_interpolates_witness :
  nth_error [(0, 0); (1, 5); (2, 3)]%Q 1 = Some (1, 5)%Q
  /\ nth_error [(0, 0); (1, 5); (2, 3)]%Q 2 = Some (2, 3)%Q
  /\ List.length
       (Bezier.curves (CareerChart2.buildSmoothPath [(0, 0); (1, 5); (2, 3)]%Q))
     = 2%nat.
Proof.
  assert (Ha : nth_error [(0, 0); (1, 5); (2, 3)]%Q 1 = Some (1, 5)%Q)
    by reflexivity.
  assert (Hb : nth_error [(0, 0); (1, 5); (2, 3)]%Q 2 = Some (2, 3)%Q)
    by reflexivity.
  split; [exact Ha|]. split; [exact Hb|].
  destruct (catmull_interpolates _ _ Ha Hb) as [L _]. exact L.
Defined.

Lemma quad_first_half_on (ax ay bx by_ : Q) (t : R) :
  0 <= t <= 1 ->
  Bezier.onSegment (ax, ay) (bx, by_)
    (Bezier.pointAt
       (Bezier.Quad (ax, ay) (ax, ay) (((ax + bx) / 2)%Q, ((ay + by_) / 2)%Q))
       t).
Proof.
  intros [H0 H1]. exists (t ^ 2 / 2). split; [nra|].
  unfold Bezier.pointAt, Bezier.along, Bezier.toR. simpl fst. simpl snd.
  rewrite !midpoint_real, !quadCoord_first_half. reflexivity.
Qed.

Lemma quad_second_half_on (ax ay bx by_ : Q) (t : R) :
  0 <= t <= 1 ->
  Bezier.onSegment (ax, ay) (bx, by_)
    (Bezier.pointAt
       (Bezier.Quad (((ax + bx) / 2)%Q, ((ay + by_) / 2)%Q)
          (Bezier.reflect (ax, ay) (((ax + bx) / 2)%Q, ((ay + by_) / 2)%Q))
          (bx, by_))
       t).
Proof.
  intros [H0 H1]. exists (1 - (1 - t) ^ 2 / 2). split; [nra|].
  unfold Bezier.pointAt, Bezier.along, Bezier.toR, Bezier.reflect.
  simpl fst. simpl snd.
  rewrite !reflected_midpoint, !midpoint_real, !quadCoord_second_half.
  reflexivity.
Qed.

Lemma consecutive_tail {A} (x : A) (pts : list A) (a b : A) :
  consecutive pts a b -> consecutive (x :: pts) a b.
Proof. intros (i & Ha & Hb). exists (S i). split; assumption. Qed.

Lemma segs_cons (x0 y0 x1 y1 : Q) (r : list (Q * Q)) :
  CareerChart1.segs ((x0, y0) :: (x1, y1) :: r)
  = Svg.QuadTo (x0, y0) (((x0 + x1) / 2)%Q, ((y0 + y1) / 2)%Q)
    :: Svg.SmoothQuadTo (x1, y1) :: CareerChart1.segs ((x1, y1) :: r).
Proof. reflexivity. Qed.

Lemma draw_segs_on_segments (pts : list (Q * Q)) :
  forall (p0 st : Q * Q) (lq : option (Q * Q)) (c : Bezier.curve),
    In c (Bezier.draw
            (Some {| Bezier.cur := p0; Bezier.start := st; Bezier.lastQuad := lq |})
            (CareerChart1.segs (p0 :: pts))) ->
    exists a b,
      consecutive (p0 :: pts) a b
      /\ forall t, 0 <= t <= 1 -> Bezier.onSegment a b (Bezier.pointAt c t).
Proof.
  induction pts as [|p1 r IH]; intros p0 st lq c Hc.
  - destruct p0. simpl in Hc. contradiction.
  - destruct p0 as [x0 y0], p1 as [x1 y1].
    rewrite segs_cons in Hc.
    cbn [Bezier.draw Bezier.cur Bezier.start Bezier.lastQuad] in Hc.
    destruct Hc as [<-|[<-|Hc]].
    + exists (x0, y0), (x1, y1). split; [exists 0%nat; split; reflexivity|].
      intros t Ht. apply quad_first_half_on. exact Ht.
    + exists (x0, y0), (x1, y1). split; [exists 0%nat; split; reflexivity|].
      intros t Ht. apply quad_second_half_on. exact Ht.
    + destruct (IH _ _ _ _ Hc) as (a & b & Hab & Hon).
      exists a, b. split; [apply consecutive_tail; exact Hab | exact Hon].
Qed.

Lemma draw_segs_length (pts : list (Q * Q)) :
  forall (p0 : Q * Q) (st : Bezier.pen),
    List.length (Bezier.draw (Some st) (CareerChart1.segs (p0 :: pts)))
    = (2 * List.length pts)%nat.
Proof.
  induction pts as [|p1 r IH]; intros p0 st.
  - destruct p0. reflexivity.
  - destruct p0 as [x0 y0], p1 as [x1 y1].
    rewrite segs_cons. cbn [Bezier.draw List.length]. rewrite IH. lia.
Qed.

(** X7: the path of the first version is a polyline in disguise.  Its
    two quadratic curves per pair of neighbouring points have their
    control points on the straight segment between the two, so every
    point the path draws lies on the segment between two neighbouring
    input points, whatever the input. *)
Theorem quadratic_path_is_polyline (pts : list (Q * Q)) (c : Bezier.curve) (t : R) :
  In c (Bezier.curves (CareerChart1.buildSmoothPath pts)) ->
  0 <= t <= 1 ->
  List.length (Bezier.curves (CareerChart1.buildSmoothPath pts))
  = (2 * (List.length pts - 1))%nat
  /\ exists a b,
       consecutive pts a b /\ Bezier.onSegment a b (Bezier.pointAt c t).
Proof.
  unfold CareerChart1.buildSmoothPath, Bezier.curves.
  destruct (Nat.ltb_spec (List.length pts) 2) as [Hlt|Hge];
    [intros []|].
  destruct pts as [|p0 r]; [simpl in Hge; lia|].
  cbn [Bezier.draw nth List.length]. intros Hc Ht. split.
  - rewrite draw_segs_length. lia.
  - destruct (draw_segs_on_segments _ _ _ _ _ Hc) as (a & b & Hab & Hon).
    exists a, b. split; [exact Hab | apply Hon; exact Ht].
Qed.

Lemma quadratic_path_is_polyline_witness :
  In (Bezier.Quad (0, 0)%Q (0, 0)%Q (((0 + 1) / 2)%Q, ((0 + 5) / 2)%Q))
     (Bezier.curves (CareerChart1.buildSmoothPath [(0, 0); (1, 5); (2, 3)]%Q))
  /\ 0 <= 1 / 2 <= 1
  /\ exists a b,
       consecutive [(0, 0); (1, 5); (2, 3)]%Q a b
       /\ Bezier.onSegment a b
            (Bezier.pointAt
               (Bezier.Quad (0, 0)%Q (0, 0)%Q
                  (((0 + 1) / 2)%Q, ((0 + 5) / 2)%Q))
               (1 / 2)).
Proof.
  assert (Ht : 0 <= 1 / 2 <= 1) by lra.
  assert (Hc : In (Bezier.Quad (0, 0)%Q (0, 0)%Q
                     (((0 + 1) / 2)%Q, ((0 + 5) / 2)%Q))
                  (Bezier.curves
                     (CareerChart1.buildSmoothPath [(0, 0); (1, 5); (2, 3)]%Q)))
    by (left; reflexivity).
  split; [exact Hc|]. split; [exact Ht|].
  destruct (@quadratic_path_is_polyline _ _ _ Hc Ht) as [_ H]. exact H.
Defined.

End LongPaths.

(** ** The radial charts inside their frame *)

Section RadialFrame.

Local Open Scope R_scope.

Lemma unit_Q2R (q : Q) : (0 <= q <= 1)%Q -> 0 <= Q2R q <= 1.
Proof.
  intros [H0 H1]. split.
  - rewrite <- RMicromega.Q2R_0. apply Qle_Rle. exact H0.
  - rewrite <- RMicromega.Q2R_1. apply Qle_Rle. exact H1.
Qed.

Lemma square_bound (a r : R) : 0 <= r -> a ^ 2 <= r ^ 2 -> - r <= a <= r.
Proof.
  intros Hr Ha. split.
  - destruct (Rle_lt_dec (- r) a) as [H|H]; [exact H|]. nra.
  - destruct (Rle_lt_dec a r) as [H|H]; [exact H|]. nra.
Qed.

(** A point of the disc of radius [radius <= c] around [(c, c)] is in
    the square viewBox of side [2 * c]. *)
Lemma disc_in_viewBox (c radius : R) (q : R * R) :
  0 <= radius <= c -> inDisc c radius q -> inViewBox (2 * c) q.
Proof.
  unfold inDisc, inViewBox. destruct q as [x y]. simpl fst. simpl snd.
  intros [Hr Hc] Hd.
  pose proof (pow2_ge_0 (x - c)) as Px. pose proof (pow2_ge_0 (y - c)) as Py.
  assert (Hx : (x - c) ^ 2 <= radius ^ 2) by lra.
  assert (Hy : (y - c) ^ 2 <= radius ^ 2) by lra.
  apply (square_bound Hr) in Hx. apply (square_bound Hr) in Hy.
  repeat split; lra.
Qed.

Lemma trig_unit (a : R) : sin a * sin a + cos a * cos a = 1.
Proof. pose proof (sin2_cos2 a) as H. unfold Rsqr in H. exact H. Qed.

Lemma lines_after_first (cs : list (R * R)) (k : nat) :
  JS.mapFrom (fun c i => if Nat.eqb i 0 then Svg.MoveTo c else Svg.LineTo c)
             (S k) cs
  = map (fun c => Svg.LineTo c) cs.
Proof.
  revert k. induction cs as [|c cs IH]; intros k; [reflexivity|].
  cbn [JS.mapFrom map Nat.eqb]. rewrite IH. reflexivity.
Qed.

(** The shape of a radial path: a move, then lines, then the closing
    command. *)
Lemma pathOf_shape (c0 : R * R) (cs : list (R * R)) :
  Radial.pathOf (c0 :: cs)
  = Svg.MoveTo c0 :: map (fun c => Svg.LineTo c) cs ++ [Svg.ClosePath].
Proof.
  unfold Radial.pathOf, JS.mapi. cbn [JS.mapFrom Nat.eqb app].
  rewrite lines_after_first. reflexivity.
Qed.

Lemma mapFrom_In {A B} (f : A -> nat -> B) (xs : list A) (i : nat) (y : B) :
  In y (JS.mapFrom f i xs) -> exists x j, In x xs /\ y = f x j.
Proof.
  revert i. induction xs as [|x xs IH]; intros i H; [contradiction|].
  destruct H as [<-|H].
  - exists x, i. split; [left; reflexivity | reflexivity].
  - destruct (IH _ H) as (x' & j & Hx & E). exists x', j.
    split; [right; exact Hx | exact E].
Qed.

Lemma vertex_in_disc (center radius : R) (n i : nat) (v : R) :
  0 <= v <= 1 -> inDisc center radius (Radial.vertex center radius n i v).
Proof. intros H. unfold inDisc. apply vertex_within_frame. exact H. Qed.

(** X9: the polygon of a spider series is a closed path with one vertex
    per axis (a move, seven lines and the closing command), and whatever
    the values of the series every vertex lies within the outer ring
    (at most 156 from the centre (190, 190)), hence inside the 380 by
    380 viewBox. *)
Theorem spider_polygon_closed_in_view (s : CountingGeometrySpider.Series) :
  (exists c0 cs,
      CountingGeometrySpider.coords s = c0 :: cs
      /\ List.length cs = 7%nat
      /\ CountingGeometrySpider.buildPath s
         = Svg.MoveTo c0 :: map (fun c => Svg.LineTo c) cs ++ [Svg.ClosePath])
  /\ Forall (inDisc 190 156) (CountingGeometrySpider.coords s)
  /\ Forall (inViewBox 380) (CountingGeometrySpider.coords s).
Proof.
  assert (Hdisc : Forall (inDisc 190 156) (CountingGeometrySpider.coords s)).
  { apply Forall_forall. intros q Hq.
    unfold CountingGeometrySpider.coords, JS.mapi in Hq.
    apply mapFrom_In in Hq. destruct Hq as (ax & j & _ & ->).
    replace 190 with CountingGeometrySpider.center
      by (unfold CountingGeometrySpider.center, CountingGeometrySpider.size; lra).
    replace 156 with CountingGeometrySpider.radius
      by (unfold CountingGeometrySpider.radius, CountingGeometrySpider.size; lra).
    apply vertex_in_disc. apply unit_Q2R. apply spider_val_bounded. }
  split; [|split; [exact Hdisc|]].
  - unfold CountingGeometrySpider.buildPath.
    destruct (CountingGeometrySpider.coords s) as [|c0 cs] eqn:E.
    + apply (f_equal (@List.length _)) in E.
      unfold CountingGeometrySpider.coords in E. rewrite mapi_length in E.
      discriminate E.
    + exists c0, cs. split; [reflexivity|]. split; [|apply pathOf_shape].
      apply (f_equal (@List.length _)) in E.
      unfold CountingGeometrySpider.coords in E. rewrite mapi_length in E.
      simpl in E. lia.
  - eapply Forall_impl; [|exact Hdisc]. intros q Hq.
    replace 380 with (2 * 190) by lra.
    apply (@disc_in_viewBox 190 156); [lra | exact Hq].
Qed.

(** X10: in the RadarChart a series of the data whose values are all
    absent or not negative is drawn within the outer ring (at most 150
    from the centre (180, 180)), hence inside the 360 by 360 viewBox. *)
Theorem radar_polygon_in_view (data : list RadarChart.Series)
    (s : RadarChart.Series) :
  In s data ->
  (forall k, (0 <= JS.nullish (RadarChart.field s k) 0)%Q) ->
  Forall (inDisc 180 150) (RadarChart.coords data s)
  /\ Forall (inViewBox 360) (RadarChart.coords data s).
Proof.
  intros Hin Hpos.
  assert (Hdisc : Forall (inDisc 180 150) (RadarChart.coords data s)).
  { apply Forall_forall. intros q Hq.
    unfold RadarChart.coords, JS.mapi in Hq.
    apply mapFrom_In in Hq. destruct Hq as (ax & j & _ & ->).
    replace 180 with RadarChart.center
      by (unfold RadarChart.center, RadarChart.size; lra).
    replace 150 with RadarChart.radius
      by (unfold RadarChart.radius, RadarChart.size; lra).
    apply vertex_in_disc. apply unit_Q2R.
    apply radar_val_bounded_nonneg; [exact Hin | apply Hpos]. }
  split; [exact Hdisc|].
  eapply Forall_impl; [|exact Hdisc]. intros q Hq.
  replace 360 with (2 * 180) by lra.
  apply (@disc_in_viewBox 180 150); [lra | exact Hq].
Qed.

Lemma radar_polygon_in_view_witness :
  In radar_high [radar_low; radar_high]
  /\ (forall k, (0 <= JS.nullish (RadarChart.field radar_high k) 0)%Q)
  /\ Forall (inViewBox 360) (RadarChart.coords [radar_low; radar_high] radar_high).
Proof.
  assert (Hin : In radar_high [radar_low; radar_high])
    by (right; left; reflexivity).
  assert (Hpos : forall k, (0 <= JS.nullish (RadarChart.field radar_high k) 0)%Q)
    by (intros k; destruct k; discriminate).
  split; [exact Hin|]. split; [exact Hpos|].
  destruct (radar_polygon_in_view _ _ Hin Hpos) as [_ H]. exact H.
Defined.

Lemma label_in_disc (c radius off : R) (a : R) :
  inDisc c (radius + off)
    (c + cos a * (radius + off), c + sin a * (radius + off)).
Proof.
  unfold inDisc. simpl fst. simpl snd. pose proof (trig_unit a) as H.
  replace ((c + cos a * (radius + off) - c) ^ 2
           + (c + sin a * (radius + off) - c) ^ 2)
    with ((sin a * sin a + cos a * cos a) * (radius + off) ^ 2) by ring.
  rewrite H. lra.
Qed.

(** X11: the scaffold of the counting-geometry spider and the polygons
    share their spokes.  On axis [i] the ring at fraction [r] has its
    vertex at the share [r] of the spoke, a series has its vertex at the
    share given by its clamped value, between the centre and the end of
    the spoke, and the label is anchored on the same ray, (156 + 16) / 156
    of the spoke away from the centre: beyond the outer ring and still
    inside the viewBox. *)
Theorem spider_scaffold_on_spokes (s : CountingGeometrySpider.Series)
    (i : nat) (k : CountingGeometrySpider.AxisKey) (label : string) (r : R) :
  nth_error CountingGeometrySpider.axes i = Some (k, label) ->
  let centre := (CountingGeometrySpider.center, CountingGeometrySpider.center) in
  nth_error (SpiderScaffold.ringPoints r) i
  = Some (Bezier.along centre (SpiderScaffold.spokeEnd i) r)
  /\ nth_error (CountingGeometrySpider.coords s) i
     = Some (Bezier.along centre (SpiderScaffold.spokeEnd i)
               (Q2R (CountingGeometrySpider.v s k)))
  /\ 0 <= Q2R (CountingGeometrySpider.v s k) <= 1
  /\ SpiderScaffold.labelPos i
     = Bezier.along centre (SpiderScaffold.spokeEnd i) ((156 + 16) / 156)
  /\ inViewBox 380 (SpiderScaffold.labelPos i).
Proof.
  intros Hax centre.
  assert (Hc : CountingGeometrySpider.center = 190)
    by (unfold CountingGeometrySpider.center, CountingGeometrySpider.size; lra).
  assert (Hr : CountingGeometrySpider.radius = 156)
    by (unfold CountingGeometrySpider.radius, CountingGeometrySpider.size; lra).
  split; [|split; [|split; [|split]]].
  - unfold SpiderScaffold.ringPoints. rewrite mapi_nth_error, Hax.
    cbn [option_map]. f_equal.
    unfold Bezier.along, centre, SpiderScaffold.spokeEnd. cbv zeta.
    cbn [fst snd]. f_equal; ring.
  - rewrite (spider_coords_nth s i Hax). f_equal.
    unfold Bezier.along, centre, SpiderScaffold.spokeEnd, Radial.vertex.
    cbv zeta. cbn [fst snd].
    change (List.length CountingGeometrySpider.axes) with 8%nat.
    f_equal; ring.
  - apply unit_Q2R. apply spider_val_bounded.
  - unfold Bezier.along, centre, SpiderScaffold.labelPos, SpiderScaffold.spokeEnd.
    cbv zeta. cbn [fst snd]. rewrite Hr. f_equal; field.
  - replace 380 with (2 * 190) by lra.
    apply (@disc_in_viewBox 190 (156 + 16)); [lra|].
    unfold SpiderScaffold.labelPos. cbv zeta. rewrite Hc, Hr.
    apply label_in_disc.
Qed.

Lemma spider_scaffold_on_spokes_witness :
  nth_error CountingGeometrySpider.axes 2
  = Some (CountingGeometrySpider.k_points, "PTS"%string)
  /\ inViewBox 380 (SpiderScaffold.labelPos 2).
Proof.
  assert (H : nth_error CountingGeometrySpider.axes 2
              = Some (CountingGeometrySpider.k_points, "PTS"%string))
    by reflexivity.
  split; [exact H|].
  destruct (@spider_scaffold_on_spokes (spider_sample 1) 2 _ _ 1 H)
    as (_ & _ & _ & _ & Hv).
  exact Hv.
Defined.

End RadialFrame.

(** ** Legend colours and head shots *)

Section LegendColours.

Import Stdlib.Strings.Ascii.
Import LegendTree.
Local Open Scope Z_scope.

Lemma hexDigit_range (c : ascii) (d : Z) : hexDigit c = Some d -> 0 <= d < 16.
Proof.
  unfold hexDigit. set (n := Z.of_N (N_of_ascii c)).
  destruct (48 <=? n) eqn:A1, (n <=? 57) eqn:A2; simpl;
  destruct (65 <=? n) eqn:B1, (n <=? 70) eqn:B2; simpl;
  destruct (97 <=? n) eqn:C1, (n <=? 102) eqn:C2; simpl;
  intros H; inversion H; lia.
Qed.

Lemma hexDigit_not_hash (c : ascii) (d : Z) :
  hexDigit c = Some d -> Ascii.eqb c "#" = false.
Proof.
  intros H. destruct (Ascii.eqb_spec c "#") as [->|_]; [|reflexivity].
  vm_compute in H. discriminate H.
Qed.

Lemma channels_of_digits (d1 d2 d3 d4 d5 d6 : Z) :
  0 <= d1 < 16 -> 0 <= d2 < 16 -> 0 <= d3 < 16 ->
  0 <= d4 < 16 -> 0 <= d5 < 16 -> 0 <= d6 < 16 ->
  let x := parseInt16 [d1; d2; d3; d4; d5; d6] in
  Z.land (Z.shiftr x 16) 255 = 16 * d1 + d2
  /\ Z.land (Z.shiftr x 8) 255 = 16 * d3 + d4
  /\ Z.land x 255 = 16 * d5 + d6.
Proof.
  intros H1 H2 H3 H4 H5 H6 x. unfold x, parseInt16. cbn [fold_left].
  rewrite !Z.shiftr_div_pow2 by lia.
  change 255 with (Z.ones 8). rewrite !Z.land_ones by lia.
  change (2 ^ 16) with 65536. change (2 ^ 8) with 256.
  set (y := (((((0 * 16 + d1) * 16 + d2) * 16 + d3) * 16 + d4) * 16 + d5) * 16 + d6).
  assert (E1 : y / 65536 = 16 * d1 + d2).
  { symmetry.
    apply (Z.div_unique _ _ _ (((d3 * 16 + d4) * 16 + d5) * 16 + d6));
      unfold y; lia. }
  assert (E2 : y / 256 = ((d1 * 16 + d2) * 16 + d3) * 16 + d4).
  { symmetry. apply (Z.div_unique _ _ _ (d5 * 16 + d6)); unfold y; lia. }
  rewrite E1, E2. repeat split.
  - apply Z.mod_small. lia.
  - symmetry. apply (Z.mod_unique _ _ (d1 * 16 + d2)); lia.
  - symmetry. apply (Z.mod_unique _ _ (((d1 * 16 + d2) * 16 + d3) * 16 + d4));
      unfold y; lia.
Qed.

(** X12: on a string of six hexadecimal digits, in either case and with
    or without the leading [#], [hexToRgba] returns the three bytes the
    digits spell: red from the first pair, green from the second, blue
    from the third; the alpha is passed through. *)
Theorem hexToRgba_channels (c1 c2 c3 c4 c5 c6 : ascii)
    (d1 d2 d3 d4 d5 d6 : Z) (a : Q) :
  hexDigit c1 = Some d1 -> hexDigit c2 = Some d2 -> hexDigit c3 = Some d3 ->
  hexDigit c4 = Some d4 -> hexDigit c5 = Some d5 -> hexDigit c6 = Some d6 ->
  let h := String c1 (String c2 (String c3 (String c4 (String c5
             (String c6 EmptyString))))) in
  let bytes := {| red := 16 * d1 + d2; green := 16 * d3 + d4;
                  blue := 16 * d5 + d6; alpha := a |} in
  hexToRgba h a = bytes
  /\ hexToRgba (String "#" h) a = bytes
  /\ 0 <= red bytes <= 255 /\ 0 <= green bytes <= 255 /\ 0 <= blue bytes <= 255.
Proof.
  intros H1 H2 H3 H4 H5 H6 h bytes.
  pose proof (hexDigit_range _ H1). pose proof (hexDigit_range _ H2).
  pose proof (hexDigit_range _ H3). pose proof (hexDigit_range _ H4).
  pose proof (hexDigit_range _ H5). pose proof (hexDigit_range _ H6).
  assert (Hd : hexDigits h = Some [d1; d2; d3; d4; d5; d6]).
  { unfold h. cbn [hexDigits]. rewrite H1, H2, H3, H4, H5, H6. reflexivity. }
  destruct (@channels_of_digits d1 d2 d3 d4 d5 d6) as (Er & Eg & Eb);
    try assumption.
  assert (Hplain : hexToRgba h a = bytes).
  { unfold hexToRgba, execHex. unfold h at 1.
    rewrite (hexDigit_not_hash _ H1). fold h. rewrite Hd. cbn [List.length Nat.eqb].
    cbv zeta. rewrite Er, Eg, Eb. reflexivity. }
  assert (Hhash : hexToRgba (String "#" h) a = bytes).
  { unfold hexToRgba, execHex. rewrite Ascii.eqb_refl, Hd.
    cbn [List.length Nat.eqb]. cbv zeta. rewrite Er, Eg, Eb. reflexivity. }
  split; [exact Hplain|]. split; [exact Hhash|].
  unfold bytes. cbn [red green blue]. lia.
Qed.

(** The highlight colour [#38bdf8]. *)
Lemma hexToRgba_channels_witness :
  hexDigit "3" = Some 3 /\ hexDigit "8" = Some 8 /\ hexDigit "b" = Some 11
  /\ hexDigit "d" = Some 13 /\ hexDigit "f" = Some 15
  /\ hexToRgba "#38bdf8" (45 # 100)
     = {| red := 56; green := 189; blue := 248; alpha := 45 # 100 |}.
Proof.
  assert (A3 : hexDigit "3" = Some 3) by reflexivity.
  assert (A8 : hexDigit "8" = Some 8) by reflexivity.
  assert (Ab : hexDigit "b" = Some 11) by reflexivity.
  assert (Ad : hexDigit "d" = Some 13) by reflexivity.
  assert (Af : hexDigit "f" = Some 15) by reflexivity.
  repeat (split; [assumption|]).
  destruct (@hexToRgba_channels "3" "8" "b" "d" "f" "8" _ _ _ _ _ _
              (45 # 100) A3 A8 Ab Ad Af A8) as (_ & E & _).
  exact E.
Defined.

(** X13: the border of every comparison node of the legend takes the
    colour of its series: for every index [k >= 1] the colour
    [seriesColor k] matches the pattern of [hexToRgba], so the border is
    never the white of the no-match branch. *)
Theorem legend_border_follows_series (k : nat) :
  (1 <= k)%nat ->
  exists c ds,
    CountingGeometrySpider.seriesColor k = Some c
    /\ execHex c = Some ds
    /\ borderColor (CountingGeometrySpider.seriesColor k)
       <> {| red := 255; green := 255; blue := 255; alpha := 45 # 100 |}.
Proof.
  intros Hk. destruct (spider_palette_lookup Hk) as (c & Hc & Hin).
  rewrite Hc. unfold CountingGeometrySpider.palette in Hin.
  simpl in Hin.
  destruct Hin as [<-|[<-|[<-|[<-|[<-|[<-|[]]]]]]];
    eexists; eexists; (split; [reflexivity|]);
    (split; [vm_compute; reflexivity|]); vm_compute; discriminate.
Qed.

Lemma legend_border_follows_series_witness :
  (1 <= 2)%nat
  /\ exists c ds,
       CountingGeometrySpider.seriesColor 2 = Some c
       /\ execHex c = Some ds
       /\ borderColor (CountingGeometrySpider.seriesColor 2)
          <> {| red := 255; green := 255; blue := 255; alpha := 45 # 100 |}.
Proof.
  assert (H : (1 <= 2)%nat) by lia.
  split; [exact H | exact (legend_border_follows_series H)].
Defined.

(** X14: the head shot of a legend node or of a similar-player card goes
    through its sources in one direction only.  It starts on the
    primary address, the first failure switches it to the alternate
    address, and from the second failure on it shows the inline
    placeholder: no remote address is requested twice. *)
Theorem headshot_fallback_chain (playerId : Z) (n : nat) :
  src (Nat.iter n (onError playerId) (renderHeadshot playerId))
  = match n with
    | 0%nat => Primary playerId
    | 1%nat => Alternate playerId
    | _ => Placeholder
    end.
Proof.
  destruct n as [|[|n]]; [reflexivity | reflexivity |].
  assert (H : Nat.iter (S (S n)) (onError playerId) (renderHeadshot playerId)
              = {| src := Placeholder; stage := "fallback" |}).
  { induction n as [|n IH]; [reflexivity|].
    change (Nat.iter (S (S (S n))) (onError playerId) (renderHeadshot playerId))
      with (onError playerId
              (Nat.iter (S (S n)) (onError playerId) (renderHeadshot playerId))).
    rewrite IH. reflexivity. }
  rewrite H. reflexivity.
Qed.

End LegendColours.

(** ** The head shot of ProfileCard *)

Section ProfileHeadshot.

Import ProfileCard.

(** X15: the head shot of ProfileCard always ends on the placeholder.
    From any state and for any player, three failures in a row leave the
    placeholder as source, and a further failure changes nothing (no
    more state update, so no more request).  After the reset for a
    player with an id the sources are tried in the order primary,
    alternate, legacy, placeholder; without an id the card stays on the
    placeholder. *)
Theorem profile_headshot_settles (playerId : option Z) (st : State) (id : Z) :
  src (failures playerId 3 st) = Fallback
  /\ onError playerId (failures playerId 3 st) = failures playerId 3 st
  /\ map (fun n => src (failures (Some id) n (reset (Some id)))) [0; 1; 2; 3]%nat
     = [Primary id; Alternate id; Legacy id; Fallback]
  /\ onError None (reset None) = reset None
  /\ src (reset None) = Fallback.
Proof.
  split; [|split; [|split; [|split]]]; try reflexivity.
  - destruct playerId as [p|], st as [s [|] [|]]; destruct s; reflexivity.
  - destruct playerId as [p|], st as [s [|] [|]]; destruct s; reflexivity.
Qed.

End ProfileHeadshot.

(** ** The empty state of the similar-players list *)

Section SimilarEmpty.

Import JS SimilarList.

(** X19: the second version of SimilarList shows "No comps yet" exactly
    when no entry has a finite distance, also when entries were
    supplied; otherwise it shows one card per entry with a finite
    distance. *)
Theorem similar_list_empty_state (comps : list Comp) :
  (render comps = NoComps
   <-> forall c, In c comps -> isFinite (distance c) = false)
  /\ (forall shown, render comps = Grid shown ->
                    shown = cards comps
                    /\ List.length shown
                       = List.length (filter (fun c => isFinite (distance c)) comps)
                    /\ (0 < List.length shown)%nat).
Proof.
  assert (Hlen : List.length (sorted comps)
                 = List.length (filter (fun c => isFinite (distance c)) comps)).
  { apply Permutation_length. apply sort_perm. }
  unfold render. split.
  - destruct (Nat.eqb_spec (List.length (sorted comps)) 0) as [Hz|Hnz].
    + split; [|reflexivity]. intros _ c Hc.
      rewrite Hlen in Hz. apply length_zero_iff_nil in Hz.
      destruct (isFinite (distance c)) eqn:E; [|reflexivity].
      assert (Hin : In c (filter (fun c => isFinite (distance c)) comps))
        by (apply filter_In; split; assumption).
      rewrite Hz in Hin. contradiction.
    + split; [discriminate|]. intros Hall. exfalso. apply Hnz.
      rewrite Hlen. apply length_zero_iff_nil.
      destruct (filter (fun c => isFinite (distance c)) comps) as [|c r] eqn:E;
        [reflexivity|].
      assert (Hin : In c (filter (fun c => isFinite (distance c)) comps))
        by (rewrite E; left; reflexivity).
      apply filter_In in Hin. destruct Hin as [Hc Hf].
      rewrite (Hall c Hc) in Hf. discriminate Hf.
  - intros shown. destruct (Nat.eqb_spec (List.length (sorted comps)) 0) as [Hz|Hnz];
      [discriminate|].
    intros E. inversion E; subst. split; [reflexivity|].
    unfold cards. rewrite mapi_length, <- Hlen. split; [reflexivity | lia].
Qed.

End SimilarEmpty.

(** ** The season filter and the selection of App *)

Section AppFilters.

Import JS App.
Local Open Scope Z_scope.

Lemma add_In (seasons : list Z) (s x : Z) :
  In x (add seasons s) <-> In x seasons \/ x = s.
Proof.
  unfold add. destruct (existsb (Z.eqb s) seasons) eqn:E.
  - apply existsb_exists in E. destruct E as (y & Hy & Ey).
    apply Z.eqb_eq in Ey. subst y. split; [auto|].
    intros [H| ->]; assumption.
  - rewrite in_app_iff. simpl. split.
    + intros [H|[H|[]]]; auto.
    + intros [H|H]; auto.
Qed.

Lemma add_NoDup (seasons : list Z) (s : Z) :
  NoDup seasons -> NoDup (add seasons s).
Proof.
  intros H. unfold add. destruct (existsb (Z.eqb s) seasons) eqn:E; [exact H|].
  assert (Hn : ~ In s seasons).
  { intros Hin. assert (Ht : existsb (Z.eqb s) seasons = true).
    { apply existsb_exists. exists s. split; [exact Hin | apply Z.eqb_refl]. }
    rewrite Ht in E. discriminate E. }
  apply NoDup_app; [exact H | repeat constructor; intros [] |].
  intros x Hx [<-|[]]. exact (Hn Hx).
Qed.

Lemma addYears_step (hi y : Z) (seasons : list Z) :
  y <= hi -> addYears hi y seasons = addYears hi (y + 1) (add seasons y).
Proof.
  intros H. rewrite addYears_equation_1 at 1.
  destruct (Z_le_gt_dec y hi); [reflexivity | lia].
Qed.

Lemma addYears_done (hi y : Z) (seasons : list Z) :
  y > hi -> addYears hi y seasons = seasons.
Proof.
  intros H. rewrite addYears_equation_1.
  destruct (Z_le_gt_dec y hi); [lia | reflexivity].
Qed.

Lemma addYears_spec (hi : Z) (n : nat) :
  forall (y : Z) (seasons : list Z),
    Z.to_nat (hi - y + 1) = n ->
    (forall x, In x (addYears hi y seasons) <-> In x seasons \/ y <= x <= hi)
    /\ (NoDup seasons -> NoDup (addYears hi y seasons)).
Proof.
  induction n as [|n IH]; intros y seasons Hn.
  - rewrite addYears_done by lia. split; [|auto].
    intros x. split; [auto|]. intros [H|H]; [exact H | lia].
  - rewrite addYears_step by lia.
    destruct (IH (y + 1) (add seasons y)) as [Hin Hnd]; [lia|].
    split.
    + intros x. rewrite Hin, add_In. split.
      * intros [[H| ->]|H]; [auto | right; lia | right; lia].
      * intros [H|H]; [auto|].
        destruct (Z.eq_dec x y) as [->|Hne]; [auto | right; lia].
    + intros H. apply Hnd. apply add_NoDup. exact H.
Qed.

Lemma addArray_spec (played : list (nullable Z)) :
  forall (seasons : list Z),
    let step := fun acc s =>
                  match s with
                  | Value z => if z <=? maxUiSeason then add acc z else acc
                  | _ => acc
                  end in
    (forall x, In x (fold_left step played seasons)
               <-> In x seasons \/ (In (Value x) played /\ x <= maxUiSeason))
    /\ (NoDup seasons -> NoDup (fold_left step played seasons)).
Proof.
  induction played as [|s played IH]; intros seasons step.
  - simpl. split; [|auto]. intros x. split; [auto|].
    intros [H|[[] _]]. exact H.
  - cbn [fold_left].
    destruct (IH (step seasons s)) as [Hin Hnd]. fold step in Hin, Hnd.
    split.
    + intros x. rewrite Hin. unfold step at 1.
      destruct s as [| |z]; cbn [In].
      * split; [intros [H|[H1 H2]]; auto | intros [H|[[H|H] H2]]; auto; discriminate H].
      * split; [intros [H|[H1 H2]]; auto | intros [H|[[H|H] H2]]; auto; discriminate H].
      * destruct (Z.leb_spec z maxUiSeason) as [Hz|Hz].
        -- rewrite add_In. split.
           ++ intros [[H| ->]|[H1 H2]]; auto.
           ++ intros [H|[[H|H] H2]]; auto. inversion H; subst. auto.
        -- split.
           ++ intros [H|[H1 H2]]; auto.
           ++ intros [H|[[H|H] H2]]; auto. inversion H; subst. lia.
    + intros H. apply Hnd. unfold step.
      destruct s as [| |z]; try exact H.
      destruct (z <=? maxUiSeason); [apply add_NoDup|]; exact H.
Qed.

Lemma playedIn_array (played : list (nullable Z)) (x : Z) :
  existsb (fun s => match s with Value z => Z.eqb z x | _ => false end) played
  = true <-> In (Value x) played.
Proof.
  rewrite existsb_exists. split.
  - intros (s & Hs & E). destruct s as [| |z]; try discriminate E.
    apply Z.eqb_eq in E. subst. exact Hs.
  - intros H. exists (Value x). split; [exact H | apply Z.eqb_refl].
Qed.

(** One player adds exactly the seasons up to 2024 for which the season
    test of [filteredPlayers] accepts the player. *)
Lemma addPlayer_spec (seasons : list Z) (p : Player) :
  (forall x, In x (addPlayer seasons p)
             <-> In x seasons \/ (x <= maxUiSeason /\ playedIn x p = true))
  /\ (NoDup seasons -> NoDup (addPlayer seasons p)).
Proof.
  unfold addPlayer, playedIn.
  destruct (seasons_played p) as [played|].
  - destruct (addArray_spec played seasons) as [Hin Hnd]. split; [|exact Hnd].
    intros x. rewrite Hin, playedIn_array. tauto.
  - destruct (from_year p) as [| |f]; try (split; [intros x; split; [auto | intros [H|[_ H]]; [exact H | discriminate H]] | auto]).
    destruct (to_year p) as [| |t]; try (split; [intros x; split; [auto | intros [H|[_ H]]; [exact H | discriminate H]] | auto]).
    destruct (@addYears_spec (Z.min t maxUiSeason)
                (Z.to_nat (Z.min t maxUiSeason - f + 1)) f seasons eq_refl)
      as [Hin Hnd].
    split; [|exact Hnd].
    intros x. rewrite Hin, andb_true_iff, !Z.leb_le. unfold maxUiSeason.
    split; intros [H|H]; [left; exact H | right; lia | left; exact H | right; lia].
Qed.

Lemma addPlayers_spec (players : list Player) :
  forall seasons,
    (forall x, In x (fold_left addPlayer players seasons)
               <-> In x seasons
                   \/ (x <= maxUiSeason
                       /\ exists p, In p players /\ playedIn x p = true))
    /\ (NoDup seasons -> NoDup (fold_left addPlayer players seasons)).
Proof.
  induction players as [|p players IH]; intros seasons.
  - simpl. split; [|auto]. intros x. split; [auto|].
    intros [H|[_ (p & [] & _)]]. exact H.
  - cbn [fold_left]. destruct (IH (addPlayer seasons p)) as [Hin Hnd].
    destruct (addPlayer_spec seasons p) as [Pin Pnd]. split.
    + intros x. rewrite Hin, Pin. split.
      * intros [[H|[H1 H2]]|[H1 (q & Hq & H2)]]; auto.
        -- right. split; [exact H1|]. exists p. split; [left; reflexivity | exact H2].
        -- right. split; [exact H1|]. exists q. split; [right; exact Hq | exact H2].
      * intros [H|[H1 (q & [<-|Hq] & H2)]]; auto.
        right. split; [exact H1|]. exists q. split; assumption.
    + intros H. apply Hnd, Pnd, H.
Qed.

Lemma positive_descending (a b : Z) :
  positive (descending a b) = true <-> a < b.
Proof.
  unfold descending. simpl. rewrite negb_true_iff, <- not_true_iff_false.
  rewrite Qle_bool_iff. unfold Qminus. rewrite <- inject_Z_opp, <- inject_Z_plus.
  change 0%Q with (inject_Z 0). rewrite <- Zle_Qle. lia.
Qed.

Lemma insert_descending (x : Z) (l : list Z) :
  Sorted Z.ge l -> Sorted Z.ge (SimilarList.insert descending x l).
Proof.
  induction l as [|y l IH]; intros Hs; cbn [SimilarList.insert];
    [repeat constructor|].
  inversion Hs as [|? ? Hsl Hhd]; subst.
  destruct (positive (descending x y)) eqn:E.
  - apply positive_descending in E.
    constructor; [apply IH; exact Hsl|].
    destruct l as [|z l]; cbn [SimilarList.insert].
    + constructor. lia.
    + destruct (positive (descending x z)); constructor.
      * inversion Hhd; assumption.
      * lia.
  - constructor; [exact Hs|]. constructor.
    destruct (Z_lt_ge_dec x y) as [H|H]; [|exact H].
    apply positive_descending in H. rewrite H in E. discriminate E.
Qed.

Lemma sort_descending (l : list Z) : Sorted Z.ge (SimilarList.sort descending l).
Proof.
  induction l as [|x l IH]; cbn [SimilarList.sort]; [constructor|].
  apply insert_descending. exact IH.
Qed.

Lemma strictly_descending (l : list Z) :
  StronglySorted Z.ge l -> NoDup l -> StronglySorted Z.gt l.
Proof.
  induction 1 as [|x l Hs IH Hall]; intros Hnd; [constructor|].
  inversion Hnd as [|? ? Hx Hl]; subst.
  constructor; [apply IH; exact Hl|].
  apply Forall_forall. intros y Hy.
  rewrite Forall_forall in Hall. specialize (Hall y Hy).
  assert (x <> y) by (intros ->; exact (Hx Hy)). lia.
Qed.

(** X16: the seasons offered by the season filter are listed latest
    first without repetition, and a season is offered exactly when it is
    at most 2024 and the season test of [filteredPlayers] accepts some
    player of the list for it, eligible or not. *)
Theorem seasonOptions_spec (players : list Player) (s : Z) :
  StronglySorted Z.gt (seasonOptions players)
  /\ (In s (seasonOptions players)
      <-> s <= 2024 /\ exists p, In p players /\ playedIn s p = true).
Proof.
  destruct (addPlayers_spec players []) as [Hin Hnd].
  pose proof (@sort_perm _ descending (fold_left addPlayer players [])) as Hperm.
  fold (seasonOptions players) in Hperm.
  split.
  - apply strictly_descending.
    + apply Sorted_StronglySorted; [intros a b c; lia | apply sort_descending].
    + eapply Permutation_NoDup; [apply Permutation_sym; exact Hperm|].
      apply Hnd. constructor.
  - split.
    + intros H. apply (Permutation_in _ Hperm) in H. apply Hin in H.
      destruct H as [[]|H]. exact H.
    + intros H. apply (Permutation_in _ (Permutation_sym Hperm)).
      apply Hin. right. exact H.
Qed.

Lemma filteredPlayers_In (players : list Player) (seasonFilter : option Z)
    (p : Player) :
  In p (filteredPlayers players seasonFilter) ->
  In p players /\ eligible p = true
  /\ (forall s, seasonFilter = Some s -> playedIn s p = true).
Proof.
  unfold filteredPlayers, eligiblePlayers. destruct seasonFilter as [s|].
  - rewrite !filter_In. intros [[H1 H2] H3]. split; [exact H1|].
    split; [exact H2|]. intros s' E. inversion E; subst. exact H3.
  - rewrite filter_In. intros [H1 H2]. split; [exact H1|].
    split; [exact H2|]. intros s' E. discriminate E.
Qed.

(** X17: when the filters leave at least one player, the selection
    repaired by the effect is a player the filters kept: a player of the
    list who is eligible and, under a season filter, passes the season
    test.  Running the effect again changes nothing. *)
Theorem reselect_keeps_selection_listed (players : list Player)
    (seasonFilter : option Z) (selected : option Z) :
  filteredPlayers players seasonFilter <> [] ->
  let filtered := filteredPlayers players seasonFilter in
  (exists p,
      In p players /\ eligible p = true
      /\ (forall s, seasonFilter = Some s -> playedIn s p = true)
      /\ reselect filtered selected = Some (player_id p))
  /\ reselect filtered (reselect filtered selected) = reselect filtered selected.
Proof.
  intros Hne filtered.
  assert (Hsel : exists p, In p filtered
                           /\ reselect filtered selected = Some (player_id p)).
  { unfold reselect. destruct filtered as [|first rest] eqn:E; [contradiction|].
    destruct selected as [id|].
    - destruct (negb (id =? 0)
                && existsb (fun p => player_id p =? id) (first :: rest)) eqn:Es.
      + apply andb_true_iff in Es. destruct Es as [_ Es].
        apply existsb_exists in Es. destruct Es as (p & Hp & Ep).
        apply Z.eqb_eq in Ep. exists p. split; [exact Hp | rewrite Ep; reflexivity].
      + exists first. split; [left; reflexivity | reflexivity].
    - exists first. split; [left; reflexivity | reflexivity]. }
  split.
  - destruct Hsel as (p & Hp & Ep). exists p.
    destruct (filteredPlayers_In _ _ _ Hp) as (H1 & H2 & H3).
    repeat split; assumption.
  - unfold reselect. destruct filtered as [|first rest]; [reflexivity|].
    set (stays := fun sel : option Z =>
                    match sel with
                    | Some id => negb (id =? 0)
                                 && existsb (fun p => player_id p =? id)
                                            (first :: rest)
                    | None => false
                    end).
    change ((if stays (if stays selected then selected else Some (player_id first))
             then (if stays selected then selected else Some (player_id first))
             else Some (player_id first))
            = (if stays selected then selected else Some (player_id first))).
    destruct (stays selected) eqn:E1; [rewrite E1; reflexivity|].
    destruct (stays (Some (player_id first))); reflexivity.
Qed.

(** With the season filter on 2024, the first player is selected in
    place of a selection that is not listed. *)
Lemma reselect_keeps_selection_listed_witness :
  filteredPlayers sample_players (Some 2024) <> []
  /\ reselect (filteredPlayers sample_players (Some 2024)) (Some 7) = Some 8
  /\ exists p,
       In p sample_players /\ eligible p = true
       /\ reselect (filteredPlayers sample_players (Some 2024)) (Some 7)
          = Some (player_id p).
Proof.
  assert (H : filteredPlayers sample_players (Some 2024) <> [])
    by (vm_compute; discriminate).
  split; [exact H|]. split; [reflexivity|].
  destruct (@reselect_keeps_selection_listed sample_players (Some 2024)
              (Some 7) H) as [(p & H1 & H2 & _ & H4) _].
  exists p. repeat split; assumption.
Defined.

End AppFilters.

(** ** The number of seasons on the profile card *)

Section ProfileSeasonCount.

Import JS ProfileSeasons.
Local Open Scope Z_scope.

Lemma filter_numbers_upto (played : list (nullable Z)) :
  filter (fun s => match s with
                   | Value z => z <=? maxUiSeason
                   | _ => false
                   end) played
  = map (fun z => Value z)
        (filter (fun z => z <=? maxUiSeason) (presentValues played)).
Proof.
  induction played as [|s played IH]; [reflexivity|].
  destruct s as [| |z]; cbn [filter presentValues]; [exact IH | exact IH |].
  destruct (z <=? maxUiSeason); cbn [map]; rewrite IH; reflexivity.
Qed.

Lemma presentValues_length {A} (xs : list (nullable A)) :
  (List.length (presentValues xs) <= List.length xs)%nat.
Proof.
  induction xs as [|x xs IH]; [apply Nat.le_refl|].
  destruct x; simpl; lia.
Qed.

(** X18: the number of seasons shown on the profile card, case by case.
    With a seasons array it is the number [n] of listed numbers up to
    2024, which is at most the length of the array, and no chip is
    shown when [n] is 0.  Without an array and without a numeric
    [season_count] no chip is shown.  Otherwise it is [season_count]
    cut at 0 when [to_year] is missing or at most 2024, and
    [season_count - 1] cut at 0 exactly when [to_year] is past 2024.
    In every case a number that is shown is not negative. *)
Theorem displayed_season_count_exact (player : App.Player) :
  (forall played, App.seasons_played player = Some played ->
     let n := Z.of_nat
                (List.length
                   (filter (fun z => z <=? 2024) (presentValues played))) in
     n <= Z.of_nat (List.length played)
     /\ displayedSeasonCount player = (if n =? 0 then None else Some n))
  /\ (App.seasons_played player = None ->
      (App.season_count player = Null \/ App.season_count player = Undefined ->
       displayedSeasonCount player = None)
      /\ (forall raw, App.season_count player = Value raw ->
            (forall t, App.to_year player = Value t -> 2024 < t ->
                       displayedSeasonCount player = Some (Z.max 0 (raw - 1)))
            /\ (forall t, App.to_year player = Value t -> t <= 2024 ->
                          displayedSeasonCount player = Some (Z.max 0 raw))
            /\ (App.to_year player = Null \/ App.to_year player = Undefined ->
                displayedSeasonCount player = Some (Z.max 0 raw))))
  /\ (forall c, displayedSeasonCount player = Some c -> 0 <= c).
Proof.
  unfold displayedSeasonCount. split; [|split].
  - intros played E. rewrite E. cbv zeta.
    rewrite filter_numbers_upto, length_map.
    change maxUiSeason with 2024.
    set (kept := filter (fun z => z <=? 2024) (presentValues played)).
    assert (Hlen : (List.length kept <= List.length played)%nat).
    { eapply Nat.le_trans; [apply filter_length_le|].
      apply presentValues_length. }
    split; [lia|].
    destruct (Z.ltb_spec 0 (Z.of_nat (List.length kept))) as [Hpos|Hz];
      destruct (Z.eqb_spec (Z.of_nat (List.length kept)) 0) as [E0|E0];
      try reflexivity; lia.
  - intros E. rewrite E. split.
    + intros [H|H]; rewrite H; reflexivity.
    + intros raw Hraw. rewrite Hraw. change maxUiSeason with 2024.
      split; [|split].
      * intros t Ht Hlt. rewrite Ht.
        destruct (Z.ltb_spec 2024 t); [reflexivity | lia].
      * intros t Ht Hle. rewrite Ht.
        destruct (Z.ltb_spec 2024 t); [lia | reflexivity].
      * intros [H|H]; rewrite H; reflexivity.
  - intros c.
    destruct (App.seasons_played player) as [played|].
    + cbv zeta.
      destruct (Z.ltb_spec 0
                  (Z.of_nat
                     (List.length
                        (filter (fun s => match s with
                                          | Value z => z <=? maxUiSeason
                                          | _ => false
                                          end) played)))) as [Hpos|Hz];
        [|discriminate].
      intros H. inversion H; subst. lia.
    + destruct (App.season_count player) as [| |raw]; try discriminate.
      intros H. inversion H; subst. lia.
Qed.

(** A career of 6 counted seasons that runs to 2025 shows 5 seasons;
    the player with a seasons array shows the 4 listed. *)
Lemma displayed_season_count_exact_witness :
  App.seasons_played player_active = None
  /\ App.season_count player_active = Value 6
  /\ App.to_year player_active = Value 2025
  /\ 2024 < 2025
  /\ displayedSeasonCount player_active = Some (Z.max 0 (6 - 1))
  /\ App.seasons_played player_array
     = Some [Value 2019; Value 2020; Value 2021; Value 2022]
  /\ displayedSeasonCount player_array = Some 4.
Proof.
  assert (H1 : App.seasons_played player_active = None) by reflexivity.
  assert (H2 : App.season_count player_active = Value 6) by reflexivity.
  assert (H3 : App.to_year player_active = Value 2025) by reflexivity.
  assert (H4 : 2024 < 2025) by lia.
  assert (H5 : App.seasons_played player_array
               = Some [Value 2019; Value 2020; Value 2021; Value 2022])
    by reflexivity.
  split; [exact H1|]. split; [exact H2|]. split; [exact H3|].
  split; [exact H4|]. split.
  - destruct (displayed_season_count_exact player_active) as (_ & Hn & _).
    destruct (Hn H1) as (_ & Hraw).
    destruct (Hraw 6 H2) as (Hpast & _). exact (Hpast 2025 H3 H4).
  - split; [exact H5|].
    destruct (displayed_season_count_exact player_array) as (Ha & _).
    destruct (Ha _ H5) as (_ & Hc). exact Hc.
Defined.

End ProfileSeasonCount.

(** ** Order on the chart, and the outer ring of the radar *)

Section Monotone.

Import JS CareerScale.
Local Open Scope Q_scope.

Lemma season_divisor_pos (mn mx : Z) :
  (mn <= mx)%Z -> 0 < orElse (inject_Z mx - inject_Z mn) 1.
Proof.
  intros H. apply orElse_pos; [|reflexivity].
  assert (Hq : inject_Z mn <= inject_Z mx) by (rewrite <- Zle_Qle; exact H).
  lra.
Qed.

Lemma value_divisor_pos (minS maxS : Q) :
  minS <= maxS ->
  0 < orElse (maxS + padY minS maxS - (minS - padY minS maxS)) 1.
Proof.
  intros H. pose proof (padY_pos H) as Hp.
  apply orElse_pos; [lra | reflexivity].
Qed.

Lemma div_le_mono (a b d : Q) : 0 < d -> a <= b -> a / d <= b / d.
Proof.
  intros Hd Hab. unfold Qdiv. apply Qmult_le_compat_r; [exact Hab|].
  apply Qlt_le_weak. apply Qinv_lt_0_compat. exact Hd.
Qed.

(** X20: the scales of the second version keep the order of the data: a
    later season is never drawn to the left of an earlier one, and a
    larger value is never drawn lower (its ordinate is not larger). *)
Theorem scales_keep_order (mn mx s s' : Z) (minS maxS v w : Q) :
  (mn <= mx)%Z -> minS <= maxS ->
  (s <= s')%Z -> v <= w ->
  xScale2 mn mx s <= xScale2 mn mx s'
  /\ yScale2 minS maxS w <= yScale2 minS maxS v.
Proof.
  intros Hdom Hval Hs Hv. split.
  - unfold xScale2.
    pose proof (season_divisor_pos Hdom) as Hd.
    assert (Hq : inject_Z s <= inject_Z s') by (rewrite <- Zle_Qle; exact Hs).
    assert (Hr : (inject_Z s - inject_Z mn)
                 / orElse (inject_Z mx - inject_Z mn) 1
                 <= (inject_Z s' - inject_Z mn)
                    / orElse (inject_Z mx - inject_Z mn) 1)
      by (apply div_le_mono; [exact Hd | lra]).
    set (r := (inject_Z s - inject_Z mn) / orElse (inject_Z mx - inject_Z mn) 1) in *.
    set (r' := (inject_Z s' - inject_Z mn) / orElse (inject_Z mx - inject_Z mn) 1) in *.
    unfold CareerChart2.width, CareerChart2.pad_left, CareerChart2.pad_right.
    lra.
  - unfold yScale2.
    pose proof (value_divisor_pos Hval) as Hd.
    assert (Hr : (v - (minS - padY minS maxS))
                 / orElse (maxS + padY minS maxS - (minS - padY minS maxS)) 1
                 <= (w - (minS - padY minS maxS))
                    / orElse (maxS + padY minS maxS - (minS - padY minS maxS)) 1)
      by (apply div_le_mono; [exact Hd | lra]).
    set (r := (v - (minS - padY minS maxS))
              / orElse (maxS + padY minS maxS - (minS - padY minS maxS)) 1) in *.
    set (r' := (w - (minS - padY minS maxS))
               / orElse (maxS + padY minS maxS - (minS - padY minS maxS)) 1) in *.
    unfold CareerChart2.height, CareerChart2.pad_top, CareerChart2.pad_bottom.
    lra.
Qed.

Lemma scales_keep_order_witness :
  (2020 <= 2022)%Z /\ (182 # 10) <= (245 # 10)
  /\ xScale2 2020 2022 2020 <= xScale2 2020 2022 2022
  /\ yScale2 (182 # 10) (245 # 10) (245 # 10)
     <= yScale2 (182 # 10) (245 # 10) (182 # 10).
Proof.
  assert (H1 : (2020 <= 2022)%Z) by lia.
  assert (H2 : (182 # 10) <= (245 # 10)) by (vm_compute; discriminate).
  split; [exact H1|]. split; [exact H2|].
  exact (@scales_keep_order 2020 2022 2020 2022 (182 # 10) (245 # 10)
           (182 # 10) (245 # 10) H1 H2 H1 H2).
Defined.

End Monotone.

Section RadarOuterRing.

Import JS.
Local Open Scope Q_scope.

Lemma Qmax_pick (x y : Q) : Qmax x y = x \/ Qmax x y = y.
Proof.
  unfold Qmax, GenericMinMax.gmax. destruct (x ?= y); auto.
Qed.

Lemma Math_max_In (vs : list Q) (v : Q) : In (Math_max v vs) (v :: vs).
Proof.
  unfold Math_max. revert v.
  induction vs as [|w vs IH]; intros v; simpl; [left; reflexivity|].
  destruct (IH (Qmax v w)) as [H|H].
  - destruct (Qmax_pick v w) as [E|E]; rewrite E in *; auto.
  - right. right. exact H.
Qed.

Lemma presentValues_from {A} (xs : list (nullable A)) (a : A) :
  In a (presentValues xs) -> In (Value a) xs.
Proof.
  induction xs as [|x xs IH]; [contradiction|].
  destruct x; simpl; intros H; auto. destruct H as [->|H]; auto.
Qed.

(** X21: on every axis of the RadarChart on which some series has a
    positive value, a series holding the largest value is drawn on the
    outer ring: its normalized value is 1. *)
Theorem radar_maximum_on_outer_ring (data : list RadarChart.Series)
    (k : RadarChart.AxisKey) (s0 : RadarChart.Series) (q : Q) :
  In s0 data -> RadarChart.field s0 k = Value q -> 0 < q ->
  exists s m,
    In s data /\ RadarChart.field s k = Value m
    /\ (forall s' x, In s' data -> RadarChart.field s' k = Value x -> x <= m)
    /\ RadarChart.maxPerAxis data k = m
    /\ RadarChart.val data s k == 1.
Proof.
  intros Hin Hf Hq.
  assert (Hmem : In q (RadarChart.vals data k)).
  { unfold RadarChart.vals. apply presentValues_In. rewrite <- Hf.
    apply (in_map (fun s => RadarChart.field s k)). exact Hin. }
  destruct (RadarChart.vals data k) as [|v vs] eqn:Ev; [contradiction|].
  set (m := Math_max v vs).
  assert (Hm : In m (RadarChart.vals data k))
    by (rewrite Ev; apply Math_max_In).
  assert (Hpos : 0 < m).
  { eapply Qlt_le_trans; [exact Hq|]. apply Math_max_ge. exact Hmem. }
  assert (Hmax : RadarChart.maxPerAxis data k = m).
  { unfold RadarChart.maxPerAxis. rewrite Ev. apply orElse_keep.
    intros E. fold m in E. rewrite E in Hpos. exact (Qlt_irrefl _ Hpos). }
  unfold RadarChart.vals in Hm. apply presentValues_from in Hm.
  apply in_map_iff in Hm. destruct Hm as (s & Hs & Hsin).
  exists s, m. split; [exact Hsin|]. split; [exact Hs|]. split; [|split].
  - intros s' x Hs' Hx.
    assert (Hx' : In x (v :: vs)).
    { rewrite <- Ev. unfold RadarChart.vals. apply presentValues_In.
      rewrite <- Hx. apply (in_map (fun s => RadarChart.field s k)). exact Hs'. }
    apply Math_max_ge. exact Hx'.
  - exact Hmax.
  - unfold RadarChart.val, RadarChart.divisor. rewrite Hs, Hmax. simpl nullish.
    rewrite orElse_keep
      by (intros E; rewrite E in Hpos; exact (Qlt_irrefl _ Hpos)).
    assert (E1 : m / m == 1)
      by (field; intros E; rewrite E in Hpos; exact (Qlt_irrefl _ Hpos)).
    destruct (Q.min_spec (m / m) 1) as [[_ E]|[_ E]]; rewrite E;
      [exact E1 | reflexivity].
Qed.

Lemma radar_maximum_on_outer_ring_witness :
  In radar_high [radar_low; radar_high]
  /\ RadarChart.field radar_high RadarChart.k_value_score = Value (10 # 1)
  /\ 0 < 10 # 1
  /\ exists s m,
       In s [radar_low; radar_high]
       /\ RadarChart.field s RadarChart.k_value_score = Value m
       /\ RadarChart.val [radar_low; radar_high] s RadarChart.k_value_score == 1.
Proof.
  assert (H1 : In radar_high [radar_low; radar_high])
    by (right; left; reflexivity).
  assert (H2 : RadarChart.field radar_high RadarChart.k_value_score
               = Value (10 # 1)) by reflexivity.
  assert (H3 : 0 < 10 # 1) by reflexivity.
  split; [exact H1|]. split; [exact H2|]. split; [exact H3|].
  destruct (@radar_maximum_on_outer_ring _ _ _ _ H1 H2 H3)
    as (s & m & Hs & Hf & _ & _ & Hv).
  exists s, m. repeat split; assumption.
Defined.

End RadarOuterRing.

Section SpiderColours.

Import CountingGeometrySpider.

(** X22: the colours of the comparison series repeat with period 6 and
    are pairwise different within a period; with the highlight colour of
    the selected series, the first seven series of the spider all have
    different colours. *)
Theorem spider_colors_distinct (j k n : nat) :
  (j < k)%nat -> (k <= 6)%nat -> (1 <= n)%nat ->
  seriesColor j <> seriesColor k
  /\ seriesColor (n + 6) = seriesColor n.
Proof.
  intros Hjk Hk Hn. split.
  - destruct k as [|[|[|[|[|[|[|k]]]]]]]; try lia;
      destruct j as [|[|[|[|[|[|j]]]]]]; try lia;
      vm_compute; discriminate.
  - destruct n as [|n]; [lia|].
    unfold seriesColor. cbn [Nat.add Nat.eqb].
    replace (S (n + 6) - 1)%nat with (n + 1 * 6)%nat by lia.
    replace (S n - 1)%nat with n by lia.
    change (List.length palette) with 6%nat.
    rewrite Nat.Div0.mod_add. reflexivity.
Qed.

Lemma spider_colors_distinct_witness :
  (1 < 3)%nat /\ (3 <= 6)%nat /\ (1 <= 2)%nat
  /\ seriesColor 1 <> seriesColor 3 /\ seriesColor 8 = seriesColor 2.
Proof.
  assert (H1 : (1 < 3)%nat) by lia. assert (H2 : (3 <= 6)%nat) by lia.
  assert (H3 : (1 <= 2)%nat) by lia.
  split; [exact H1|]. split; [exact H2|]. split; [exact H3|].
  exact (spider_colors_distinct H1 H2 H3).
Defined.

(** X23: legend and chart agree.  The comparison node at position [j]
    of the legend stands for the series at index [j + 1], and its colour
    swatch is the stroke colour of the polygon of that series; the
    selected node stands for the series of the polygon drawn as
    selected. *)
Theorem legend_matches_polygons (series : list Series) (legend : Legend)
    (j : nat) (node : LegendNode) :
  LegendTree series seriesColor = Some legend ->
  nth_error (legend_comps legend) j = Some node ->
  (exists pg, nth_error (polygons series) (S j) = Some pg
              /\ poly_key pg = player_id (node_series node)
              /\ poly_stroke pg = node_color node
              /\ poly_selected pg = false)
  /\ (exists pg0, nth_error (polygons series) 0 = Some pg0
                  /\ poly_key pg0 = player_id (legend_selected legend)
                  /\ poly_selected pg0 = true).
Proof.
  intros E Hn. unfold LegendTree in E.
  destruct series as [|s0 rest]; [discriminate E|].
  cbn [nth_error] in E. inversion E; subst; clear E.
  cbn [legend_comps legend_selected] in *.
  rewrite mapi_nth_error in Hn.
  destruct (nth_error (JS.slice 1 4 (s0 :: rest)) j) as [c|] eqn:Ec;
    [|discriminate Hn].
  cbn [option_map] in Hn. inversion Hn; subst; clear Hn.
  cbn [node_series node_color].
  assert (Hc : nth_error (s0 :: rest) (S j) = Some c).
  { change (JS.slice 1 4 (s0 :: rest)) with (firstn 3 rest) in Ec.
    rewrite nth_error_firstn in Ec.
    destruct (Nat.ltb_spec j 3); [exact Ec | discriminate Ec]. }
  split.
  - eexists. split; [apply polygons_nth; exact Hc|].
    cbn [poly_key poly_stroke poly_selected]. rewrite Nat.add_1_r.
    repeat split; reflexivity.
  - eexists. split; [apply (@polygons_nth (s0 :: rest) 0 s0); reflexivity|].
    split; reflexivity.
Qed.

Lemma legend_matches_polygons_witness :
  exists legend node,
    LegendTree (map spider_sample [1; 2; 3; 4; 5]%Z) seriesColor = Some legend
    /\ nth_error (legend_comps legend) 2 = Some node
    /\ exists pg,
         nth_error (polygons (map spider_sample [1; 2; 3; 4; 5]%Z)) 3 = Some pg
         /\ poly_stroke pg = node_color node.
Proof.
  eexists. eexists.
  assert (H1 : LegendTree (map spider_sample [1; 2; 3; 4; 5]%Z) seriesColor
               = Some {| legend_selected := spider_sample 1;
                         legend_comps :=
                           [ {| node_rank := 1; node_series := spider_sample 2;
                                node_color := seriesColor 1 |};
                             {| node_rank := 2; node_series := spider_sample 3;
                                node_color := seriesColor 2 |};
                             {| node_rank := 3; node_series := spider_sample 4;
                                node_color := seriesColor 3 |} ] |})
    by reflexivity.
  split; [exact H1|]. split; [reflexivity|].
  destruct (@legend_matches_polygons _ _ 2 _ H1 eq_refl)
    as [(pg & Hp & _ & Hs & _) _].
  exists pg. split; [exact Hp | exact Hs].
Defined.

End SpiderColours.
(** ** Gaps, knots and annotations of the career chart *)

Section Gaps.

Import JS Career CareerScale.
Local Open Scope Q_scope.

Lemma div_lt_mono (a b d : Q) : 0 < d -> a < b -> a / d < b / d.
Proof.
  intros Hd Hab. unfold Qdiv.
  apply Qmult_lt_compat_r; [apply Qinv_lt_0_compat; exact Hd | exact Hab].
Qed.

(** A larger value is drawn higher: its ordinate is smaller. *)
Lemma yScale2_order (minS maxS v w : Q) :
  minS <= maxS ->
  (v <= w -> yScale2 minS maxS w <= yScale2 minS maxS v)
  /\ (v < w -> yScale2 minS maxS w < yScale2 minS maxS v).
Proof.
  intros Hval. unfold yScale2.
  pose proof (value_divisor_pos Hval) as Hd.
  set (d := orElse (maxS + padY minS maxS - (minS - padY minS maxS)) 1) in *.
  unfold CareerChart2.height, CareerChart2.pad_top, CareerChart2.pad_bottom.
  split; intros Hv.
  - assert (Hr : (v - (minS - padY minS maxS)) / d
                 <= (w - (minS - padY minS maxS)) / d)
      by (apply div_le_mono; [exact Hd | lra]).
    set (r := (v - (minS - padY minS maxS)) / d) in *.
    set (r' := (w - (minS - padY minS maxS)) / d) in *.
    lra.
  - assert (Hr : (v - (minS - padY minS maxS)) / d
                 < (w - (minS - padY minS maxS)) / d)
      by (apply div_lt_mono; [exact Hd | lra]).
    set (r := (v - (minS - padY minS maxS)) / d) in *.
    set (r' := (w - (minS - padY minS maxS)) / d) in *.
    lra.
Qed.

(** A later season is drawn further to the right. *)
Lemma xScale2_increasing (mn mx s s' : Z) :
  (mn <= mx)%Z -> (s < s')%Z -> xScale2 mn mx s < xScale2 mn mx s'.
Proof.
  intros Hdom Hs. unfold xScale2.
  pose proof (season_divisor_pos Hdom) as Hd.
  set (d := orElse (inject_Z mx - inject_Z mn) 1) in *.
  assert (Hq : inject_Z s < inject_Z s') by (rewrite <- Zlt_Qlt; exact Hs).
  assert (Hr : (inject_Z s - inject_Z mn) / d < (inject_Z s' - inject_Z mn) / d)
    by (apply div_lt_mono; [exact Hd | lra]).
  set (r := (inject_Z s - inject_Z mn) / d) in *.
  set (r' := (inject_Z s' - inject_Z mn) / d) in *.
  unfold CareerChart2.width, CareerChart2.pad_left, CareerChart2.pad_right.
  lra.
Qed.

(** The circle of the [i]-th sample with a value. *)
Lemma marks_nth (xs : Z -> Q) (ys : Q -> Q) (trajectory : list Sample)
    (i : nat) (t : Sample) (m : Mark) (q : Q) :
  nth_error (filter hasValue trajectory) i = Some t ->
  nth_error (marks xs ys trajectory) i = Some m ->
  value_score t = Value q ->
  mark_x m = xs (season t) /\ mark_y m = ys q.
Proof.
  intros Ht Hm Hq. unfold marks in Hm.
  rewrite nth_error_map, Ht in Hm. simpl in Hm.
  inversion Hm; subst. simpl. rewrite Hq. split; reflexivity.
Qed.

(** The Catmull-Rom path is one chain of cubics, one per pair of
    neighbouring points. *)
Lemma catmull_count (pts : list (Q * Q)) :
  List.length (Bezier.curves (CareerChart2.buildSmoothPath pts))
  = (List.length pts - 1)%nat.
Proof.
  unfold CareerChart2.buildSmoothPath, Bezier.curves.
  destruct (Nat.ltb_spec (List.length pts) 2) as [Hlt|_].
  - simpl. lia.
  - cbn [Bezier.draw]. apply draw_catmull_length.
Qed.

Lemma catmull_chain (pts : list (Q * Q)) (i : nat) (a b : Q * Q) :
  nth_error pts i = Some a ->
  nth_error pts (S i) = Some b ->
  exists c1 c2,
    nth_error (Bezier.curves (CareerChart2.buildSmoothPath pts)) i
    = Some (Bezier.Cubic a c1 c2 b).
Proof.
  intros Ha Hb.
  assert (Hlen : (S i < List.length pts)%nat).
  { apply nth_error_Some. rewrite Hb. discriminate. }
  unfold CareerChart2.buildSmoothPath, Bezier.curves.
  destruct (Nat.ltb_spec (List.length pts) 2) as [Hlt|_]; [lia|].
  cbn [Bezier.draw].
  destruct (@draw_catmull_nth pts (List.length pts - 1) 0
              (nth 0 pts (0, 0)%Q) i) as (c1 & c2 & E); [lia | lia |].
  simpl Nat.add in E.
  rewrite (nth_error_nth pts i (0, 0)%Q Ha) in E.
  rewrite (nth_error_nth pts (S i) (0, 0)%Q Hb) in E.
  exists c1, c2. exact E.
Qed.

(** The knots of the quadratic path: the points and the middles of
    neighbours. *)
Lemma anchors_segs (pts : list (Q * Q)) :
  anchors (CareerChart1.segs pts)
  = flat_map (fun ab => [midpoint (fst ab) (snd ab); snd ab]) (neighbours pts).
Proof.
  induction pts as [|[x0 y0] r IH]; [reflexivity|].
  destruct r as [|[x1 y1] r']; [reflexivity|].
  rewrite segs_cons.
  change (neighbours ((x0, y0) :: (x1, y1) :: r'))
    with (((x0, y0), (x1, y1)) :: neighbours ((x1, y1) :: r')).
  cbn [flat_map app fst snd]. rewrite <- IH. reflexivity.
Qed.

Lemma quadratic_anchors (pts : list (Q * Q)) :
  (2 <= List.length pts)%nat ->
  anchors (CareerChart1.buildSmoothPath pts) = quadKnots pts.
Proof.
  intros H. unfold CareerChart1.buildSmoothPath.
  destruct (Nat.ltb_spec (List.length pts) 2) as [Hlt|_]; [lia|].
  destruct pts as [|k0 r]; [simpl in H; lia|].
  change (anchors (Svg.MoveTo (nth 0 (k0 :: r) (0, 0)) :: ?l))
    with (nth 0 (k0 :: r) (0, 0) :: anchors l).
  rewrite anchors_segs. reflexivity.
Qed.

Lemma cubic_half_abscissa (a c1 c2 b : Q * Q) :
  fst (Bezier.pointAt (Bezier.Cubic a c1 c2 b) (1 / 2))
  = Q2R ((fst a + 3 * fst c1 + 3 * fst c2 + fst b) / 8).
Proof.
  assert (H3 : Q2R 3 = 3%R) by (unfold Q2R; simpl; lra).
  assert (H8 : Q2R 8 = 8%R) by (unfold Q2R; simpl; lra).
  rewrite Q2R_div by discriminate.
  rewrite !Q2R_plus, !Q2R_mult, H3, H8.
  unfold Bezier.pointAt, Bezier.cubicCoord. simpl fst. field.
Qed.

(** A cubic takes every abscissa between its two ends. *)
Lemma cubic_coord_onto (a c1 c2 b x : R) :
  (a <= x <= b \/ b <= x <= a)%R ->
  exists u : R, (0 <= u <= 1)%R /\ Bezier.cubicCoord u a c1 c2 b = x.
Proof.
  intros H.
  destruct (Req_dec x a) as [->|Ha].
  { exists 0%R. split; [lra|]. unfold Bezier.cubicCoord. ring. }
  destruct (Req_dec x b) as [->|Hb].
  { exists 1%R. split; [lra|]. unfold Bezier.cubicCoord. ring. }
  destruct H as [[H1 H2]|[H1 H2]].
  - assert (Hc : continuity (fun u => Bezier.cubicCoord u a c1 c2 b - x)%R).
    { unfold Bezier.cubicCoord. reg. }
    destruct (IVT (fun u => Bezier.cubicCoord u a c1 c2 b - x)%R 0 1 Hc)
      as [z [Hz Hfz]].
    + lra.
    + unfold Bezier.cubicCoord. lra.
    + unfold Bezier.cubicCoord. lra.
    + exists z. split; [exact Hz | lra].
  - assert (Hc : continuity (fun u => x - Bezier.cubicCoord u a c1 c2 b)%R).
    { unfold Bezier.cubicCoord. reg. }
    destruct (IVT (fun u => x - Bezier.cubicCoord u a c1 c2 b)%R 0 1 Hc)
      as [z [Hz Hfz]].
    + lra.
    + unfold Bezier.cubicCoord. lra.
    + unfold Bezier.cubicCoord. lra.
    + exists z. split; [exact Hz | lra].
Qed.

(** The Catmull-Rom path is drawn at every abscissa between two
    neighbouring points. *)
Lemma catmull_drawn_between (pts : list (Q * Q)) (i : nat) (a b : Q * Q) (x : R) :
  nth_error pts i = Some a ->
  nth_error pts (S i) = Some b ->
  (Q2R (fst a) <= x <= Q2R (fst b) \/ Q2R (fst b) <= x <= Q2R (fst a))%R ->
  drawnAt (CareerChart2.buildSmoothPath pts) x.
Proof.
  intros Ha Hb Hx.
  destruct (catmull_chain pts i Ha Hb) as (c1 & c2 & E).
  destruct (cubic_coord_onto (Q2R (fst c1)) (Q2R (fst c2)) Hx) as (u & Hu & Eu).
  exists (Bezier.Cubic a c1 c2 b), u.
  split; [eapply nth_error_In; exact E|]. split; [exact Hu | exact Eu].
Qed.

(** The claim C7 as stated fails where it says that absent values are
    never interpolated across.  In the scenario the season 2021 has no
    value; the second version draws one cubic from the circle of 2020 to
    the circle of 2022, and at the parameter 1/2 that cubic is at
    x = 321, the abscissa of 2021. *)
Lemma scenario_curve_crosses_gap : ~ neverInterpolatedAcross scenario [].
Proof.
  unfold neverInterpolatedAcross. intros [H _].
  remember (CareerChart2.render scenario []) as v eqn:Ev.
  vm_compute in Ev. subst v. cbv beta iota zeta in H.
  apply (H {| season := 2021; value_score := Null; annotation := Null |}).
  - right. left. reflexivity.
  - reflexivity.
  - eexists. exists (1 / 2)%R. split; [left; reflexivity|].
    split; [lra|].
    rewrite cubic_half_abscissa. apply Qeq_eqR. vm_compute. reflexivity.
Qed.

(** The first version has a knot of its path there: the middle of the
    circles of 2020 and 2022 is at x = 320, the abscissa of 2021. *)
Example scenario_knot_in_gap :
  match CareerChart1.render scenario with
  | CareerChart1.NoData => False
  | CareerChart1.Chart path _ =>
      map (fun k => (Qred (fst k), Qred (snd k))) (anchors path)
      = [(20, 610 # 3); (320, 120); (620, 110 # 3)]
      /\ Qred (xScale1 2020 2022 2021) = 320
  end.
Proof. vm_compute. split; reflexivity. Qed.

End Gaps.

Section FittedPoints.

Import JS Career CareerScale.
Local Open Scope Q_scope.

Lemma present_domain_order (trajectory comparisonTrajectory : list Sample)
    (t : Sample) :
  In t (filter hasValue trajectory) ->
  let allSeasons := seasonsOf (points trajectory)
                    ++ seasonsOf (points comparisonTrajectory) in
  let successes := successesOf (points trajectory)
                   ++ successesOf (points comparisonTrajectory) in
  (minZ allSeasons <= maxZ allSeasons)%Z /\ minQ successes <= maxQ successes.
Proof.
  intros Ht allSeasons successes.
  destruct (present_in_domains trajectory t Ht) as [Hs Hv]. split.
  - assert (H : (minZ allSeasons <= season t <= maxZ allSeasons)%Z)
      by (apply minZ_maxZ_bounds; apply in_or_app; left; exact Hs).
    lia.
  - assert (H : minQ successes <= asNumber (value_score t) <= maxQ successes)
      by (apply minQ_maxQ_bounds; apply in_or_app; left; exact Hv).
    destruct H as [H1 H2]. eapply Qle_trans; eassumption.
Qed.

(** C7, amended: the points handed to the curve fitter are the samples
    of the trajectory that have a value, in order, with their seasons
    and values; a sample without a value gives no point, no circle and
    no knot.

    In the second version the knots of the path are exactly the circles
    as soon as there are two of them (with fewer the path is empty), and
    the path is one unbroken chain: one cubic per pair of neighbouring
    circles, from the one to the other, so a season without a value is
    passed over by the cubic that joins the circle before it to the
    circle after it: the path is drawn at every abscissa between two
    neighbouring circles.  The circles are placed by the data: a later
    season is further to the right, a larger value is never lower, and
    the largest value of the two series is strictly higher than the
    smallest one (among doubles two values in between may share a
    height when they are closer than the rounding; the two extremes
    never do).

    In the first version the knots of the path are the circles and, for
    every pair of neighbouring circles, the middle of the two. *)
Theorem fitted_points_are_present (trajectory comparisonTrajectory : list Sample) :
  let present := filter hasValue trajectory in
  let pos := fun m : Mark => (mark_x m, mark_y m) in
  (forall t, In t present <-> In t trajectory /\ exists q, value_score t = Value q)
  /\ map (fun p => (p_season p, success p)) (points trajectory)
     = map (fun t => (season t, value_score t)) present
  /\ match CareerChart2.render trajectory comparisonTrajectory with
     | CareerChart2.NoData => present = []
     | CareerChart2.Chart path _ _ dots _ =>
         map mark_season dots = map season present
         /\ path = CareerChart2.buildSmoothPath (map pos dots)
         /\ ((2 <= List.length present)%nat -> anchors path = map pos dots)
         /\ ((List.length present < 2)%nat -> path = [])
         /\ List.length (Bezier.curves path) = (List.length present - 1)%nat
         /\ (forall i a b,
               nth_error dots i = Some a -> nth_error dots (S i) = Some b ->
               exists c1 c2,
                 nth_error (Bezier.curves path) i
                 = Some (Bezier.Cubic (pos a) c1 c2 (pos b)))
         /\ (forall i a b (x : R),
               nth_error dots i = Some a -> nth_error dots (S i) = Some b ->
               (Q2R (mark_x a) <= x <= Q2R (mark_x b)
                \/ Q2R (mark_x b) <= x <= Q2R (mark_x a))%R ->
               drawnAt path x)
         /\ (forall i j ti tj qi qj mi mj,
               nth_error present i = Some ti -> nth_error dots i = Some mi ->
               value_score ti = Value qi ->
               nth_error present j = Some tj -> nth_error dots j = Some mj ->
               value_score tj = Value qj ->
               ((season ti < season tj)%Z -> mark_x mi < mark_x mj)
               /\ (qi <= qj -> mark_y mj <= mark_y mi)
               /\ (qi < qj ->
                   (forall t q, In t (trajectory ++ comparisonTrajectory) ->
                                value_score t = Value q -> qi <= q <= qj) ->
                   mark_y mj < mark_y mi))
     end
  /\ match CareerChart1.render trajectory with
     | CareerChart1.NoData => present = []
     | CareerChart1.Chart path dots =>
         map mark_season dots = map season present
         /\ path = CareerChart1.buildSmoothPath (map pos dots)
         /\ ((2 <= List.length present)%nat ->
             anchors path = quadKnots (map pos dots))
         /\ ((List.length present < 2)%nat -> path = [])
     end.
Proof.
  intros present pos. split; [|split; [|split]].
  - intros t. unfold present. rewrite filter_In, hasValue_value. reflexivity.
  - apply points_of_present.
  - pose proof (render2_primary trajectory comparisonTrajectory) as H.
    pose proof (render2_scales trajectory comparisonTrajectory) as Hsc.
    destruct (CareerChart2.render trajectory comparisonTrajectory)
      as [|path compPath compDots dots ticks]; [exact H|].
    destruct H as [Hs Hp]. fold pos in Hp.
    assert (Hlen : List.length (map pos dots) = List.length present).
    { rewrite length_map. rewrite <- (length_map mark_season), Hs.
      apply length_map. }
    split; [exact Hs|]. split; [exact Hp|].
    split; [intros Hn; rewrite Hp; apply catmull_anchors; rewrite Hlen; exact Hn|].
    split.
    { intros Hn. rewrite Hp. unfold CareerChart2.buildSmoothPath.
      rewrite Hlen.
      destruct (Nat.ltb_spec (List.length present) 2); [reflexivity | lia]. }
    split; [rewrite Hp, catmull_count, Hlen; reflexivity|].
    split.
    { intros i a b Ha Hb. rewrite Hp. apply catmull_chain.
      - rewrite nth_error_map, Ha. reflexivity.
      - rewrite nth_error_map, Hb. reflexivity. }
    split.
    { intros i a b x Ha Hb Hx. rewrite Hp.
      apply (@catmull_drawn_between (map pos dots) i (pos a) (pos b) x).
      - rewrite nth_error_map, Ha. reflexivity.
      - rewrite nth_error_map, Hb. reflexivity.
      - exact Hx. }
    intros i j ti tj qi qj mi mj Hti Hmi Hqi Htj Hmj Hqj.
    destruct (points trajectory) as [|p0 ps] eqn:E; [discriminate Hsc|].
    cbv zeta in Hsc. rewrite <- E in Hsc.
    injection Hsc as _ _ _ Hdots _. subst dots.
    destruct (marks_nth _ _ _ _ Hti Hmi Hqi) as [Hxi Hyi].
    destruct (marks_nth _ _ _ _ Htj Hmj Hqj) as [Hxj Hyj].
    rewrite Hxi, Hxj, Hyi, Hyj.
    assert (Hin : In ti (filter hasValue trajectory))
      by (eapply nth_error_In; exact Hti).
    destruct (present_domain_order trajectory comparisonTrajectory ti Hin)
      as [Hdz Hdq].
    split; [intros Hlt; apply xScale2_increasing; assumption|].
    destruct (yScale2_order qi qj Hdq) as [Hle Hlt].
    split; [exact Hle | intros Hq _; apply Hlt; exact Hq].
  - pose proof (render1_primary trajectory) as H.
    destruct (CareerChart1.render trajectory) as [|path dots]; [exact H|].
    destruct H as [Hs Hp]. fold pos in Hp.
    assert (Hlen : List.length (map pos dots) = List.length present).
    { rewrite length_map. rewrite <- (length_map mark_season), Hs.
      apply length_map. }
    split; [exact Hs|]. split; [exact Hp|]. split.
    + intros Hn. rewrite Hp. apply quadratic_anchors. rewrite Hlen. exact Hn.
    + intros Hn. rewrite Hp. unfold CareerChart1.buildSmoothPath.
      rewrite Hlen.
      destruct (Nat.ltb_spec (List.length present) 2); [reflexivity | lia].
Qed.

(** The scenario: seasons 2020 and 2022 have a value, 2021 has none.
    Two circles, which are the two knots of the one cubic of the second
    version; the circle of 2022, the larger value, is to the right of
    and higher than the circle of 2020; the first version has the
    middle of the two as a third knot. *)
Lemma fitted_points_are_present_witness :
  (2 <= List.length (filter hasValue scenario))%nat
  /\ match CareerChart2.render scenario [] with
     | CareerChart2.NoData => False
     | CareerChart2.Chart path _ _ dots _ =>
         map mark_season dots = [2020; 2022]%Z
         /\ anchors path = map (fun m => (mark_x m, mark_y m)) dots
         /\ List.length (Bezier.curves path) = 1%nat
         /\ match dots with
            | [m2020; m2022] =>
                mark_x m2020 < mark_x m2022 /\ mark_y m2022 < mark_y m2020
            | _ => False
            end
         /\ drawnAt path (Q2R (xScale2 2020 2022 2021))
     end
  /\ match CareerChart1.render scenario with
     | CareerChart1.NoData => False
     | CareerChart1.Chart path dots =>
         anchors path = quadKnots (map (fun m => (mark_x m, mark_y m)) dots)
     end.
Proof.
  assert (H : (2 <= List.length (filter hasValue scenario))%nat)
    by (simpl; lia).
  split; [exact H|].
  destruct (fitted_points_are_present scenario []) as (_ & _ & H2 & H1).
  split.
  - destruct (CareerChart2.render scenario [])
      as [|path compPath compDots dots ticks] eqn:Ev.
    + vm_compute in Ev. discriminate Ev.
    + destruct H2 as (Hs & _ & Ha & _ & Hc & _ & Hd & Hv).
      split; [exact Hs|]. split; [exact (Ha H)|]. split; [exact Hc|].
      destruct dots as [|m2020 [|m2022 [|m r]]]; try discriminate Hs.
      assert (Hgap : drawnAt path (Q2R (xScale2 2020 2022 2021))).
      { apply (Hd 0%nat m2020 m2022); [reflexivity | reflexivity |].
        vm_compute in Ev. injection Ev as _ _ _ E0 E1 _. subst m2020 m2022.
        left. split; apply Qle_Rle; vm_compute; discriminate. }
      cut (mark_x m2020 < mark_x m2022 /\ mark_y m2022 < mark_y m2020);
        [intros Hxy; split; [exact Hxy | exact Hgap]|].
      clear Hgap.
      destruct (Hv 0%nat 1%nat
                  {| season := 2020; value_score := Value (182 # 10);
                     annotation := Null |}
                  {| season := 2022; value_score := Value (245 # 10);
                     annotation := Value "All-Star"%string |}
                  (182 # 10) (245 # 10) m2020 m2022
                  eq_refl eq_refl eq_refl eq_refl eq_refl eq_refl)
        as (Hx & _ & Hy).
      split; [apply Hx; simpl; lia|].
      apply Hy; [reflexivity|].
      intros t q [<-|[<-|[<-|[]]]] Hq; simpl in Hq; inversion Hq; subst;
        split; discriminate.
  - destruct (CareerChart1.render scenario) as [|path dots] eqn:Ev.
    + vm_compute in Ev. discriminate Ev.
    + destruct H1 as (_ & _ & Ha & _). exact (Ha H).
Defined.

End FittedPoints.

Section Annotations.

Import JS Career.
Local Open Scope Q_scope.

(** The note of every sample with a value, under any scales. *)
Lemma marks_notes (xs : Z -> Q) (ys : Q -> Q) (trajectory : list Sample) :
  Forall2 (fun t m =>
             mark_season m = season t
             /\ match annotation t with
                | Value text =>
                    if String.eqb text EmptyString then mark_note m = None
                    else mark_note m = Some (text, yPos (mark_y m))
                | _ => mark_note m = None
                end)
          (filter hasValue trajectory) (marks xs ys trajectory).
Proof.
  unfold marks. induction (filter hasValue trajectory) as [|t l IH];
    [constructor|].
  cbn [map]. constructor; [|exact IH]. simpl. split; [reflexivity|].
  destruct (annotation t) as [| |text]; try reflexivity.
  simpl. destruct (String.eqb text EmptyString); reflexivity.
Qed.

(** C8: the annotation of a point drawn at height [y] goes 60 above it
    ([y - 60], a smaller ordinate) unless that ordinate is less than 10,
    the guard distance from the top edge [0] of the frame; exactly then
    it goes 40 below ([y + 40]).

    Both versions of the chart annotate by this rule.  Each sample with
    a value has its circle, in order; the circle carries an annotation
    exactly when the annotation of the sample is a non-empty string, the
    text is that string, and its ordinate is [yPos] of the ordinate of
    the circle itself, whatever the scale made of the value. *)
Theorem annotation_placement (y : Q)
    (trajectory comparisonTrajectory : list Sample) :
  let placed := fun (t : Sample) (m : Mark) =>
    mark_season m = season t
    /\ match annotation t with
       | Value text =>
           if String.eqb text EmptyString then mark_note m = None
           else mark_note m = Some (text, yPos (mark_y m))
       | _ => mark_note m = None
       end in
  (side y = Below <-> y - 60 < 10)
  /\ (side y = Above <-> 10 <= y - 60)
  /\ (side y = Above -> yPos y = y - 60 /\ yPos y < y)
  /\ (side y = Below -> yPos y = y + 40 /\ y < yPos y)
  /\ match CareerChart2.render trajectory comparisonTrajectory with
     | CareerChart2.NoData => filter hasValue trajectory = []
     | CareerChart2.Chart _ _ _ dots _ =>
         Forall2 placed (filter hasValue trajectory) dots
     end
  /\ match CareerChart1.render trajectory with
     | CareerChart1.NoData => filter hasValue trajectory = []
     | CareerChart1.Chart _ dots =>
         Forall2 placed (filter hasValue trajectory) dots
     end.
Proof.
  intros placed.
  assert (Hb : useBelow y = true <-> y - 60 < 10).
  { unfold useBelow, ltb. rewrite negb_true_iff.
    rewrite <- not_true_iff_false, Qle_bool_iff. split.
    - apply Qnot_le_lt.
    - apply Qlt_not_le. }
  assert (Hrule : (side y = Below <-> y - 60 < 10)
                  /\ (side y = Above <-> 10 <= y - 60)
                  /\ (side y = Above -> yPos y = y - 60 /\ yPos y < y)
                  /\ (side y = Below -> yPos y = y + 40 /\ y < yPos y)).
  { unfold side, yPos. destruct (useBelow y) eqn:E.
    - assert (Hlt : y - 60 < 10) by (apply Hb; reflexivity).
      split; [split; [intros _; exact Hlt | reflexivity]|].
      split; [split; [discriminate
                     | intros H; exfalso; revert Hlt; apply Qle_not_lt; exact H]|].
      split; [discriminate|].
      intros _; split; [reflexivity | lra].
    - assert (Hge : 10 <= y - 60).
      { apply Qnot_lt_le. intros H. apply Hb in H. discriminate H. }
      split; [split; [discriminate
                     | intros H; exfalso; revert H; apply Qle_not_lt; exact Hge]|].
      split; [split; [intros _; exact Hge | reflexivity]|].
      split; [intros _; split; [reflexivity | lra]|].
      discriminate. }
  destruct Hrule as (R1 & R2 & R3 & R4).
  split; [exact R1|]. split; [exact R2|]. split; [exact R3|].
  split; [exact R4|]. split.
  - unfold CareerChart2.render.
    destruct (points trajectory) as [|p0 ps] eqn:E.
    + apply points_nil. exact E.
    + cbv zeta. apply marks_notes.
  - unfold CareerChart1.render.
    destruct (points trajectory) as [|p0 ps] eqn:E.
    + apply points_nil. exact E.
    + cbv zeta. apply marks_notes.
Qed.

(** A circle at height 50 is too close to the top: its annotation goes
    to 90, below it.  In the scenario the sample of 2020 has no
    annotation and its circle none; the sample of 2022 is annotated and
    its circle carries the text at [yPos] of the ordinate of the
    circle. *)
Lemma annotation_placement_witness :
  (50 - 60 < 10) /\ side 50 = Below /\ yPos 50 = 50 + 40
  /\ match CareerChart2.render scenario [] with
     | CareerChart2.Chart _ _ _ [m2020; m2022] _ =>
         mark_note m2020 = None
         /\ mark_note m2022 = Some ("All-Star"%string, yPos (mark_y m2022))
     | _ => False
     end.
Proof.
  assert (H : 50 - 60 < 10) by reflexivity.
  destruct (annotation_placement 50 scenario [])
    as (Hb & _ & _ & Hp & H2 & _).
  split; [exact H|]. split; [apply Hb; exact H|].
  split; [apply Hp; apply Hb; exact H|].
  destruct (CareerChart2.render scenario [])
    as [|path compPath compDots dots ticks] eqn:Ev.
  - vm_compute in Ev. discriminate Ev.
  - simpl in H2. inversion H2 as [|t0 m0 l0 r0 P0 F0]; subst.
    inversion F0 as [|t1 m1 l1 r1 P1 F1]; subst.
    inversion F1; subst.
    destruct P0 as [_ P0]. destruct P1 as [_ P1]. simpl in P0, P1.
    split; [exact P0 | exact P1].
Defined.

End Annotations.
